(** * JSONLogic UI: rule labels, rendering tree, tree layout and flowchart emitter

    A shallow embedding of the rule-visualisation core of the repository:
    - [lib/tree/parser.ts]     ([buildLabel], [parseRuleToTree], the expansion toggles),
    - [lib/tree/layout.ts]     ([calculateTreeLayout], [calculateFitZoom]),
    - [lib/mermaid/converter.ts] ([escapeLabel], [toMermaidFlowchart]).

    Conventions of the embedding.
    - A JavaScript value of type [unknown] / [JsonLogicRule] is a [jsval].  The
      constructor [JUndefined] stands for what an out-of-range index read
      returns; a value produced by the JSON parser never contains it.
    - The entries of an object are kept in the order [Object.keys] lists them,
      so [keys[0]] is the key of the first entry.
    - Numbers of a rule are kept abstract: the code only ever prints and
      copies them, and the printer [String(n)], the built-in
      [JSON.stringify] and the number read back from the JSON text of a
      number are parameters of the development.
    - A conversion to a string that can throw returns an [option]; [None]
      is the [TypeError].
    - A string is a sequence of code units; every character the code inspects
      is an ASCII one.
    - Layout coordinates are rationals ([Q]), on which sums, halving and max
      are exact.  The source computes them in binary floating point, which
      agrees with the rationals where every quantity is a whole number, as
      with the default sizes; statements about exact positions are made for
      the default configuration.
    - The module-level id counters are threaded explicitly; functions whose
      recursion is not structural take a fuel argument and end in
      [OutOfFuel] when it runs out. *)

From Stdlib Require Import String Ascii List Bool Arith ZArith QArith Qminmax.
From Stdlib Require Import Lia Lqa DecimalString Decimal Permutation.
From Stdlib Require DecimalNat DecimalFacts.
Import ListNotations.
Local Open Scope nat_scope.
Local Open Scope list_scope.
Local Open Scope string_scope.
Set Warnings "-register-all".

(** ** Built-ins shared by the three source files *)

(** The double quote character, and a string wrapped in double quotes. *)
Definition dquote : string := String (ascii_of_nat 34) EmptyString.
Definition quoted (s : string) : string := dquote ++ s ++ dquote.

(** [Array.prototype.join] on an array of strings. *)
Definition join (sep : string) (parts : list string) : string :=
  String.concat sep parts.

(** [String(n)] for a non-negative integer: a length, an index, a counter. *)
Definition nat_toString (n : nat) : string :=
  NilZero.string_of_uint (Nat.to_uint n).

(** [Array.prototype.includes] on an array of strings. *)
Definition includes (xs : list string) (x : string) : bool :=
  existsb (String.eqb x) xs.

(** [a || b] on strings: the empty string is falsy. *)
Definition or_else (a b : string) : string :=
  if (a =? "")%string then b else a.

(** ** Outcomes and state

    A call returns, throws, or is cut off by the fuel.  The state [St] threaded
    through the calls is the module-level counter for the two compilers, and
    the object store for the functions that mutate tree objects. *)

Inductive outcome (A : Type) : Type :=
| Returns (a : A)
| Throws (error : string)
| OutOfFuel.
Arguments Returns {A} a.
Arguments Throws {A} error.
Arguments OutOfFuel {A}.

Definition M (St A : Type) : Type := St -> outcome (A * St).

Definition ret {St A} (a : A) : M St A := fun s => Returns (a, s).

Definition bind {St A B} (m : M St A) (k : A -> M St B) : M St B :=
  fun s =>
    match m s with
    | Returns (a, s') => k a s'
    | Throws e => Throws e
    | OutOfFuel => OutOfFuel
    end.

Definition throw {St A} (e : string) : M St A := fun _ => Throws e.
Definition out_of_fuel {St A} : M St A := fun _ => OutOfFuel.

Notation "x <- m ;; k" := (bind m (fun x => k))
  (at level 61, m at next level, right associativity).

(** [xs.map((x, index) => f(x, index))] with the effects of [f] in order. *)
Fixpoint mapi_from {St A B} (f : A -> nat -> M St B) (xs : list A) (i : nat)
  : M St (list B) :=
  match xs with
  | [] => ret []
  | x :: xs' =>
      y <- f x i ;;
      ys <- mapi_from f xs' (S i) ;;
      ret (y :: ys)
  end.

(** [xs.map(f)] and [xs.forEach(f)] with the effects of [f] in order. *)
Definition mapM {St A B} (f : A -> M St B) (xs : list A) : M St (list B) :=
  mapi_from (fun x _ => f x) xs 0.

Fixpoint forEach {St A} (f : A -> M St unit) (xs : list A) : M St unit :=
  match xs with
  | [] => ret tt
  | x :: xs' => _ <- f x ;; forEach f xs'
  end.

(** A computation without state that returns a value or throws a
    [TypeError]: [None] is the throw. *)
Definition and_then {A B} (r : option A) (k : A -> option B) : option B :=
  match r with
  | Some a => k a
  | None => None
  end.

Notation "x <-? r ;; k" := (and_then r (fun x => k))
  (at level 61, r at next level, right associativity).

(** The values of a list of computations, when each of them returns. *)
Fixpoint all_some {A} (rs : list (option A)) : option (list A) :=
  match rs with
  | [] => Some []
  | r :: rs' =>
      a <-? r ;;
      rest <-? all_some rs' ;;
      Some (a :: rest)
  end.

(** A computation of that kind inside a stateful one. *)
Definition TypeError : string :=
  "TypeError: Cannot convert object to primitive value".

Definition completes {St A} (r : option A) : M St A :=
  match r with
  | Some a => ret a
  | None => throw TypeError
  end.

(** ** Rule expressions *)

Inductive jsval (number : Type) : Type :=
| JUndefined
| JNull
| JBool (b : bool)
| JNumber (n : number)
| JString (s : string)
| JArray (items : list (jsval number))
| JObject (entries : list (string * jsval number)).

Arguments JUndefined {number}.
Arguments JNull {number}.
Arguments JBool {number} b.
Arguments JNumber {number} n.
Arguments JString {number} s.
Arguments JArray {number} items.
Arguments JObject {number} entries.

(** The host language: the number type of rule expressions, its printer
    [String(n)], the built-in [JSON.stringify], and what becomes of a number
    that is written as JSON text and read back: the number parsed from the
    text, or [None] when the text written is [null] ([NaN] and the two
    infinities).  A number may come back changed ([-0] comes back as [0]). *)
Class Host (number : Type) : Type := {
  Number_toString : number -> string;
  JSON_stringify : jsval number -> string;
  JSON_reparse_number : number -> option number
}.

Section Rules.

Context {number : Type} {host : Host number}.
#[local] Abbreviation jsval := (jsval number).

Section jsval_induction.
Variable P : jsval -> Prop.
Hypothesis P_undefined : P JUndefined.
Hypothesis P_null : P JNull.
Hypothesis P_bool : forall b, P (JBool b).
Hypothesis P_number : forall n, P (JNumber n).
Hypothesis P_string : forall s, P (JString s).
Hypothesis P_array : forall items, Forall P items -> P (JArray items).
Hypothesis P_object :
  forall entries, Forall (fun kv => P (snd kv)) entries -> P (JObject entries).

Fixpoint jsval_nested_ind (v : jsval) : P v :=
  match v with
  | JUndefined => P_undefined
  | JNull => P_null
  | JBool b => P_bool b
  | JNumber n => P_number n
  | JString s => P_string s
  | JArray items =>
      P_array items
        ((fix all (l : list jsval) : Forall P l :=
            match l with
            | [] => Forall_nil P
            | x :: l' => Forall_cons x (jsval_nested_ind x) (all l')
            end) items)
  | JObject entries =>
      P_object entries
        ((fix all (l : list (string * jsval))
            : Forall (fun kv => P (snd kv)) l :=
            match l with
            | [] => Forall_nil _
            | kv :: l' =>
                Forall_cons kv (jsval_nested_ind (snd kv)) (all l')
            end) entries)
  end.
End jsval_induction.

(** [operands[i]]: an index read, [undefined] out of range. *)
Definition index (xs : list jsval) (i : nat) : jsval := nth i xs JUndefined.

(** The object has an own property named [key]. *)
Definition has_key (key : string) (entries : list (string * jsval)) : bool :=
  existsb (fun kv => (fst kv =? key)%string) entries.

(** [String(v)] and the conversion done by a template literal; [None] when
    the conversion throws.  An array is its elements joined with commas,
    [null] and [undefined] elements printing as nothing.  An object is
    printed by its [toString] method: the inherited one prints
    [[object Object]]; an own property named [toString] hides it, and as
    the values of a rule are data (none is a function) the conversion then
    finds no method to call and throws a [TypeError]. *)
Fixpoint ToString (v : jsval) : option string :=
  match v with
  | JUndefined => Some "undefined"
  | JNull => Some "null"
  | JBool true => Some "true"
  | JBool false => Some "false"
  | JNumber n => Some (Number_toString n)
  | JString s => Some s
  | JArray items =>
      option_map (join ",")
        (all_some
           (map (fun e => match e with
                          | JUndefined | JNull => Some EmptyString
                          | _ => ToString e
                          end) items))
  | JObject entries =>
      if has_key "toString" entries then None else Some "[object Object]"
  end.

(** ** The label formatter ([lib/tree/parser.ts]) *)

Definition comparison_operators : list string :=
  ["=="; "==="; "!="; "!=="; ">"; ">="; "<"; "<="].
Definition arithmetic_operators : list string := ["+"; "-"; "*"; "/"; "%"].
Definition iteration_operators : list string :=
  ["map"; "filter"; "reduce"; "all"; "some"; "none"].

(** The table [opNames] of [buildLabel]. *)
Definition opNames (operator : string) : string :=
  if (operator =? "map")%string then "MAP"
  else if (operator =? "filter")%string then "FILTER"
  else if (operator =? "reduce")%string then "REDUCE"
  else if (operator =? "all")%string then "ALL"
  else if (operator =? "some")%string then "SOME"
  else if (operator =? "none")%string then "NONE"
  else "undefined".

(** The text [[N items]]. *)
Definition items_label (n : nat) : string :=
  "[" ++ nat_toString n ++ " items]".

(** What [buildLabel] returns on [undefined]: the branch
    [typeof rule !== 'object'] prints it with [String]. *)
Definition label_of_undefined : string := "undefined".

(** The cases of [buildLabel] on an operation, last case first: each case
    that does not apply falls through to the next.  [label] is the compact
    label of an operand, [buildLabel(operand, true)]; it throws where the
    conversion of a [var] path to a string does. *)
Section LabelCases.

Variable label : jsval -> option string.

(** Iteration operators, then the default. *)
Definition label_by_name (operator : string) : string :=
  if includes iteration_operators operator
  then opNames operator ++ "(...)"
  else operator ++ "(...)".

(** [operands.map(o => buildLabel(o, true)).join(sep)]. *)
Definition joined (sep : string) (ops : list jsval) : option string :=
  labels <-? all_some (map label ops) ;;
  Some (join sep labels).

Definition label_arithmetic (operator : string) (operands : jsval)
  : option string :=
  match includes arithmetic_operators operator, operands with
  | true, JArray ops => joined (" " ++ operator ++ " ") ops
  | _, _ => Some (label_by_name operator)
  end.

Definition label_membership (operator : string) (operands : jsval)
  : option string :=
  match (operator =? "in")%string, operands with
  | true, JArray (needle :: haystack :: _) =>
      needleLabel <-? label needle ;;
      haystackLabel <-?
        match haystack with
        | JArray hs => Some (items_label (length hs))
        | _ => label haystack
        end ;;
      Some (needleLabel ++ " in " ++ haystackLabel)
  | _, _ => label_arithmetic operator operands
  end.

Definition label_negation (operator : string) (operands : jsval)
  : option string :=
  if (operator =? "!")%string || (operator =? "!!")%string then
    let prefix := if (operator =? "!")%string then "NOT " else "BOOL " in
    innerLabel <-?
      match operands with
      | JArray [] => Some label_of_undefined
      | JArray (inner :: _) => label inner
      | _ => label operands
      end ;;
    Some (prefix ++ innerLabel)
  else label_membership operator operands.

Definition label_logical (operator : string) (operands : jsval)
  : option string :=
  match operands with
  | JArray ops =>
      if (operator =? "and")%string then joined " AND " ops
      else if (operator =? "or")%string then joined " OR " ops
      else label_negation operator operands
  | _ => label_negation operator operands
  end.

Definition label_comparison (operator : string) (operands : jsval)
  : option string :=
  match includes comparison_operators operator, operands with
  | true, JArray (l :: r :: _) =>
      left <-? label l ;;
      right <-? label r ;;
      Some (left ++ " " ++ operator ++ " " ++ right)
  | _, _ => label_logical operator operands
  end.

Definition label_operation (operator : string) (operands : jsval)
  : option string :=
  if (operator =? "var")%string then
    match operands with
    | JString s => Some (if (s =? "")%string then "(item)" else quoted s)
    | JArray ops =>
        match index ops 0 with
        | JString EmptyString => Some "(item)"
        | first =>
            name <-? ToString first ;;
            Some (quoted name)
        end
    | _ => Some "data"
    end
  else label_comparison operator operands.

End LabelCases.

(** [buildLabel]; [None] when it throws, which it does where the first
    entry of a [var] path does not convert to a string. *)
Fixpoint buildLabel (rule : jsval) (compact : bool) {struct rule}
  : option string :=
  match rule with
  | JNull => Some "null"
  | JString s => Some (quoted s)
  | JNumber n => Some (Number_toString n)
  | JBool b => Some (if b then "true" else "false")
  | JArray items =>
      if compact || (3 <? length items)%nat
      then Some (items_label (length items))
      else
        labels <-? all_some (map (fun r => buildLabel r true) items) ;;
        Some ("[" ++ join ", " labels ++ "]")
  | JUndefined => Some label_of_undefined
  | JObject [] => Some "{}"
  | JObject ((operator, operands) :: _) =>
      label_operation (fun operand => buildLabel operand true)
        operator operands
  end.

(** The rules whose label is empty: an [and], an [or] or an arithmetic
    operation that joins no operand label, or a single empty one. *)
Fixpoint joins_nothing (rule : jsval) : bool :=
  match rule with
  | JObject ((operator, JArray ops) :: _) =>
      (includes ["and"; "or"] operator
       || includes arithmetic_operators operator)
      && match ops with
         | [] => true
         | [only] => joins_nothing only
         | _ => false
         end
  | _ => false
  end.

(** ** The rendering tree ([types/tree.ts]) *)

Inductive NodeType : Type := TOperator | TVariable | TValue | TArray | TObject.

(** The fields of a [TreeNode] object.  [R] is what [children] holds: whole
    subtrees in a tree value, locations in the object store.  An optional
    field is an [option]; [value?: unknown] is a [jsval], [JUndefined] when
    absent.  [subtreeWidth] is the field the layout adds ([NodeWithWidth]).
    The fields [evaluationResult] and [isActive] are written by no function
    of the core and are left out. *)
Record Node (R : Type) : Type := mkNode {
  node_id : string;
  node_type : NodeType;
  node_label : string;
  node_value : jsval;
  node_operator : option string;
  node_children : list R;
  node_parent : option string;
  node_depth : nat;
  node_path : list string;
  node_x : option Q;
  node_y : option Q;
  node_width : option Q;
  node_height : option Q;
  node_subtreeWidth : option Q;
  node_expanded : bool;
  node_highlighted : bool;
  node_selected : bool
}.
Arguments mkNode {R}.
Arguments node_id {R}.
Arguments node_type {R}.
Arguments node_label {R}.
Arguments node_value {R}.
Arguments node_operator {R}.
Arguments node_children {R}.
Arguments node_parent {R}.
Arguments node_depth {R}.
Arguments node_path {R}.
Arguments node_x {R}.
Arguments node_y {R}.
Arguments node_width {R}.
Arguments node_height {R}.
Arguments node_subtreeWidth {R}.
Arguments node_expanded {R}.
Arguments node_highlighted {R}.
Arguments node_selected {R}.

(** A tree value: a node whose children are trees. *)
Inductive TreeNode : Type := Tree (fields : Node TreeNode).

Definition fields (t : TreeNode) : Node TreeNode :=
  match t with Tree n => n end.
Coercion fields : TreeNode >-> Node.

Section TreeNode_induction.
Variable P : TreeNode -> Prop.
Hypothesis P_node :
  forall n : Node TreeNode, Forall P (node_children n) -> P (Tree n).

Fixpoint TreeNode_nested_ind (t : TreeNode) : P t :=
  match t with
  | Tree n =>
      P_node n
        ((fix all (l : list TreeNode) : Forall P l :=
            match l with
            | [] => Forall_nil P
            | c :: l' => Forall_cons c (TreeNode_nested_ind c) (all l')
            end) (node_children n))
  end.
End TreeNode_induction.

(** Field assignments on a node object: every other field keeps its value. *)
Definition set_children {R R'} (n : Node R) (children : list R') : Node R' :=
  {| node_id := node_id n; node_type := node_type n;
     node_label := node_label n; node_value := node_value n;
     node_operator := node_operator n; node_children := children;
     node_parent := node_parent n; node_depth := node_depth n;
     node_path := node_path n;
     node_x := node_x n; node_y := node_y n; node_width := node_width n;
     node_height := node_height n;
     node_subtreeWidth := node_subtreeWidth n;
     node_expanded := node_expanded n;
     node_highlighted := node_highlighted n;
     node_selected := node_selected n |}.

Definition set_expanded {R} (n : Node R) (expanded : bool) : Node R :=
  {| node_id := node_id n; node_type := node_type n;
     node_label := node_label n; node_value := node_value n;
     node_operator := node_operator n; node_children := node_children n;
     node_parent := node_parent n; node_depth := node_depth n;
     node_path := node_path n;
     node_x := node_x n; node_y := node_y n; node_width := node_width n;
     node_height := node_height n;
     node_subtreeWidth := node_subtreeWidth n;
     node_expanded := expanded;
     node_highlighted := node_highlighted n;
     node_selected := node_selected n |}.

Definition set_geometry {R} (n : Node R)
    (x y width height subtreeWidth : option Q) : Node R :=
  {| node_id := node_id n; node_type := node_type n;
     node_label := node_label n; node_value := node_value n;
     node_operator := node_operator n; node_children := node_children n;
     node_parent := node_parent n; node_depth := node_depth n;
     node_path := node_path n;
     node_x := x; node_y := y; node_width := width;
     node_height := height;
     node_subtreeWidth := subtreeWidth;
     node_expanded := node_expanded n;
     node_highlighted := node_highlighted n;
     node_selected := node_selected n |}.

(** [node.width = w; node.height = h]. *)
Definition set_size {R} (n : Node R) (w h : Q) : Node R :=
  set_geometry n (node_x n) (node_y n) (Some w) (Some h) (node_subtreeWidth n).

(** [node.subtreeWidth = w]. *)
Definition set_subtreeWidth {R} (n : Node R) (w : Q) : Node R :=
  set_geometry n (node_x n) (node_y n) (node_width n) (node_height n) (Some w).

(** [node.x = x; node.y = y; node.height = h]. *)
Definition set_position {R} (n : Node R) (x y h : Q) : Node R :=
  set_geometry n (Some x) (Some y) (node_width n) (Some h)
    (node_subtreeWidth n).

(** The loop [for (const x of xs) { const found = f(x); if (found) return
    found; } return null]. *)
Fixpoint first_found {St A B} (f : A -> M St (option B)) (xs : list A)
  : M St (option B) :=
  match xs with
  | [] => ret None
  | x :: xs' =>
      found <- f x ;;
      match found with
      | Some b => ret (Some b)
      | None => first_found f xs'
      end
  end.

(** The state of the tree builder: [nodeIdCounter]. *)
Definition Gen (A : Type) : Type := M nat A.

(** [generateNodeId] of the parser: [node-${++nodeIdCounter}]. *)
Definition generateNodeId : Gen string :=
  fun counter => Returns ("node-" ++ nat_toString (S counter), S counter).

(** [nodeIdCounter = depth === 0 ? 0 : nodeIdCounter]. *)
Definition reset_at_root (depth : nat) : Gen unit :=
  fun counter => Returns (tt, if (depth =? 0)%nat then 0 else counter).

Definition createValueNode (label : string) (value : jsval)
    (parentId : option string) (depth : nat) (path : list string)
  : Gen TreeNode :=
  id <- generateNodeId ;;
  ret (Tree {| node_id := id; node_type := TValue; node_label := label;
         node_value := value; node_operator := None; node_children := [];
         node_parent := parentId; node_depth := depth; node_path := path;
         node_x := None; node_y := None; node_width := None;
         node_height := None; node_subtreeWidth := None;
         node_expanded := true; node_highlighted := false;
         node_selected := false |}).

Definition createVariableNode (operands : jsval)
    (parentId : option string) (depth : nat) (path : list string)
  : Gen TreeNode :=
  varName <-
    match operands with
    | JString s => ret (or_else s "data")
    | JNumber n => ret (Number_toString n)
    | JArray ops =>
        first <- completes (ToString (index ops 0)) ;;
        ret (or_else first "data")
    | _ => ret "data"
    end ;;
  let defaultValue :=
    match operands with
    | JArray ops => index ops 1
    | _ => JUndefined
    end in
  let displayLabel :=
    if (varName =? "")%string then "(current item)" else "$" ++ varName in
  id <- generateNodeId ;;
  let node children :=
    Tree
    {| node_id := id; node_type := TVariable; node_label := displayLabel;
       node_value := JObject [("var", operands)]; node_operator := None;
       node_children := children;
       node_parent := parentId; node_depth := depth; node_path := path;
       node_x := None; node_y := None; node_width := None;
       node_height := None; node_subtreeWidth := None;
       node_expanded := true; node_highlighted := false;
       node_selected := false |} in
  match defaultValue with
  | JUndefined => ret (node [])
  | _ =>
      child <- createValueNode ("default: " ++ JSON_stringify defaultValue)
                 defaultValue (Some id) (S depth) (path ++ ["var"; "[1]"]) ;;
      ret (node [child])
  end.

(** [isSimpleValue]: a primitive, or an object whose only key is [var]. *)
Definition isSimpleValue (rule : jsval) : bool :=
  match rule with
  | JArray _ => false
  | JObject [(key, _)] => (key =? "var")%string
  | JObject _ => false
  | _ => true
  end.

(** [typeof op === 'object' && op !== null && !isSimpleValue(op)]. *)
Definition isComplexOperand (op : jsval) : bool :=
  match op with
  | JArray _ | JObject _ => negb (isSimpleValue op)
  | _ => false
  end.

(** [keys[0] === k] for the keys of an object. *)
Definition first_key_is (entries : list (string * jsval)) (k : string) : bool :=
  match entries with
  | (key, _) :: _ => (key =? k)%string
  | [] => false
  end.

(** The node literal shared by [createIfNode] and [createChainedIfNode]. *)
Definition if_node (id conditionLabel : string) (rule : jsval)
    (parentId : option string) (depth : nat) (path : list string)
    (children : list TreeNode) : TreeNode :=
  Tree
  {| node_id := id; node_type := TOperator; node_label := conditionLabel;
     node_value := rule; node_operator := Some "if";
     node_children := children;
     node_parent := parentId; node_depth := depth; node_path := path;
     node_x := None; node_y := None; node_width := None;
     node_height := None; node_subtreeWidth := None;
     node_expanded := true; node_highlighted := false;
     node_selected := false |}.

(** The leaf built at the end of [createResultNode]. *)
Definition result_leaf (id : string) (nodeType : NodeType) (label : string)
    (result : jsval) (parentId : string) (depth : nat) (path : list string)
    (isTrueBranch : bool) : TreeNode :=
  Tree
  {| node_id := id; node_type := nodeType; node_label := label;
     node_value := result;
     node_operator :=
       Some (if isTrueBranch then "true_branch" else "false_branch");
     node_children := [];
     node_parent := Some parentId; node_depth := depth; node_path := path;
     node_x := None; node_y := None; node_width := None;
     node_height := None; node_subtreeWidth := None;
     node_expanded := true; node_highlighted := false;
     node_selected := false |}.

(** ** The tree builder ([lib/tree/parser.ts])

    [parseRuleToTree], [createIfNode], [createChainedIfNode] and
    [createResultNode] call one another.  Each body is written against the
    four functions it may call; the functions themselves are then defined
    together, every call spending one unit of fuel. *)

Section Calls.

Variable parseRuleToTree :
  jsval -> option string -> nat -> list string -> Gen TreeNode.
Variable createIfNode :
  list jsval -> option string -> nat -> list string -> jsval -> Gen TreeNode.
Variable createChainedIfNode :
  list jsval -> option string -> nat -> list string -> jsval -> Gen TreeNode.
Variable createResultNode :
  jsval -> string -> nat -> list string -> bool -> Gen TreeNode.

Definition parseRuleToTree_body (rule : jsval) (parentId : option string)
    (depth : nat) (path : list string) : Gen TreeNode :=
  _ <- reset_at_root depth ;;
  match rule with
  | JNull => createValueNode "null" JNull parentId depth path
  | JString s => createValueNode (quoted s) rule parentId depth path
  | JNumber n => createValueNode (Number_toString n) rule parentId depth path
  | JBool b =>
      createValueNode (if b then "true" else "false") rule parentId depth path
  | JArray items =>
      id <- generateNodeId ;;
      children <-
        mapi_from
          (fun item i =>
             parseRuleToTree item (Some id) (S depth)
               (path ++ ["[" ++ nat_toString i ++ "]"]))
          items 0 ;;
      ret (Tree
             {| node_id := id; node_type := TArray;
                node_label := items_label (length items);
                node_value := rule; node_operator := None;
                node_children := children;
                node_parent := parentId; node_depth := depth;
                node_path := path;
                node_x := None; node_y := None; node_width := None;
                node_height := None; node_subtreeWidth := None;
                node_expanded := (depth <? 3)%nat;
                node_highlighted := false; node_selected := false |})
  | JUndefined =>
      (* Object.keys(undefined) *)
      throw "TypeError: Cannot convert undefined or null to object"
  | JObject [] => createValueNode "{}" rule parentId depth path
  | JObject ((operator, operands) :: _) =>
      if (operator =? "var")%string then
        createVariableNode operands parentId depth path
      else
        let generic :=
          label <- completes (buildLabel rule false) ;;
          id <- generateNodeId ;;
          children <-
            match operands with
            | JArray ops =>
                if existsb isComplexOperand ops then
                  mapi_from
                    (fun op i =>
                       parseRuleToTree op (Some id) (S depth)
                         (path ++ [operator; "[" ++ nat_toString i ++ "]"]))
                    (filter isComplexOperand ops) 0
                else ret []
            | JObject _ =>
                child <- parseRuleToTree operands (Some id) (S depth)
                           (path ++ [operator]) ;;
                ret [child]
            | _ => ret []
            end ;;
          ret (Tree
                 {| node_id := id; node_type := TOperator;
                    node_label := label;
                    node_value := rule; node_operator := Some operator;
                    node_children := children;
                    node_parent := parentId; node_depth := depth;
                    node_path := path;
                    node_x := None; node_y := None; node_width := None;
                    node_height := None; node_subtreeWidth := None;
                    node_expanded := (depth <? 4)%nat;
                    node_highlighted := false; node_selected := false |}) in
        match (operator =? "if")%string || (operator =? "?:")%string,
              operands with
        | true, JArray ops => createIfNode ops parentId depth path rule
        | _, _ => generic
        end
  end.

Definition createIfNode_body (operands : list jsval)
    (parentId : option string) (depth : nat) (path : list string)
    (rule : jsval) : Gen TreeNode :=
  if (length operands <? 2)%nat then
    createValueNode "IF ?" rule parentId depth path
  else if (3 <? length operands)%nat then
    createChainedIfNode operands parentId depth path rule
  else
    conditionLabel <- completes (buildLabel (index operands 0) false) ;;
    id <- generateNodeId ;;
    trueNode <- createResultNode (index operands 1) id (S depth)
                  (path ++ ["then"]) true ;;
    if (2 <? length operands)%nat then
      let elseResult := index operands 2 in
      elseNode <-
        match elseResult with
        | JObject elseEntries =>
            if first_key_is elseEntries "if"
               || first_key_is elseEntries "?:"
            then parseRuleToTree elseResult (Some id) (S depth)
                   (path ++ ["else"])
            else createResultNode elseResult id (S depth)
                   (path ++ ["else"]) false
        | _ => createResultNode elseResult id (S depth)
                 (path ++ ["else"]) false
        end ;;
      ret (if_node id conditionLabel rule parentId depth path
             [trueNode; elseNode])
    else
      ret (if_node id conditionLabel rule parentId depth path [trueNode]).

Definition createChainedIfNode_body (operands : list jsval)
    (parentId : option string) (depth : nat) (path : list string)
    (rule : jsval) : Gen TreeNode :=
  conditionLabel <- completes (buildLabel (index operands 0) false) ;;
  id <- generateNodeId ;;
  trueNode <- createResultNode (index operands 1) id (S depth)
                (path ++ ["then"]) true ;;
  let remainingOperands := skipn 2 operands in
  elseNode <-
    (if (length remainingOperands =? 1)%nat then
       createResultNode (index remainingOperands 0) id (S depth)
         (path ++ ["else"]) false
     else
       createChainedIfNode remainingOperands (Some id) (S depth)
         (path ++ ["else"]) rule) ;;
  ret (if_node id conditionLabel rule parentId depth path
         [trueNode; elseNode]).

Definition createResultNode_body (result : jsval) (parentId : string)
    (depth : nat) (path : list string) (isTrueBranch : bool)
  : Gen TreeNode :=
  let leaf nodeType label :=
    id <- generateNodeId ;;
    ret (result_leaf id nodeType label result parentId depth path
           isTrueBranch) in
  match result with
  | JNull => leaf TValue "null"
  | JString s => leaf TValue (quoted s)
  | JObject entries =>
      if first_key_is entries "var"
      then
        label <- completes (buildLabel result false) ;;
        leaf TVariable label
      else parseRuleToTree result (Some parentId) depth path
  | JArray items => leaf TArray (items_label (length items))
  | _ =>
      label <- completes (ToString result) ;;
      leaf TValue label
  end.

End Calls.

Fixpoint parseRuleToTree (fuel : nat) {struct fuel}
  : jsval -> option string -> nat -> list string -> Gen TreeNode :=
  match fuel with
  | 0 => fun _ _ _ _ => out_of_fuel
  | S fuel => parseRuleToTree_body (parseRuleToTree fuel) (createIfNode fuel)
  end

with createIfNode (fuel : nat) {struct fuel}
  : list jsval -> option string -> nat -> list string -> jsval ->
    Gen TreeNode :=
  match fuel with
  | 0 => fun _ _ _ _ _ => out_of_fuel
  | S fuel =>
      createIfNode_body (parseRuleToTree fuel) (createChainedIfNode fuel)
        (createResultNode fuel)
  end

with createChainedIfNode (fuel : nat) {struct fuel}
  : list jsval -> option string -> nat -> list string -> jsval ->
    Gen TreeNode :=
  match fuel with
  | 0 => fun _ _ _ _ _ => out_of_fuel
  | S fuel =>
      createChainedIfNode_body (createChainedIfNode fuel)
        (createResultNode fuel)
  end

with createResultNode (fuel : nat) {struct fuel}
  : jsval -> string -> nat -> list string -> bool -> Gen TreeNode :=
  match fuel with
  | 0 => fun _ _ _ _ _ => out_of_fuel
  | S fuel => createResultNode_body (parseRuleToTree fuel)
  end.

(** ** Tree objects in the store

    The toggles of [lib/tree/parser.ts] copy a tree and then write to the
    objects of the copy.  A tree object lives at a location of the store and
    holds the locations of its children; allocation appends to the store. *)

Definition loc : Type := nat.
Definition heap : Type := list (Node loc).

Definition deref (l : loc) : M heap (Node loc) :=
  fun h =>
    match nth_error h l with
    | Some o => Returns (o, h)
    | None => Throws "dangling reference"
    end.

Definition alloc (o : Node loc) : M heap loc :=
  fun h => Returns (length h, (h ++ [o])%list).

Fixpoint update_at {A} (i : nat) (f : A -> A) (xs : list A) : list A :=
  match xs, i with
  | [], _ => []
  | x :: xs', 0 => f x :: xs'
  | x :: xs', S i' => x :: update_at i' f xs'
  end.

(** [node.expanded = f(node.expanded)] on the object at [l]. *)
Definition assign_expanded (l : loc) (f : bool -> bool) : M heap unit :=
  fun h =>
    match nth_error h l with
    | Some _ =>
        Returns (tt, update_at l (fun o => set_expanded o (f (node_expanded o))) h)
    | None => Throws "dangling reference"
    end.

(** What [JSON.parse(JSON.stringify(v))] makes of a value: a number is
    read back from its text, which is [null] for a number that is not
    finite; inside an array [undefined] becomes [null], inside an object a
    property holding [undefined] is dropped. *)
Fixpoint JSON_reparse (v : jsval) : jsval :=
  match v with
  | JNumber n =>
      match JSON_reparse_number n with
      | Some n' => JNumber n'
      | None => JNull
      end
  | JArray items =>
      JArray (map (fun e => match e with
                            | JUndefined => JNull
                            | _ => JSON_reparse e
                            end) items)
  | JObject entries =>
      JObject
        ((fix props (l : list (string * jsval)) : list (string * jsval) :=
            match l with
            | [] => []
            | (k, JUndefined) :: l' => props l'
            | (k, x) :: l' => (k, JSON_reparse x) :: props l'
            end) entries)
  | _ => v
  end.

(** [JSON.stringify(root)]: the text written for the object at [root], kept
    as the tree value it denotes.  The store is only read. *)
Fixpoint JSON_stringify_tree (fuel : nat) (root : loc) {struct fuel}
  : M heap TreeNode :=
  match fuel with
  | 0 => out_of_fuel
  | S fuel =>
      o <- deref root ;;
      children <- mapM (JSON_stringify_tree fuel) (node_children o) ;;
      ret (Tree
             {| node_id := node_id o; node_type := node_type o;
                node_label := node_label o;
                node_value := JSON_reparse (node_value o);
                node_operator := node_operator o; node_children := children;
                node_parent := node_parent o; node_depth := node_depth o;
                node_path := node_path o;
                node_x := node_x o; node_y := node_y o;
                node_width := node_width o; node_height := node_height o;
                node_subtreeWidth := node_subtreeWidth o;
                node_expanded := node_expanded o;
                node_highlighted := node_highlighted o;
                node_selected := node_selected o |})
  end.

(** [JSON.parse(text)]: a fresh object for every node of the text, the
    children of a node before the node itself. *)
Fixpoint JSON_parse_tree (text : TreeNode) : M heap loc :=
  match text with
  | Tree n =>
      children <- mapM JSON_parse_tree (node_children n) ;;
      alloc (set_children n children)
  end.

(** [JSON.parse(JSON.stringify(root)) as TreeNode]. *)
Definition clone (fuel : nat) (root : loc) : M heap loc :=
  text <- JSON_stringify_tree fuel root ;;
  JSON_parse_tree text.

(** [flattenTree]: the node, then the nodes of each child in turn. *)
Fixpoint flattenTree (fuel : nat) (node : loc) {struct fuel}
  : M heap (list loc) :=
  match fuel with
  | 0 => out_of_fuel
  | S fuel =>
      o <- deref node ;;
      below <- mapM (flattenTree fuel) (node_children o) ;;
      ret (node :: concat below)
  end.

(** [findNodeById]: [None] is [null]. *)
Fixpoint findNodeById (fuel : nat) (root : loc) (id : string) {struct fuel}
  : M heap (option loc) :=
  match fuel with
  | 0 => out_of_fuel
  | S fuel =>
      o <- deref root ;;
      if (node_id o =? id)%string then ret (Some root)
      else first_found (fun child => findNodeById fuel child id)
             (node_children o)
  end.

Definition toggleNodeExpansion (fuel : nat) (root : loc) (nodeId : string)
  : M heap loc :=
  clone <- clone fuel root ;;
  node <- findNodeById fuel clone nodeId ;;
  _ <- match node with
       | Some l => assign_expanded l negb
       | None => ret tt
       end ;;
  ret clone.

Definition expandAllNodes (fuel : nat) (root : loc) : M heap loc :=
  clone <- clone fuel root ;;
  nodes <- flattenTree fuel clone ;;
  _ <- forEach (fun node => assign_expanded node (fun _ => true)) nodes ;;
  ret clone.

Definition collapseAllNodes (fuel : nat) (root : loc) : M heap loc :=
  clone <- clone fuel root ;;
  _ <- assign_expanded clone (fun _ => true) ;;
  nodes <- flattenTree fuel clone ;;
  _ <- forEach (fun node => assign_expanded node (fun _ => false))
         (skipn 1 nodes) ;;
  ret clone.

(** ** Vocabulary for statements about trees *)

(** The nodes of a tree value in the order [flattenTree] lists them. *)
Fixpoint preorder (t : TreeNode) : list TreeNode :=
  match t with
  | Tree n => t :: flat_map preorder (node_children n)
  end.

Fixpoint size (t : TreeNode) : nat :=
  match t with
  | Tree n => S (fold_right (fun c rest => size c + rest) 0 (node_children n))
  end.

Fixpoint height (t : TreeNode) : nat :=
  match t with
  | Tree n =>
      S (fold_right (fun c rest => Nat.max (height c) rest) 0
           (node_children n))
  end.

(** The tree with the [expanded] flag of every node overwritten: two trees
    with the same image agree on shape and on every other field. *)
Fixpoint erase_expanded (t : TreeNode) : TreeNode :=
  match t with
  | Tree n =>
      Tree (set_children (set_expanded n true)
              (map erase_expanded (node_children n)))
  end.

Definition tree_ids (t : TreeNode) : list string :=
  map (fun n : TreeNode => node_id n) (preorder t).
Definition tree_flags (t : TreeNode) : list bool :=
  map (fun n : TreeNode => node_expanded n) (preorder t).

(** Every [value] of the tree survives a round trip through JSON text:
    [JSON.parse(JSON.stringify(value))] gives it back.  A value that holds a
    number that is not finite, or [undefined] inside an array, does not. *)
Fixpoint json_tree (t : TreeNode) : Prop :=
  match t with
  | Tree n =>
      JSON_reparse (node_value n) = node_value n /\
      fold_right (fun c rest => json_tree c /\ rest) True (node_children n)
  end.

(** Lists in step: [R l c] for each location and the tree next to it. *)
Fixpoint pairwise (R : loc -> TreeNode -> Prop) (ls : list loc)
    (cs : list TreeNode) {struct cs} : Prop :=
  match cs with
  | [] => match ls with [] => True | _ :: _ => False end
  | c :: cs' =>
      match ls with
      | [] => False
      | l :: ls' => R l c /\ pairwise R ls' cs'
      end
  end.

(** [rep h l t]: the objects reachable from location [l] of the store [h]
    form the tree value [t]. *)
Fixpoint rep (h : heap) (l : loc) (t : TreeNode) {struct t} : Prop :=
  match t with
  | Tree n =>
      exists o,
        nth_error h l = Some o /\
        set_children o (node_children n) = n /\
        pairwise (fun l' c => rep h l' c) (node_children o) (node_children n)
  end.

(** Consecutive blocks of locations: each tree of [cs] fills the block that
    starts where the one before ended and ends at its own root; the blocks
    together fill [lo, hi). *)
Fixpoint chain (R : nat -> loc -> TreeNode -> Prop) (lo hi : nat)
    (ls : list loc) (cs : list TreeNode) {struct cs} : Prop :=
  match cs with
  | [] => match ls with [] => lo = hi | _ :: _ => False end
  | c :: cs' =>
      match ls with
      | [] => False
      | l :: ls' => R lo l c /\ chain R (S l) hi ls' cs'
      end
  end.

(** [region h t lo l]: the tree [t] is stored in the block of locations from
    [lo] to [l], its root at [l], the blocks of its children before it in
    order.  This is how [JSON.parse] lays a tree out. *)
Fixpoint region (h : heap) (t : TreeNode) (lo : nat) (l : loc) {struct t}
  : Prop :=
  match t with
  | Tree n =>
      exists o,
        nth_error h l = Some o /\
        set_children o (node_children n) = n /\
        chain (fun lo' l' c => region h c lo' l') lo l
          (node_children o) (node_children n)
  end.

(** The first tree of a list on which [f] succeeds, replaced by the result. *)
Fixpoint replace_first (f : TreeNode -> option TreeNode)
    (cs : list TreeNode) : option (list TreeNode) :=
  match cs with
  | [] => None
  | c :: cs' =>
      match f c with
      | Some c' => Some (c' :: cs')
      | None => option_map (cons c) (replace_first f cs')
      end
  end.

(** The tree with the flag of the first node, in [findNodeById] order, whose
    id is [id] flipped; [None] when no node has that id. *)
Fixpoint toggle_first (id : string) (t : TreeNode) : option TreeNode :=
  match t with
  | Tree n =>
      if (node_id n =? id)%string
      then Some (Tree (set_expanded n (negb (node_expanded n))))
      else option_map (fun cs => Tree (set_children n cs))
             (replace_first (toggle_first id) (node_children n))
  end.

Definition toggled (id : string) (t : TreeNode) : TreeNode :=
  match toggle_first id t with
  | Some t' => t'
  | None => t
  end.

(** The tree with every flag set to [b]. *)
Fixpoint with_all_expanded (b : bool) (t : TreeNode) : TreeNode :=
  match t with
  | Tree n =>
      Tree (set_children (set_expanded n b)
              (map (with_all_expanded b) (node_children n)))
  end.

(** The tree with the root expanded and every other node collapsed. *)
Definition collapsed (t : TreeNode) : TreeNode :=
  match t with
  | Tree n =>
      Tree (set_children (set_expanded n true)
              (map (with_all_expanded false) (node_children n)))
  end.

(** The locations of the nodes of a tree stored from [lo] on, in the order
    [flattenTree] lists them. *)
Fixpoint locs_below (f : TreeNode -> nat -> list loc) (cs : list TreeNode)
    (lo : nat) : list loc :=
  match cs with
  | [] => []
  | c :: cs' => (f c lo ++ locs_below f cs' (lo + size c))%list
  end.

Fixpoint preorder_locs (t : TreeNode) (lo : nat) {struct t} : list loc :=
  match t with
  | Tree n => (lo + size t - 1) :: locs_below preorder_locs (node_children n) lo
  end.

(** ** The layout engine ([lib/tree/layout.ts])

    The passes of the layout write geometry fields into the tree they are
    given; each is modelled by the tree it leaves behind. *)

Local Open Scope Q_scope.

Inductive Orientation : Type := horizontal | vertical.

Record TreeConfig : Type := mkTreeConfig {
  cfg_nodeWidth : Q;
  cfg_nodeHeight : Q;
  cfg_horizontalSpacing : Q;
  cfg_verticalSpacing : Q;
  cfg_orientation : Orientation
}.

(** [Partial<TreeConfig>]. *)
Record PartialTreeConfig : Type := mkPartialTreeConfig {
  opt_nodeWidth : option Q;
  opt_nodeHeight : option Q;
  opt_horizontalSpacing : option Q;
  opt_verticalSpacing : option Q;
  opt_orientation : option Orientation
}.

Definition DEFAULT_CONFIG : TreeConfig :=
  {| cfg_nodeWidth := 180; cfg_nodeHeight := 44;
     cfg_horizontalSpacing := 24; cfg_verticalSpacing := 50;
     cfg_orientation := vertical |}.

Definition CHAR_WIDTH : Q := 8.
Definition MIN_NODE_WIDTH : Q := 120.
Definition MAX_NODE_WIDTH : Q := 400.
Definition NODE_PADDING : Q := 60.

Definition override {A} (given : option A) (default : A) : A :=
  match given with
  | Some a => a
  | None => default
  end.

(** [{ ...DEFAULT_CONFIG, ...config }]. *)
Definition merge_config (config : PartialTreeConfig) : TreeConfig :=
  {| cfg_nodeWidth :=
       override (opt_nodeWidth config) (cfg_nodeWidth DEFAULT_CONFIG);
     cfg_nodeHeight :=
       override (opt_nodeHeight config) (cfg_nodeHeight DEFAULT_CONFIG);
     cfg_horizontalSpacing :=
       override (opt_horizontalSpacing config)
         (cfg_horizontalSpacing DEFAULT_CONFIG);
     cfg_verticalSpacing :=
       override (opt_verticalSpacing config)
         (cfg_verticalSpacing DEFAULT_CONFIG);
     cfg_orientation :=
       override (opt_orientation config) (cfg_orientation DEFAULT_CONFIG) |}.

(** [a || b] on an optional number: [undefined] and [0] are falsy. *)
Definition number_or (a : option Q) (b : Q) : Q :=
  match a with
  | Some v => if Qeq_bool v 0 then b else v
  | None => b
  end.

Definition calculateNodeWidth (label : string) : Q :=
  let textWidth :=
    inject_Z (Z.of_nat (String.length label)) * CHAR_WIDTH + NODE_PADDING in
  Qmin (Qmax textWidth MIN_NODE_WIDTH) MAX_NODE_WIDTH.

Fixpoint assignNodeWidths (node : TreeNode) : TreeNode :=
  match node with
  | Tree n =>
      Tree (set_children
              (set_size n (calculateNodeWidth (node_label n))
                 (cfg_nodeHeight DEFAULT_CONFIG))
              (map assignNodeWidths (node_children n)))
  end.

(** [children.reduce((sum, child) => sum + f(child) + spacing, start)],
    with the children as the calls of [f] leave them. *)
Fixpoint reduce_widths (f : TreeNode -> TreeNode * Q) (spacing : Q)
    (children : list TreeNode) (sum : Q) : list TreeNode * Q :=
  match children with
  | [] => ([], sum)
  | child :: rest =>
      let '(child', w) := f child in
      let '(rest', total) := reduce_widths f spacing rest (sum + w + spacing) in
      (child' :: rest', total)
  end.

(** [calculateSubtreeWidths]: the tree with [subtreeWidth] written, and the
    number returned. *)
Fixpoint calculateSubtreeWidths (node : TreeNode) (config : TreeConfig)
  : TreeNode * Q :=
  match node with
  | Tree n =>
      let nodeWidth := number_or (node_width n) (cfg_nodeWidth config) in
      if negb (node_expanded n) || (length (node_children n) =? 0)%nat then
        (Tree (set_subtreeWidth n nodeWidth), nodeWidth)
      else
        let '(children, childrenWidth) :=
          reduce_widths (fun child => calculateSubtreeWidths child config)
            (cfg_horizontalSpacing config) (node_children n)
            (- cfg_horizontalSpacing config) in
        let subtreeWidth := Qmax nodeWidth childrenWidth in
        (Tree (set_subtreeWidth (set_children n children) subtreeWidth),
         subtreeWidth)
  end.

(** The loop over the children in the two position passes: each child is
    placed at the running offset, which then advances by the extent of the
    child and the spacing. *)
Fixpoint place_children (assign : TreeNode -> Q -> TreeNode)
    (extent : TreeNode -> Q) (spacing : Q)
    (children : list TreeNode) (offset : Q) : list TreeNode :=
  match children with
  | [] => []
  | child :: rest =>
      assign child offset
        :: place_children assign extent spacing rest
             (offset + extent child + spacing)
  end.

(** [childNode.subtreeWidth || childNode.width || config.nodeWidth]. *)
Definition childWidth (config : TreeConfig) (child : TreeNode) : Q :=
  number_or (node_subtreeWidth child)
    (number_or (node_width child) (cfg_nodeWidth config)).

(** [childNode.subtreeWidth || config.nodeHeight]. *)
Definition childHeight (config : TreeConfig) (child : TreeNode) : Q :=
  number_or (node_subtreeWidth child) (cfg_nodeHeight config).

Fixpoint assignVerticalPositions (node : TreeNode) (x y : Q)
    (config : TreeConfig) : TreeNode :=
  match node with
  | Tree n =>
      let nodeWidth := number_or (node_width n) (cfg_nodeWidth config) in
      let subtreeWidth := number_or (node_subtreeWidth n) nodeWidth in
      let placed :=
        set_position n (x + (subtreeWidth - nodeWidth) / 2) y
          (cfg_nodeHeight config) in
      if negb (node_expanded n) || (length (node_children n) =? 0)%nat then
        Tree placed
      else
        let childY := y + cfg_nodeHeight config + cfg_verticalSpacing config in
        Tree (set_children placed
                (place_children
                   (fun child childX =>
                      assignVerticalPositions child childX childY config)
                   (childWidth config) (cfg_horizontalSpacing config)
                   (node_children n) x))
  end.

Fixpoint assignHorizontalPositions (node : TreeNode) (x y : Q)
    (config : TreeConfig) : TreeNode :=
  match node with
  | Tree n =>
      let nodeWidth := number_or (node_width n) (cfg_nodeWidth config) in
      let subtreeWidth :=
        number_or (node_subtreeWidth n) (cfg_nodeHeight config) in
      let placed :=
        set_position n x (y + (subtreeWidth - cfg_nodeHeight config) / 2)
          (cfg_nodeHeight config) in
      if negb (node_expanded n) || (length (node_children n) =? 0)%nat then
        Tree placed
      else
        let childX := x + nodeWidth + cfg_horizontalSpacing config in
        Tree (set_children placed
                (place_children
                   (fun child childY =>
                      assignHorizontalPositions child childX childY config)
                   (childHeight config) (cfg_verticalSpacing config)
                   (node_children n) y))
  end.

(** [collectNodes]: the visible nodes, parents before children. *)
Fixpoint collectNodes (node : TreeNode) : list TreeNode :=
  match node with
  | Tree n =>
      node :: (if node_expanded n
               then flat_map collectNodes (node_children n)
               else [])
  end.

(** An edge.  The SVG path text is the print of four points; the model keeps
    the points: start, two control points, end. *)
Record TreeEdge : Type := mkTreeEdge {
  edge_id : string;
  edge_source : string;
  edge_target : string;
  edge_path : (Q * Q) * (Q * Q) * (Q * Q) * (Q * Q)
}.

Definition createEdge (parent child : TreeNode) (config : TreeConfig)
  : TreeEdge :=
  let parentWidth := number_or (node_width parent) (cfg_nodeWidth config) in
  let childWidth := number_or (node_width child) (cfg_nodeWidth config) in
  let px := number_or (node_x parent) 0 + parentWidth / 2 in
  let py := number_or (node_y parent) 0 + cfg_nodeHeight config in
  let cx := number_or (node_x child) 0 + childWidth / 2 in
  let cy := number_or (node_y child) 0 in
  let midY := (py + cy) / 2 in
  {| edge_id := "edge-" ++ node_id parent ++ "-" ++ node_id child;
     edge_source := node_id parent;
     edge_target := node_id child;
     edge_path :=
       match cfg_orientation config with
       | vertical => ((px, py), (px, midY), (cx, midY), (cx, cy))
       | horizontal => ((py, px), (midY, px), (midY, cx), (cy, cx))
       end |}.

(** [createEdges]: the inner [traverse]. *)
Fixpoint createEdges (root : TreeNode) (config : TreeConfig) : list TreeEdge :=
  match root with
  | Tree n =>
      if node_expanded n then
        flat_map (fun child => createEdge root child config
                                 :: createEdges child config)
          (node_children n)
      else []
  end.

Definition calculateDimensions (nodes : list TreeNode) : Q * Q :=
  let '(maxX, maxY) :=
    fold_left
      (fun (acc : Q * Q) (node : TreeNode) =>
         let nodeWidth := number_or (node_width node) 180 in
         let nodeHeight := number_or (node_height node) 44 in
         (Qmax (fst acc) (number_or (node_x node) 0 + nodeWidth),
          Qmax (snd acc) (number_or (node_y node) 0 + nodeHeight)))
      nodes (0, 0) in
  (maxX + cfg_horizontalSpacing DEFAULT_CONFIG,
   maxY + cfg_verticalSpacing DEFAULT_CONFIG).

Record TreeLayout : Type := mkTreeLayout {
  layout_nodes : list TreeNode;
  layout_edges : list TreeEdge;
  layout_width : Q;
  layout_height : Q
}.

(** The tree as the three passes of [calculateTreeLayout] leave it. *)
Definition positioned (root : TreeNode) (cfg : TreeConfig) : TreeNode :=
  let sized := assignNodeWidths root in
  let measured := fst (calculateSubtreeWidths sized cfg) in
  match cfg_orientation cfg with
  | vertical => assignVerticalPositions measured 0 0 cfg
  | horizontal => assignHorizontalPositions measured 0 0 cfg
  end.

Definition calculateTreeLayout (root : TreeNode) (config : PartialTreeConfig)
  : TreeLayout :=
  let cfg := merge_config config in
  let root := positioned root cfg in
  let nodes := collectNodes root in
  let edges := createEdges root cfg in
  let '(width, height) := calculateDimensions nodes in
  {| layout_nodes := nodes; layout_edges := edges;
     layout_width := width; layout_height := height |}.

(** [calculateFitZoom]; [padding] defaults to 40. *)
Definition calculateFitZoom (layout : TreeLayout)
    (viewportWidth viewportHeight : Q) (padding : Q) : Q :=
  let scaleX := (viewportWidth - padding * 2) / layout_width layout in
  let scaleY := (viewportHeight - padding * 2) / layout_height layout in
  Qmin (Qmin scaleX scaleY) 1.

Definition default_padding : Q := 40.

Local Close Scope Q_scope.

End Rules.

Arguments TreeNode number : clear implicits.
Arguments Node number R : clear implicits.
Arguments heap number : clear implicits.
Arguments TreeLayout number : clear implicits.
Arguments mkNode {number R}.
Arguments node_id {number R} n.
Arguments node_type {number R} n.
Arguments node_label {number R} n.
Arguments node_value {number R} n.
Arguments node_operator {number R} n.
Arguments node_children {number R} n.
Arguments node_parent {number R} n.
Arguments node_depth {number R} n.
Arguments node_path {number R} n.
Arguments node_x {number R} n.
Arguments node_y {number R} n.
Arguments node_width {number R} n.
Arguments node_height {number R} n.
Arguments node_subtreeWidth {number R} n.
Arguments node_expanded {number R} n.
Arguments node_highlighted {number R} n.
Arguments node_selected {number R} n.

(** ** The flowchart emitter ([lib/mermaid/converter.ts]) *)

Module Mermaid.

Definition newline : ascii := ascii_of_nat 10.
Definition dquote_char : ascii := ascii_of_nat 34.

(** [s.replace(/c/g, by)] for a one-character pattern. *)
Fixpoint replace_char (c : ascii) (by_ : string) (s : string) : string :=
  match s with
  | EmptyString => EmptyString
  | String a rest =>
      if Ascii.eqb a c then by_ ++ replace_char c by_ rest
      else String a (replace_char c by_ rest)
  end.

(** [s.replace(/[...]/g, '')] for a class of characters. *)
Fixpoint remove_chars (cs : list ascii) (s : string) : string :=
  match s with
  | EmptyString => EmptyString
  | String a rest =>
      if existsb (Ascii.eqb a) cs then remove_chars cs rest
      else String a (remove_chars cs rest)
  end.

(** [s.slice(0, n)]. *)
Definition slice0 (n : nat) (s : string) : string := substring 0 n s.

Definition escapeLabel (text : string) : string :=
  slice0 50
    (replace_char "|" "/"
       (replace_char newline " "
          (remove_chars ["<"; ">"; "{"; "}"]%char
             (replace_char dquote_char "'" text)))).

(** The statements of the diagram text.  Each constructor is one of the
    line templates of the source; [render] gives the line. *)
Inductive Shape : Type :=
| Terminator      (* ([text]) *)
| Subroutine      (* [[text]] *)
| Hexagon         (* {{text}} *)
| Diamond         (* {text} *)
| Parallelogram.  (* [/text/] *)

Inductive Statement : Type :=
| Text (line : string)
| NodeDecl (id : string) (shape : Shape) (text : string)
| ClassOf (id : string) (class : string)
| Edge (source : string) (label : option string) (target : string).

Definition shape_open (s : Shape) : string :=
  match s with
  | Terminator => "(["
  | Subroutine => "[["
  | Hexagon => "{{"
  | Diamond => "{"
  | Parallelogram => "[/"
  end.

Definition shape_close (s : Shape) : string :=
  match s with
  | Terminator => "])"
  | Subroutine => "]]"
  | Hexagon => "}}"
  | Diamond => "}"
  | Parallelogram => "/]"
  end.

Definition render (st : Statement) : string :=
  match st with
  | Text line => line
  | NodeDecl id shape text =>
      "    " ++ id ++ shape_open shape ++ text ++ shape_close shape
  | ClassOf id class => "    class " ++ id ++ " " ++ class
  | Edge source None target => "    " ++ source ++ " --> " ++ target
  | Edge source (Some label) target =>
      "    " ++ source ++ " -->|" ++ label ++ "| " ++ target
  end.

(** Readers of a statement list, for statements about a document. *)
Definition Shape_eqb (a b : Shape) : bool :=
  match a, b with
  | Terminator, Terminator | Subroutine, Subroutine | Hexagon, Hexagon
  | Diamond, Diamond | Parallelogram, Parallelogram => true
  | _, _ => false
  end.

Definition declares (shape : Shape) (st : Statement) : bool :=
  match st with
  | NodeDecl _ s _ => Shape_eqb s shape
  | _ => false
  end.

Definition is_edge (st : Statement) : bool :=
  match st with
  | Edge _ _ _ => true
  | _ => false
  end.

Definition is_edge_from (source : string) (st : Statement) : bool :=
  match st with
  | Edge s _ _ => (s =? source)%string
  | _ => false
  end.

Inductive MermaidOrientation : Type := TD | TB | LR | RL.

Definition orientation_text (o : MermaidOrientation) : string :=
  match o with
  | TD => "TD"
  | TB => "TB"
  | LR => "LR"
  | RL => "RL"
  end.

Record ConversionOptions : Type := mkConversionOptions {
  opt_orientation : option MermaidOrientation;
  opt_includeValues : option bool
}.

(** The state of one emission: the module-level [nodeCounter] and the two
    arrays [lines] and [connections] that every call pushes to. *)
Record Emitter : Type := mkEmitter {
  nodeCounter : nat;
  lines : list Statement;
  connections : list Statement
}.

Definition Emit (A : Type) : Type := M Emitter A.

(** [n${++nodeCounter}]. *)
Definition generateNodeId : Emit string :=
  fun e =>
    Returns ("n" ++ nat_toString (S (nodeCounter e)),
             {| nodeCounter := S (nodeCounter e); lines := lines e;
                connections := connections e |}).

(** [lines.push(st)]. *)
Definition push_line (st : Statement) : Emit unit :=
  fun e =>
    Returns (tt, {| nodeCounter := nodeCounter e;
                    lines := (lines e ++ [st])%list;
                    connections := connections e |}).

(** [connections.push(st)]. *)
Definition push_connection (st : Statement) : Emit unit :=
  fun e =>
    Returns (tt, {| nodeCounter := nodeCounter e; lines := lines e;
                    connections := (connections e ++ [st])%list |}).

(** [if (parentId) connections.push(`    ${parentId} --> ${id}`)]. *)
Definition connect_parent (parentId : option string) (id : string)
  : Emit unit :=
  match parentId with
  | Some parent => push_connection (Edge parent None id)
  | None => ret tt
  end.

Section Emitter.

Context {number : Type} {host : Host number}.
#[local] Abbreviation jsval := (jsval number).

(** [formatVarName]; [None] when [String(operands[0])] throws. *)
Definition formatVarName (operands : jsval) : option string :=
  match operands with
  | JString s => Some (or_else s "data")
  | JNumber n => Some (Number_toString n)
  | JArray ops =>
      first <-? ToString (index ops 0) ;;
      Some (or_else first "data")
  | _ => Some "data"
  end.

Definition formatOperand (operand : jsval) : option string :=
  match operand with
  | JString s => Some ("'" ++ s ++ "'")
  | JArray items => Some (items_label (length items))
  | JObject [] => Some "{}"
  | JObject ((operator, operands) :: _) =>
      if (operator =? "var")%string then formatVarName operands
      else Some (operator ++ "(...)")
  | _ => ToString operand
  end.

(** The cases of [buildConditionLabel] on an operation, last case first:
    each case that does not apply falls through to the next.  [label] is
    [buildConditionLabel] on an operand. *)
Section ConditionCases.

Variable label : jsval -> option string.

Definition condition_negation (operator : string) (operands : jsval)
  : option string :=
  if (operator =? "!")%string then
    innerLabel <-?
      match operands with
      | JArray [] => Some label_of_undefined
      | JArray (inner :: _) => label inner
      | _ => label operands
      end ;;
    Some ("NOT " ++ innerLabel)
  else Some (operator ++ "(...)").

Definition condition_logical (operator : string) (operands : jsval)
  : option string :=
  match operands with
  | JArray ops =>
      if (operator =? "and")%string then joined label " AND " ops
      else if (operator =? "or")%string then joined label " OR " ops
      else condition_negation operator operands
  | _ => condition_negation operator operands
  end.

Definition condition_membership (operator : string) (operands : jsval)
  : option string :=
  match (operator =? "in")%string, operands with
  | true, JArray (needle :: haystack :: _) =>
      needleLabel <-? formatOperand needle ;;
      haystackLabel <-? formatOperand haystack ;;
      Some (needleLabel ++ " in " ++ haystackLabel)
  | _, _ => condition_logical operator operands
  end.

Definition condition_comparison (operator : string) (operands : jsval)
  : option string :=
  match includes comparison_operators operator, operands with
  | true, JArray (l :: r :: _) =>
      left <-? formatOperand l ;;
      right <-? formatOperand r ;;
      Some (left ++ " " ++ operator ++ " " ++ right)
  | _, _ => condition_membership operator operands
  end.

End ConditionCases.

Fixpoint buildConditionLabel (condition : jsval) {struct condition}
  : option string :=
  match condition with
  | JArray _ => Some (JSON_stringify condition)
  | JObject [] => Some "{}"
  | JObject ((operator, operands) :: _) =>
      condition_comparison (fun operand => buildConditionLabel operand)
        operator operands
  | _ => ToString condition
  end.

Definition yes_label : string := quoted "✓ Yes".
Definition no_label : string := quoted "✗ No".

(** [processIfNode] and [processResultNode] call each other; each call
    spends one unit of fuel. *)
Fixpoint processIfNode (fuel : nat) (operands : jsval)
    (parentId : option string) (includeValues : bool) {struct fuel}
  : Emit string :=
  match fuel with
  | 0 => out_of_fuel
  | S fuel =>
      let placeholder :=
        id <- generateNodeId ;;
        _ <- push_line (NodeDecl id Hexagon (quoted "IF ?")) ;;
        _ <- push_line (ClassOf id "condition") ;;
        _ <- connect_parent parentId id ;;
        ret id in
      match operands with
      | JArray ops =>
          if (length ops <? 2)%nat then placeholder
          else
            conditionLabel <- completes (buildConditionLabel (index ops 0)) ;;
            id <- generateNodeId ;;
            _ <- push_line
                   (NodeDecl id Diamond (quoted (escapeLabel conditionLabel))) ;;
            _ <- push_line (ClassOf id "condition") ;;
            _ <- connect_parent parentId id ;;
            _ <- match index ops 1 with
                 | JUndefined => ret tt
                 | thenResult =>
                     thenId <- processResultNode fuel thenResult includeValues ;;
                     push_connection (Edge id (Some yes_label) thenId)
                 end ;;
            _ <- match index ops 2 with
                 | JUndefined => ret tt
                 | elseResult =>
                     elseId <- processResultNode fuel elseResult includeValues ;;
                     push_connection (Edge id (Some no_label) elseId)
                 end ;;
            ret id
      | _ => placeholder
      end
  end

with processResultNode (fuel : nat) (rule : jsval) (includeValues : bool)
    {struct fuel} : Emit string :=
  match fuel with
  | 0 => out_of_fuel
  | S fuel =>
      let result (label : string) :=
        id <- generateNodeId ;;
        _ <- push_line (NodeDecl id Terminator (quoted (escapeLabel label))) ;;
        _ <- push_line (ClassOf id "result") ;;
        ret id in
      match rule with
      | JObject ((key, operands) :: _) =>
          if (key =? "if")%string || (key =? "?:")%string then
            processIfNode fuel operands None includeValues
          else if (key =? "var")%string then
            id <- generateNodeId ;;
            label <- completes (formatVarName operands) ;;
            _ <- push_line
                   (NodeDecl id Parallelogram (quoted (escapeLabel label))) ;;
            _ <- push_line (ClassOf id "variable") ;;
            ret id
          else result (key ++ "(...)")
      | JObject [] => result "undefined(...)"
      | JNull => result "null"
      | JString s => result (quoted (escapeLabel s))
      | JNumber n => result (Number_toString n)
      | JBool b => result (if b then "true" else "false")
      | JArray _ => result (slice0 30 (JSON_stringify rule))
      | JUndefined =>
          (* JSON.stringify(undefined).slice *)
          id <- generateNodeId ;;
          throw "TypeError: Cannot read properties of undefined"
      end
  end.

(** The body shared by [processComparisonNode], [processLogicalNode] and
    the generic operator case is in [processNode] itself. *)
Fixpoint processNode (fuel : nat) (rule : jsval) (parentId : option string)
    (includeValues : bool) {struct fuel} : Emit string :=
  match fuel with
  | 0 => out_of_fuel
  | S fuel =>
      let each (id : string) (ops : list jsval) : Emit unit :=
        forEach (fun op =>
                   _ <- processNode fuel op (Some id) includeValues ;; ret tt)
          ops in
      match rule with
      | JNull =>
          id <- generateNodeId ;;
          _ <- push_line (NodeDecl id Terminator "null") ;;
          _ <- connect_parent parentId id ;;
          ret id
      | JString s =>
          id <- generateNodeId ;;
          let label := escapeLabel (quoted s) in
          _ <- push_line (NodeDecl id Terminator label) ;;
          _ <- connect_parent parentId id ;;
          ret id
      | JNumber _ | JBool _ =>
          id <- generateNodeId ;;
          text <- completes (ToString rule) ;;
          _ <- push_line (NodeDecl id Terminator text) ;;
          _ <- connect_parent parentId id ;;
          ret id
      | JArray items =>
          id <- generateNodeId ;;
          _ <- push_line (NodeDecl id Subroutine "Array") ;;
          _ <- connect_parent parentId id ;;
          _ <- (if includeValues then each id items else ret tt) ;;
          ret id
      | JUndefined =>
          (* Object.keys(undefined) *)
          throw "TypeError: Cannot convert undefined or null to object"
      | JObject [] =>
          id <- generateNodeId ;;
          _ <- push_line (NodeDecl id Terminator "{}") ;;
          _ <- connect_parent parentId id ;;
          ret id
      | JObject ((operator, operands) :: _) =>
          if (operator =? "var")%string then
            (* processVarNode *)
            id <- generateNodeId ;;
            varName <- completes (formatVarName operands) ;;
            _ <- push_line (NodeDecl id Parallelogram (escapeLabel varName)) ;;
            _ <- connect_parent parentId id ;;
            ret id
          else if (operator =? "if")%string then
            processIfNode fuel operands parentId includeValues
          else if includes comparison_operators operator then
            (* processComparisonNode *)
            id <- generateNodeId ;;
            _ <- push_line (NodeDecl id Diamond (escapeLabel operator)) ;;
            _ <- connect_parent parentId id ;;
            _ <- match operands with
                 | JArray ops => each id ops
                 | _ => ret tt
                 end ;;
            ret id
          else if includes ["and"; "or"] operator then
            (* processLogicalNode *)
            id <- generateNodeId ;;
            _ <- push_line (NodeDecl id Hexagon operator) ;;
            _ <- connect_parent parentId id ;;
            _ <- match operands with
                 | JArray ops => each id ops
                 | _ => ret tt
                 end ;;
            ret id
          else
            id <- generateNodeId ;;
            _ <- push_line (NodeDecl id Hexagon (escapeLabel operator)) ;;
            _ <- connect_parent parentId id ;;
            _ <- match operands with
                 | JArray ops => each id ops
                 | JNull | JUndefined => ret tt
                 | _ =>
                     _ <- processNode fuel operands (Some id) includeValues ;;
                     ret tt
                 end ;;
            ret id
      end
  end.

(** The options of a call that passes none. *)
Definition no_options : ConversionOptions :=
  {| opt_orientation := None; opt_includeValues := None |}.

(** The header and the style block that [toMermaidFlowchart] starts with. *)
Definition header (orientation : MermaidOrientation) : list Statement :=
  [ Text ("flowchart " ++ orientation_text orientation);
    Text EmptyString;
    Text "  %% Styling";
    Text "  classDef condition fill:#fef3c7,stroke:#f59e0b,color:#92400e";
    Text "  classDef result fill:#d1fae5,stroke:#10b981,color:#065f46";
    Text "  classDef variable fill:#dbeafe,stroke:#3b82f6,color:#1e40af";
    Text "  classDef operator fill:#f3e8ff,stroke:#a855f7,color:#6b21a8";
    Text EmptyString ].

(** The statements of the document: [[...lines, '', ...connections]]. *)
Definition flowchart_statements (fuel : nat) (rule : jsval)
    (options : ConversionOptions) : outcome (list Statement) :=
  let orientation := override (opt_orientation options) TD in
  let includeValues := override (opt_includeValues options) true in
  match processNode fuel rule None includeValues
          {| nodeCounter := 0; lines := header orientation;
             connections := [] |} with
  | Returns (_, e) =>
      Returns (lines e ++ [Text EmptyString] ++ connections e)%list
  | Throws err => Throws err
  | OutOfFuel => OutOfFuel
  end.

Definition toMermaidFlowchart (fuel : nat) (rule : jsval)
    (options : ConversionOptions) : outcome string :=
  match flowchart_statements fuel rule options with
  | Returns statements =>
      Returns (join (String newline EmptyString) (map render statements))
  | Throws err => Throws err
  | OutOfFuel => OutOfFuel
  end.

End Emitter.

End Mermaid.

(** ** A host with integer numbers

    The concrete scenarios use rule expressions whose numbers are integers,
    printed in decimal, and the [JSON.stringify] of such values. *)

Definition Z_toString (z : Z) : string := NilZero.string_of_int (Z.to_int z).

Definition hex_digit (n : nat) : ascii :=
  nth n ["0"; "1"; "2"; "3"; "4"; "5"; "6"; "7"; "8"; "9";
         "a"; "b"; "c"; "d"; "e"; "f"]%char "0"%char.

(** The escape [JSON.stringify] writes for one character of a string. *)
Definition JSON_escape_char (c : ascii) : string :=
  let n := nat_of_ascii c in
  if (n =? 34)%nat then "\" ++ dquote
  else if (n =? 92)%nat then "\\"
  else if (n =? 8)%nat then "\b"
  else if (n =? 9)%nat then "\t"
  else if (n =? 10)%nat then "\n"
  else if (n =? 12)%nat then "\f"
  else if (n =? 13)%nat then "\r"
  else if (n <? 32)%nat then
    "\u00" ++ String (hex_digit (n / 16)) (String (hex_digit (n mod 16)) EmptyString)
  else String c EmptyString.

Fixpoint JSON_quote_chars (s : string) : string :=
  match s with
  | EmptyString => EmptyString
  | String c rest => JSON_escape_char c ++ JSON_quote_chars rest
  end.

Definition JSON_quote (s : string) : string := quoted (JSON_quote_chars s).

(** [JSON.stringify] followed by the conversion of a template literal, which
    prints the [undefined] that [JSON.stringify(undefined)] returns.
    [number_text] is the text written for a number. *)
Section Stringify.

Context {number : Type}.
Variable number_text : number -> string.

Fixpoint JSON_text (v : jsval number) : string :=
  match v with
  | JUndefined => "undefined"
  | JNull => "null"
  | JBool true => "true"
  | JBool false => "false"
  | JNumber n => number_text n
  | JString s => JSON_quote s
  | JArray items =>
      "[" ++ join ","
               (map (fun e => match e with
                              | JUndefined => "null"
                              | _ => JSON_text e
                              end) items) ++ "]"
  | JObject entries =>
      "{" ++ join ","
               ((fix props (l : list (string * jsval number)) : list string :=
                   match l with
                   | [] => []
                   | (k, JUndefined) :: l' => props l'
                   | (k, x) :: l' =>
                       (JSON_quote k ++ ":" ++ JSON_text x) :: props l'
                   end) entries) ++ "}"
  end.

End Stringify.

Definition Z_JSON_stringify : jsval Z -> string := JSON_text Z_toString.

#[export] Instance Z_host : Host Z :=
  {| Number_toString := Z_toString; JSON_stringify := Z_JSON_stringify;
     JSON_reparse_number := Some |}.

(** ** A host with an infinite number

    The numbers of this host are the integers and [Infinity], the number
    the JSON parser makes of a literal beyond the range of the number format
    (the rule text [1e999]).  It prints as [Infinity], and [JSON.stringify]
    writes [null] for it. *)

Inductive extended : Type :=
| Finite (z : Z)
| Infinity.

Definition extended_toString (n : extended) : string :=
  match n with
  | Finite z => Z_toString z
  | Infinity => "Infinity"
  end.

Definition extended_JSON_text (n : extended) : string :=
  match n with
  | Finite z => Z_toString z
  | Infinity => "null"
  end.

Definition extended_reparse (n : extended) : option extended :=
  match n with
  | Finite z => Some (Finite z)
  | Infinity => None
  end.

#[export] Instance extended_host : Host extended :=
  {| Number_toString := extended_toString;
     JSON_stringify := JSON_text extended_JSON_text;
     JSON_reparse_number := extended_reparse |}.

(** ** The rules of the concrete scenarios *)

(** [{"var": "age"}] *)
Definition var_age : jsval Z := JObject [("var", JString "age")].

(** [{">=": [{"var": "age"}, 18]}] *)
Definition rule_age_at_least_18 : jsval Z :=
  JObject [(">=", JArray [var_age; JNumber 18%Z])].

(** [{"if": [{">": [{"var": "age"}, 18]}, "adult", "minor"]}] *)
Definition rule_adult_or_minor : jsval Z :=
  JObject [("if", JArray [JObject [(">", JArray [var_age; JNumber 18%Z])];
                          JString "adult"; JString "minor"])].

(** [{"if": [true, "a", false, "b"]}]: a chained conditional with no final
    else, which the validator of the repository accepts with a warning. *)
Definition rule_chain_without_else : jsval Z :=
  JObject [("if", JArray [JBool true; JString "a"; JBool false; JString "b"])].

(** [{"and": []}] *)
Definition rule_empty_and : jsval Z := JObject [("and", JArray [])].

(** [{"var": [{"toString": 1}]}]: a variable whose path is an object that
    has a property named [toString]. *)
Definition rule_var_unprintable : jsval Z :=
  JObject [("var", JArray [JObject [("toString", JNumber 1%Z)]])].

(** ** Vocabulary of the statements below *)

(** The operators whose label joins the labels of the operands. *)
Definition joining_operators : list string :=
  ["and"; "or"] ++ arithmetic_operators.

(** An operation over [operators] that joins no label, or one empty label. *)
Definition joins_labels {number : Type}
    (label : jsval number -> option string)
    (operators : list string) (operator : string) (operands : jsval number)
  : Prop :=
  exists ops,
    operands = JArray ops /\ includes operators operator = true /\
    (map label ops = [] \/ map label ops = [Some ""]).

(** The rules with an empty label are those of [joins_nothing]. *)
Definition label_law {number : Type} {host : Host number}
    (rule : jsval number) : Prop :=
  forall compact,
    buildLabel rule compact = Some "" <-> joins_nothing rule = true.

(** The label the code gives the comparison of scenario 2: the variable is
    printed in double quotes, not with a dollar sign. *)
Definition label_age_at_least_18 : string := quoted "age" ++ " >= 18".

(** The characters of a string. *)
Definition chars (s : string) : list ascii := list_ascii_of_string s.

(** The characters [escapeLabel] keeps out of its result. *)
Definition unsafe_chars : list ascii :=
  [Mermaid.dquote_char; "<"; ">"; "{"; "}"; "|"; Mermaid.newline]%char.

(** What becomes of one character of a label, in the words of the
    specification: a quote is normalized to an apostrophe, a bracket is
    removed, a newline becomes a space, a pipe becomes a slash, and any
    other character stays. *)
Definition normalized (c : ascii) : list ascii :=
  if Ascii.eqb c Mermaid.dquote_char then ["'"%char]
  else if existsb (Ascii.eqb c) ["<"; ">"; "{"; "}"]%char then []
  else if Ascii.eqb c Mermaid.newline then [" "%char]
  else if Ascii.eqb c "|"%char then ["/"%char]
  else [c].

(** The rule [1e999], read by the JSON parser as [Infinity]; the tree the
    builder returns for it, a single literal node; and the store that holds
    that node at location 0. *)
Definition rule_infinity : jsval extended := JNumber Infinity.

Definition node_infinity {R : Type} : Node extended R :=
  {| node_id := "node-1"; node_type := TValue; node_label := "Infinity";
     node_value := rule_infinity; node_operator := None; node_children := [];
     node_parent := None; node_depth := 0%nat; node_path := [];
     node_x := None; node_y := None; node_width := None;
     node_height := None; node_subtreeWidth := None;
     node_expanded := true; node_highlighted := false;
     node_selected := false |}.

Definition tree_infinity : TreeNode extended := Tree node_infinity.

Definition heap_infinity : heap extended := [node_infinity].

(** A document: its lines joined by newlines. *)
Definition document (lines : list string) : string :=
  join (String Mermaid.newline EmptyString) lines.

(** The document of the rule of scenario 3, line by line. *)
Definition document_adult_or_minor : string :=
  document
    [ "flowchart TD";
      EmptyString;
      "  %% Styling";
      "  classDef condition fill:#fef3c7,stroke:#f59e0b,color:#92400e";
      "  classDef result fill:#d1fae5,stroke:#10b981,color:#065f46";
      "  classDef variable fill:#dbeafe,stroke:#3b82f6,color:#1e40af";
      "  classDef operator fill:#f3e8ff,stroke:#a855f7,color:#6b21a8";
      EmptyString;
      "    n1{" ++ dquote ++ "age  18" ++ dquote ++ "}";
      "    class n1 condition";
      "    n2([" ++ dquote ++ "'adult'" ++ dquote ++ "])";
      "    class n2 result";
      "    n3([" ++ dquote ++ "'minor'" ++ dquote ++ "])";
      "    class n3 result";
      EmptyString;
      "    n1 -->|" ++ dquote ++ "✓ Yes" ++ dquote ++ "| n2";
      "    n1 -->|" ++ dquote ++ "✗ No" ++ dquote ++ "| n3" ].

(** The rule ["a])"], a string that holds a bracket and a parenthesis, and
    its document. *)
Definition rule_bracket_text : jsval Z := JString "a])".

Definition document_bracket_text : string :=
  document
    [ "flowchart TD";
      EmptyString;
      "  %% Styling";
      "  classDef condition fill:#fef3c7,stroke:#f59e0b,color:#92400e";
      "  classDef result fill:#d1fae5,stroke:#10b981,color:#065f46";
      "  classDef variable fill:#dbeafe,stroke:#3b82f6,color:#1e40af";
      "  classDef operator fill:#f3e8ff,stroke:#a855f7,color:#6b21a8";
      EmptyString;
      "    n1(['a])'])";
      EmptyString ].

(** A text written between the delimiters of its shape without quotes ends,
    for a reader of the line, at the first occurrence of the closing
    delimiter: a text that holds the delimiter closes its node early and
    leaves the rest of the line behind it. *)
Definition closes_early (shape : Mermaid.Shape) (text : string) : bool :=
  negb (String.prefix dquote text) &&
  match String.index 0 (Mermaid.shape_close shape) text with
  | Some _ => true
  | None => false
  end.

(** The statements emitted for the rule of scenario 3. *)
Definition statements_adult_or_minor : list Mermaid.Statement :=
  (Mermaid.header Mermaid.TD ++
   [ Mermaid.NodeDecl "n1" Mermaid.Diamond (quoted "age  18");
     Mermaid.ClassOf "n1" "condition";
     Mermaid.NodeDecl "n2" Mermaid.Terminator (quoted "'adult'");
     Mermaid.ClassOf "n2" "result";
     Mermaid.NodeDecl "n3" Mermaid.Terminator (quoted "'minor'");
     Mermaid.ClassOf "n3" "result";
     Mermaid.Text EmptyString;
     Mermaid.Edge "n1" (Some (quoted "✓ Yes")) "n2";
     Mermaid.Edge "n1" (Some (quoted "✗ No")) "n3" ])%list.

(** ** Vocabulary of the layout statements

    [Sized], [Measured] and [Placed] say what each of the three passes of
    [calculateTreeLayout] leaves on the visible part of a tree. *)

Section LayoutVocabulary.

Context {number : Type}.
#[local] Abbreviation TreeNode := (TreeNode number).
Local Open Scope Q_scope.

(** Where the row of children ends: the offset after the last child. *)
Fixpoint row_end (cfg : TreeConfig) (cs : list TreeNode) (childX : Q) : Q :=
  match cs with
  | [] => childX
  | c :: cs' =>
      row_end cfg cs' (childX + childWidth cfg c + cfg_horizontalSpacing cfg)
  end.

(** After [assignNodeWidths]: every node has a positive width. *)
Fixpoint Sized (t : TreeNode) : Prop :=
  match t with
  | Tree n =>
      (exists w, node_width n = Some w /\ 0 < w) /\
      fold_right (fun c rest => Sized c /\ rest) True (node_children n)
  end.

(** After [calculateSubtreeWidths]: a visible node has a subtree width no
    smaller than its own width and, when expanded, than the row of its
    children. *)
Fixpoint Measured (cfg : TreeConfig) (t : TreeNode) : Prop :=
  match t with
  | Tree n =>
      exists w sw,
        node_width n = Some w /\ node_subtreeWidth n = Some sw /\
        0 < w /\ w <= sw /\
        (node_expanded n = true ->
           fold_right (fun c rest => Measured cfg c /\ rest) True (node_children n) /\
           row_end cfg (node_children n) 0 <= sw + cfg_horizontalSpacing cfg)
  end.

(** A row of children placed from [childX] on, left to right. *)
Fixpoint placed_row (P : TreeNode -> Q -> Prop) (cfg : TreeConfig)
    (cs : list TreeNode) (childX : Q) : Prop :=
  match cs with
  | [] => True
  | c :: cs' =>
      P c childX /\
      placed_row P cfg cs' (childX + childWidth cfg c + cfg_horizontalSpacing cfg)
  end.

(** After [assignVerticalPositions node x y]: the node is centred in the
    span that starts at [x], at height [y], and its children form a row from
    [x] on, one level down, that ends within the span. *)
Fixpoint Placed (cfg : TreeConfig) (t : TreeNode) (x y : Q) {struct t} : Prop :=
  match t with
  | Tree n =>
      exists w sw,
        node_width n = Some w /\ node_subtreeWidth n = Some sw /\
        0 < w /\ w <= sw /\
        node_x n = Some (x + (sw - w) / 2) /\ node_y n = Some y /\
        (node_expanded n = true ->
           placed_row
             (fun c childX =>
                Placed cfg c childX (y + cfg_nodeHeight cfg + cfg_verticalSpacing cfg))
             cfg (node_children n) x /\
           row_end cfg (node_children n) x
             <= x + sw + cfg_horizontalSpacing cfg)
  end.

(** The box of a laid out node and the span of its subtree, read from the
    geometry fields the way [calculateDimensions] reads them. *)
Definition box_left (n : TreeNode) : Q := number_or (node_x n) 0.
Definition box_width (n : TreeNode) : Q := number_or (node_width n) 0.
Definition box_right (n : TreeNode) : Q := box_left n + box_width n.
Definition box_top (n : TreeNode) : Q := number_or (node_y n) 0.
Definition span_width (n : TreeNode) : Q := number_or (node_subtreeWidth n) 0.
Definition span_left (n : TreeNode) : Q :=
  box_left n - (span_width n - box_width n) / 2.
Definition span_right (n : TreeNode) : Q := span_left n + span_width n.

(** What the measuring pass leaves: the tree is measured, its subtree width
    is the number returned, and it is at least the node's width. *)
Definition measured_as (cfg : TreeConfig) (t' : TreeNode) (sw : Q) : Prop :=
  Measured cfg t' /\ node_subtreeWidth t' = Some sw /\ 0 < sw.


End LayoutVocabulary.

(** A tree of one literal node, as the tree builder returns it for [null]. *)
Definition tree_null : TreeNode Z :=
  Tree {| node_id := "node-1"; node_type := TValue; node_label := "null";
          node_value := JNull; node_operator := None; node_children := [];
          node_parent := None; node_depth := 0%nat; node_path := [];
          node_x := None; node_y := None; node_width := None;
          node_height := None; node_subtreeWidth := None;
          node_expanded := true; node_highlighted := false;
          node_selected := false |}.

(** [calculateTreeLayout(root)]: no option given. *)
Definition no_config : PartialTreeConfig :=
  {| opt_nodeWidth := None; opt_nodeHeight := None;
     opt_horizontalSpacing := None; opt_verticalSpacing := None;
     opt_orientation := None |}.

(** The tree the builder returns for the rule of scenario 3. *)
Definition tree_adult_or_minor : TreeNode Z :=
  Eval vm_compute in
    match parseRuleToTree 3 rule_adult_or_minor None 0 [] 0 with
    | Returns (t, _) => t
    | _ => tree_null
    end.

(** ** Vocabulary of the statements about the toggles *)

Section ToggleVocabulary.

Context {number : Type} {host : Host number}.
#[local] Abbreviation TreeNode := (TreeNode number).
#[local] Abbreviation heap := (heap number).
#[local] Abbreviation object := (Node number loc).
Local Open Scope nat_scope.

(** Ids and flags of a list of trees, in order. *)
Definition forest_ids (cs : list TreeNode) : list string :=
  flat_map tree_ids cs.
Definition forest_flags (cs : list TreeNode) : list bool :=
  flat_map tree_flags cs.

(** [k] is the first position of [id] in [ids]. *)
Definition first_at (id : string) (ids : list string) (k : nat) : Prop :=
  nth_error ids k = Some id /\
  forall j, j < k -> nth_error ids j <> Some id.

(** The flags after a toggle: one flag flipped, at the first position of
    the id; no result when the id does not occur. *)
Definition flipped_at_first (id : string) (ids : list string)
    (flags : list bool) (result : option (list bool)) : Prop :=
  match result with
  | Some flags' =>
      exists k, first_at id ids k /\ flags' = update_at k negb flags
  | None => ~ In id ids
  end.

(** Number of nodes and height of a list of trees. *)
Definition sizes (cs : list TreeNode) : nat :=
  fold_right (fun c rest => size c + rest) 0 cs.
Definition heights (cs : list TreeNode) : nat :=
  fold_right (fun c rest => Nat.max (height c) rest) 0 cs.

(** [keeps h h']: every object of the store [h] is in [h'], at the same
    location and with the same fields. *)
Definition keeps (h h' : heap) : Prop :=
  forall i o, nth_error h i = Some o -> nth_error h' i = Some o.

(** [node.expanded = !node.expanded] on an object. *)
Definition flip (o : object) : object :=
  set_expanded o (negb (node_expanded o)).

(** What [findNodeById] returns on a region, and the region after the flag
    of the node found is flipped. *)
Definition found_and_flipped (fuel : nat) (id : string) (h : heap)
    (t : TreeNode) (lo : nat) (l : loc) : Prop :=
  match toggle_first id t with
  | Some t' =>
      exists p,
        findNodeById fuel l id h = Returns (Some p, h) /\
        lo <= p <= l /\
        region (update_at p flip h) t' lo l
  | None => findNodeById fuel l id h = Returns (None, h)
  end.

(** [node.expanded = b] on an object. *)
Definition assign_flag (b : bool) (node : loc) : M heap unit :=
  assign_expanded node (fun _ => b).

(** The two stores agree at every location outside [lo, hi). *)
Definition outside (lo hi : nat) (h h' : heap) : Prop :=
  forall i, ~ (lo <= i < hi) -> nth_error h' i = nth_error h i.

End ToggleVocabulary.

(** The store after [JSON.parse] has laid the tree of scenario 3 out in an
    empty store; its root is at location 2. *)
Definition heap_adult_or_minor : heap Z :=
  Eval vm_compute in
    match JSON_parse_tree tree_adult_or_minor [] with
    | Returns (_, h) => h
    | _ => []
    end.


(** ** The path to a node ([getPathToNode] of [lib/tree/parser.ts]) *)

Section Paths.
Local Open Scope list_scope.
Local Open Scope nat_scope.

Context {number : Type} {host : Host number}.
#[local] Abbreviation TreeNode := (TreeNode number).
#[local] Abbreviation heap := (heap number).

(** The loop [for (const child of node.children) if (traverse(child))
    return true] of [getPathToNode], the array [path] passed along. *)
Fixpoint any_child (traverse : loc -> list loc -> M heap (bool * list loc))
    (children : list loc) (path : list loc) : M heap (bool * list loc) :=
  match children with
  | [] => ret (false, path)
  | child :: rest =>
      r <- traverse child path ;;
      if fst r then ret r else any_child traverse rest (snd r)
  end.

(** The inner [traverse] of [getPathToNode]: [path.push(node)] on entry,
    [path.pop()] when neither the node nor its subtree holds the target.
    The array [path] goes in and comes out with the answer. *)
Fixpoint traverse (fuel : nat) (targetId : string) (node : loc)
    (path : list loc) {struct fuel} : M heap (bool * list loc) :=
  match fuel with
  | 0 => out_of_fuel
  | S fuel =>
      let path := (path ++ [node])%list in
      o <- deref node ;;
      if (node_id o =? targetId)%string then ret (true, path)
      else
        r <- any_child (traverse fuel targetId) (node_children o) path ;;
        if fst r then ret r else ret (false, removelast (snd r))
  end.

Definition getPathToNode (fuel : nat) (root : loc) (targetId : string)
  : M heap (list loc) :=
  r <- traverse fuel targetId root [] ;;
  ret (snd r).

(** The test [node.id === id] on a tree value. *)
Definition has_id (id : string) (t : TreeNode) : bool :=
  (node_id t =? id)%string.

(** Each tree of the list is a child of the one before it. *)
Fixpoint descends (path : list TreeNode) : Prop :=
  match path with
  | parent :: ((child :: _) as rest) =>
      In child (node_children parent) /\ descends rest
  | _ => True
  end.

(** What [findNodeById] gives on the nodes [nodes], listed in its search
    order: the location of the first one with the id, or [null]. *)
Definition found_first (id : string) (h : heap)
    (result : outcome (option loc * heap)) (nodes : list TreeNode) : Prop :=
  match find (has_id id) nodes with
  | Some s => exists p, result = Returns (Some p, h) /\ rep h p s
  | None => result = Returns (None, h)
  end.

(** What [traverse] gives when it starts at [start] with the path [pre]:
    the path extended down to the first node with the id, or the path as it
    was. *)
Definition path_found (id : string) (h : heap) (start : TreeNode)
    (nodes : list TreeNode) (pre : list loc)
    (result : outcome ((bool * list loc) * heap)) : Prop :=
  match find (has_id id) nodes with
  | Some s =>
      exists ls path front,
        result = Returns ((true, (pre ++ ls)%list), h) /\
        Forall2 (rep h) ls path /\
        hd_error path = Some start /\ path = (front ++ [s])%list /\
        descends path
  | None => result = Returns ((false, pre), h)
  end.

End Paths.

(** ** Vocabulary of the statements about the tree builder *)

Section BuilderVocabulary.
Local Open Scope list_scope.
Local Open Scope nat_scope.

Context {number : Type} {host : Host number}.
#[local] Abbreviation jsval := (jsval number).
#[local] Abbreviation TreeNode := (TreeNode number).

(** A value of the JSON data model: [undefined] occurs nowhere in it. *)
Fixpoint json_value (v : jsval) : bool :=
  match v with
  | JUndefined => false
  | JArray items => forallb json_value items
  | JObject entries => forallb (fun kv => json_value (snd kv)) entries
  | _ => true
  end.

(** No object of the value has a property named [toString]: the conversion
    of the value to a string, and that of every part of it, returns. *)
Fixpoint printable (v : jsval) : bool :=
  match v with
  | JArray items => forallb printable items
  | JObject entries =>
      negb (has_key "toString" entries)
      && forallb (fun kv => printable (snd kv)) entries
  | _ => true
  end.

(** The labels of the operands of an operation exist. *)
Definition operands_labelled (label : jsval -> option string)
    (operands : jsval) : Prop :=
  (exists s, label operands = Some s) /\
  match operands with
  | JArray ops => Forall (fun op => exists s, label op = Some s) ops
  | _ => True
  end.

(** [buildLabel] and [buildConditionLabel] return on a printable value. *)
Definition labelled (rule : jsval) : Prop :=
  printable rule = true ->
  forall compact, exists s, buildLabel rule compact = Some s.

Definition conditioned (condition : jsval) : Prop :=
  printable condition = true ->
  exists s, Mermaid.buildConditionLabel condition = Some s.

(** The operators that [parseRuleToTree] hands to [createIfNode]. *)
Definition is_conditional (operator : string) : bool :=
  (operator =? "if")%string || (operator =? "?:")%string.

(** Wherever an object of the value starts with [if] or [?:] applied to a
    list of more than three operands, the list has an odd length. *)
Fixpoint chains_end (v : jsval) : bool :=
  match v with
  | JArray items => forallb chains_end items
  | JObject entries =>
      match entries with
      | (operator, JArray ops) :: _ =>
          negb (is_conditional operator)
          || (length ops <=? 3)%nat || Nat.odd (length ops)
      | _ => true
      end
      && forallb (fun kv => chains_end (snd kv)) entries
  | _ => true
  end.

(** A number of nested calls that is enough to build the tree of a value,
    and to emit its diagram. *)
Fixpoint weight (v : jsval) : nat :=
  match v with
  | JArray items => S (list_sum (map (fun item => S (weight item)) items))
  | JObject entries => 4 + list_sum (map (fun kv => weight (snd kv)) entries)
  | _ => 1
  end.

(** A call came back with a result. *)
Definition returns {St A} (r : outcome (A * St)) : Prop :=
  exists a s, r = Returns (a, s).

(** [parseRuleToTree] returns on the rule whenever it is given [weight]
    nested calls. *)
Definition builds (rule : jsval) : Prop :=
  forall fuel parentId depth path counter,
    weight rule <= fuel ->
    returns (parseRuleToTree fuel rule parentId depth path counter).

Definition sound (rule : jsval) : Prop :=
  json_value rule = true /\ chains_end rule = true /\ printable rule = true.

(** The ids [node-from], [node-(from+1)], ..., [count] of them. *)
Definition node_ids (from count : nat) : list string :=
  map (fun k => ("node-" ++ nat_toString k)%string) (seq from count).

(** Every child names its parent in [parent] and lies one level below it. *)
Fixpoint linked (t : TreeNode) : Prop :=
  match t with
  | Tree n =>
      fold_right
        (fun (c : TreeNode) rest =>
           (node_parent c = Some (node_id n) /\
            node_depth c = S (node_depth n) /\ linked c) /\ rest)
        True (node_children n)
  end.

(** What a call of the tree builder that started with the counter at [c]
    hands back: a tree below [parentId] at [depth] whose nodes took the
    next ids in the order of [flattenTree], and the counter after them. *)
Definition built (t : TreeNode) (parentId : option string) (depth : nat)
    (c c' : nat) : Prop :=
  node_parent t = parentId /\ node_depth t = depth /\
  tree_ids t = node_ids (S c) (size t) /\ c' = c + size t /\ linked t.

Definition forest_built (ts : list TreeNode) (parentId : option string)
    (depth : nat) (c c' : nat) : Prop :=
  Forall (fun t : TreeNode =>
            node_parent t = parentId /\ node_depth t = depth /\ linked t)
    ts /\
  forest_ids ts = node_ids (S c) (sizes ts) /\ c' = c + sizes ts.

(** [built] for each of the four functions of the builder. *)
Definition parse_built (fuel : nat) : Prop :=
  forall (rule : jsval) parentId depth path c t c',
    parseRuleToTree fuel rule parentId depth path c = Returns (t, c') ->
    built t parentId depth (if (depth =? 0)%nat then 0 else c) c'.

Definition result_built (fuel : nat) : Prop :=
  forall (result : jsval) parentId depth path b c t c',
    createResultNode fuel result parentId (S depth) path b c
    = Returns (t, c') ->
    built t (Some parentId) (S depth) c c'.

Definition chain_built (fuel : nat) : Prop :=
  forall (ops : list jsval) parentId depth path rule c t c',
    createChainedIfNode fuel ops parentId depth path rule c
    = Returns (t, c') ->
    built t parentId depth c c'.

Definition if_built (fuel : nat) : Prop :=
  forall (ops : list jsval) parentId depth path rule c t c',
    createIfNode fuel ops parentId depth path rule c = Returns (t, c') ->
    built t parentId depth c c'.

End BuilderVocabulary.

(** ** Vocabulary of the statements about the layout *)

Section GeometryVocabulary.
Local Open Scope list_scope.
Local Open Scope nat_scope.

Context {number : Type}.
#[local] Abbreviation TreeNode := (TreeNode number).

(** The tree with its geometry fields ([x], [y], [width], [height] and
    [subtreeWidth]) cleared: what a layout pass must leave alone. *)
Fixpoint erase_geometry (t : TreeNode) : TreeNode :=
  match t with
  | Tree n =>
      Tree (set_children (set_geometry n None None None None None)
              (map erase_geometry (node_children n)))
  end.

(** [source] is the id of a node that is shown with its children, and
    [target] the id of one of them. *)
Definition shown_child (nodes : list TreeNode) (source target : string)
  : Prop :=
  exists parent child : TreeNode,
    In parent nodes /\ node_expanded parent = true /\
    In child (node_children parent) /\
    source = node_id parent /\ target = node_id child.

End GeometryVocabulary.

(** ** Vocabulary of the statements about a diagram *)

Section DiagramVocabulary.
Local Open Scope list_scope.
Local Open Scope nat_scope.

(** The id [n<k>] of the [k]-th node of a diagram. *)
Definition n_id (k : nat) : string := ("n" ++ nat_toString k)%string.

(** The ids of the nodes a statement list declares, in order. *)
Definition declared (statements : list Mermaid.Statement) : list string :=
  flat_map (fun st => match st with
                      | Mermaid.NodeDecl id _ _ => [id]
                      | _ => []
                      end) statements.

(** The edges of a statement list, each as its source and its target. *)
Definition edges (statements : list Mermaid.Statement)
  : list (string * string) :=
  flat_map (fun st => match st with
                      | Mermaid.Edge source _ target => [(source, target)]
                      | _ => []
                      end) statements.

(** The edge between the nodes numbered [i] and [j]. *)
Definition edge_between (ij : nat * nat) : string * string :=
  (n_id (fst ij), n_id (snd ij)).

(** The state of an emission is in order: the nodes declared so far are
    [n1] to [n<nodeCounter>], declared once each and in [lines]; the edges
    are in [connections], each from a node to one declared after it; and
    every node is the target of exactly one edge, but for the nodes of
    [orphans], which have none yet. *)
Definition in_order (e : Mermaid.Emitter) (orphans : list nat) : Prop :=
  declared (Mermaid.lines e) = map n_id (seq 1 (Mermaid.nodeCounter e)) /\
  edges (Mermaid.lines e) = [] /\
  declared (Mermaid.connections e) = [] /\
  exists pairs,
    edges (Mermaid.connections e) = map edge_between pairs /\
    Forall (fun ij => 1 <= fst ij < snd ij /\
                      snd ij <= Mermaid.nodeCounter e) pairs /\
    Permutation (map snd pairs ++ orphans)%list
      (seq 1 (Mermaid.nodeCounter e)).

(** The orphans after a call that was given the parent [p] and declared
    the node [j] first. *)
Definition orphans_after (p : option nat) (j : nat) (orphans : list nat)
  : list nat :=
  match p with
  | Some _ => orphans
  | None => j :: orphans
  end.

(** What a call of the emitter that returns [r] has done: it has declared
    the node after [nodeCounter] first and returns its id, and it leaves
    the state in order, the node an orphan when no parent was given. *)
Definition follows (p : option nat) (e : Mermaid.Emitter) (O : list nat)
    (r : string * Mermaid.Emitter) : Prop :=
  Mermaid.nodeCounter e < Mermaid.nodeCounter (snd r) /\
  fst r = n_id (S (Mermaid.nodeCounter e)) /\
  in_order (snd r) (orphans_after p (S (Mermaid.nodeCounter e)) O).

End DiagramVocabulary.

Section EmitterVocabulary.
Local Open Scope list_scope.
Local Open Scope nat_scope.

Context {number : Type} {host : Host number}.
#[local] Abbreviation jsval := (jsval number).

(** The three entry points of the emitter return on the value whenever
    they are given [weight] nested calls. *)
Definition emits (v : jsval) : Prop :=
  json_value v = true -> printable v = true ->
  forall fuel, weight v <= fuel ->
    (forall includeValues e,
       returns (Mermaid.processResultNode fuel v includeValues e)) /\
    (forall parentId includeValues e,
       returns (Mermaid.processIfNode fuel v parentId includeValues e)) /\
    (forall parentId includeValues e,
       returns (Mermaid.processNode fuel v parentId includeValues e)).

(** [follows] for each of the three entry points. *)
Definition node_spec (fuel : nat) : Prop :=
  forall (rule : jsval) (p : option nat) includeValues e O r,
    in_order e O ->
    (forall i, p = Some i -> 1 <= i <= Mermaid.nodeCounter e) ->
    Mermaid.processNode fuel rule (option_map n_id p) includeValues e
    = Returns r ->
    follows p e O r.

Definition if_spec (fuel : nat) : Prop :=
  forall (operands : jsval) (p : option nat) includeValues e O r,
    in_order e O ->
    (forall i, p = Some i -> 1 <= i <= Mermaid.nodeCounter e) ->
    Mermaid.processIfNode fuel operands (option_map n_id p) includeValues e
    = Returns r ->
    follows p e O r.

Definition result_spec (fuel : nat) : Prop :=
  forall (rule : jsval) includeValues e O r,
    in_order e O ->
    Mermaid.processResultNode fuel rule includeValues e = Returns r ->
    follows None e O r.

End EmitterVocabulary.

(** ** Vocabulary of the statements about the texts of a diagram *)

Section TextVocabulary.
Local Open Scope list_scope.
Local Open Scope nat_scope.

(** The angle brackets, the curly braces, the pipe and the newline: the
    characters [escapeLabel] takes out of a text, the double quote apart. *)
Definition stripped_chars : list ascii :=
  ["<"; ">"; "{"; "}"; "|"; Mermaid.newline]%char.

(** The text holds none of them. *)
Definition stripped (text : string) : Prop :=
  forall c, In c (chars text) -> ~ In c stripped_chars.

(** The text of a node holds none of the six characters, unless it is the
    fixed text of an empty object; the label of an edge is one of the two
    fixed ones. *)
Definition statement_stripped (st : Mermaid.Statement) : Prop :=
  match st with
  | Mermaid.NodeDecl _ _ text => stripped text \/ text = "{}"
  | Mermaid.Edge _ (Some label) _ =>
      label = Mermaid.yes_label \/ label = Mermaid.no_label
  | _ => True
  end.

Definition texts_stripped (e : Mermaid.Emitter) : Prop :=
  Forall statement_stripped (Mermaid.lines e) /\
  Forall statement_stripped (Mermaid.connections e).

Context {number : Type} {host : Host number}.
#[local] Abbreviation jsval := (jsval number).

(** The three entry points of the emitter keep the texts stripped. *)
Definition node_stripped (fuel : nat) : Prop :=
  forall (rule : jsval) parentId includeValues e r,
    texts_stripped e ->
    Mermaid.processNode fuel rule parentId includeValues e = Returns r ->
    texts_stripped (snd r).

Definition if_stripped (fuel : nat) : Prop :=
  forall (operands : jsval) parentId includeValues e r,
    texts_stripped e ->
    Mermaid.processIfNode fuel operands parentId includeValues e = Returns r ->
    texts_stripped (snd r).

Definition result_stripped (fuel : nat) : Prop :=
  forall (rule : jsval) includeValues e r,
    texts_stripped e ->
    Mermaid.processResultNode fuel rule includeValues e = Returns r ->
    texts_stripped (snd r).

End TextVocabulary.

(** ** Vocabulary of the statements about the order of toggles *)

(** The first position of an id in a list of ids, when it occurs. *)
Fixpoint position (id : string) (ids : list string) : option nat :=
  match ids with
  | [] => None
  | x :: rest =>
      if (x =? id)%string then Some 0%nat else option_map S (position id rest)
  end.

(** The flags after toggling [id]: the flag at the first position of the
    id flipped, or the flags as they were when the id does not occur. *)
Definition toggled_flags (id : string) (ids : list string)
    (flags : list bool) : list bool :=
  match position id ids with
  | Some k => update_at k negb flags
  | None => flags
  end.

(** A chained conditional with its final else:
    [{"if": [true, "a", false, "b", "c"]}]. *)
Definition rule_chain_with_else : jsval Z :=
  JObject [("if", JArray [JBool true; JString "a"; JBool false;
                          JString "b"; JString "c"])].


(** * Properties *)

(** ** Strings *)

Lemma nat_toString_nonempty (n : nat) : nat_toString n <> "".
Proof.
  unfold nat_toString, NilZero.string_of_uint.
  destruct (Nat.to_uint n); simpl; discriminate.
Qed.

Lemma Z_toString_nonempty (z : Z) : Z_toString z <> "".
Proof.
  unfold Z_toString, NilZero.string_of_int, NilZero.string_of_uint.
  destruct (Z.to_int z) as [d|d]; destruct d; simpl; discriminate.
Qed.

(** ** The label formatter *)

Lemma append_empty (a b : string) : a ++ b = "" -> a = "" /\ b = "".
Proof. destruct a; simpl; [auto|discriminate]. Qed.

Lemma join_empty (sep : string) (parts : list string) :
  sep <> "" ->
  join sep parts = "" -> parts = [] \/ parts = [""].
Proof.
  intros Hsep. unfold join. destruct parts as [|x [|y rest]]; simpl.
  - auto.
  - intros ->. auto.
  - intros H. apply append_empty in H as [_ H].
    apply append_empty in H as [H _]. contradiction.
Qed.

(** The steps of a computation that returned. *)
Ltac returned_steps H :=
  repeat match type of H with
         | and_then ?r _ = Some _ =>
             let E := fresh "E" in
             destruct r eqn:E; [cbn [and_then] in H|discriminate H]
         end.

Lemma all_some_values {A} (rs : list (option A)) (values : list A) :
  all_some rs = Some values -> rs = map Some values.
Proof.
  revert values. induction rs as [|r rs IH]; intros values H.
  - injection H as <-. reflexivity.
  - cbn [all_some] in H. returned_steps H. injection H as <-.
    simpl. f_equal. apply IH. reflexivity.
Qed.

Lemma all_some_map {A} (values : list A) : all_some (map Some values) = Some values.
Proof.
  induction values as [|a values IH]; [reflexivity|].
  cbn [map all_some and_then]. rewrite IH. reflexivity.
Qed.

Section LabelProperties.

Context {number : Type} {host : Host number}.

Variable label : jsval number -> option string.

Lemma label_by_name_nonempty operator : label_by_name operator <> "".
Proof.
  unfold label_by_name. destruct (includes _ _).
  - unfold opNames.
    repeat match goal with |- context [if ?b then _ else _] => destruct b end;
      discriminate.
  - intros H. apply append_empty in H as [_ H]. discriminate.
Qed.

Lemma joined_empty (sep : string) (ops : list (jsval number)) :
  sep <> "" ->
  joined label sep ops = Some "" ->
  map label ops = [] \/ map label ops = [Some ""].
Proof.
  intros Hsep H. unfold joined in H. returned_steps H.
  injection H as H. apply all_some_values in E. rewrite E.
  apply join_empty in H; [|exact Hsep].
  destruct H as [-> | ->]; auto.
Qed.

Lemma label_arithmetic_empty operator operands :
  label_arithmetic label operator operands = Some "" ->
  joins_labels label arithmetic_operators operator operands.
Proof.
  unfold label_arithmetic.
  destruct (includes arithmetic_operators operator) eqn:Hop;
    destruct operands as [ | | ? | ? | ? | ops | ? ];
    try (intros H; injection H as H;
         apply label_by_name_nonempty in H; contradiction).
  intros H. apply joined_empty in H; [|discriminate].
  exists ops. auto.
Qed.

Lemma label_membership_empty operator operands :
  label_membership label operator operands = Some "" ->
  joins_labels label arithmetic_operators operator operands.
Proof.
  unfold label_membership.
  destruct (operator =? "in")%string;
    [destruct operands as [ | | ? | ? | ? | [|needle [|haystack ?]] | ? ]|];
    try apply label_arithmetic_empty.
  intros H. returned_steps H. injection H as H.
  apply append_empty in H as [_ H]. discriminate.
Qed.

Lemma label_negation_empty operator operands :
  label_negation label operator operands = Some "" ->
  joins_labels label arithmetic_operators operator operands.
Proof.
  unfold label_negation.
  destruct ((operator =? "!") || (operator =? "!!"))%bool;
    [|apply label_membership_empty].
  intros H. returned_steps H. injection H as H.
  destruct (operator =? "!")%string; discriminate.
Qed.

Lemma joins_labels_more operators operators' operator operands :
  incl operators operators' ->
  joins_labels label operators operator operands ->
  joins_labels label operators' operator operands.
Proof.
  intros Hincl (ops & Hops & Hop & Hmap). exists ops.
  split; [exact Hops|]. split; [|exact Hmap].
  unfold includes in *. apply existsb_exists in Hop as (x & Hx & Heq).
  apply existsb_exists. exists x. auto.
Qed.

Lemma label_logical_empty operator operands :
  label_logical label operator operands = Some "" ->
  joins_labels label joining_operators operator operands.
Proof.
  assert (Hrest : incl arithmetic_operators joining_operators).
  { intros x Hx. unfold joining_operators. apply in_or_app. auto. }
  unfold label_logical.
  destruct operands as [ | | ? | ? | ? | ops | ? ];
    try (intros H; apply label_negation_empty in H;
         exact (joins_labels_more _ _ _ _ Hrest H)).
  destruct (String.eqb_spec operator "and") as [->|_].
  { intros H. apply joined_empty in H; [|discriminate]. exists ops. auto. }
  destruct (String.eqb_spec operator "or") as [->|_].
  { intros H. apply joined_empty in H; [|discriminate]. exists ops. auto. }
  intros H; apply label_negation_empty in H.
  exact (joins_labels_more _ _ _ _ Hrest H).
Qed.

Lemma label_comparison_empty operator operands :
  label_comparison label operator operands = Some "" ->
  joins_labels label joining_operators operator operands.
Proof.
  unfold label_comparison.
  destruct (includes comparison_operators operator);
    [destruct operands as [ | | ? | ? | ? | [|l [|r ?]] | ? ]|];
    try apply label_logical_empty.
  intros H. returned_steps H. injection H as H.
  apply append_empty in H as [_ H]. discriminate.
Qed.

(** An operation whose label is empty joins the labels of its operands. *)
Lemma label_operation_empty operator operands :
  label_operation label operator operands = Some "" ->
  joins_labels label joining_operators operator operands.
Proof.
  unfold label_operation.
  destruct (operator =? "var")%string; [|apply label_comparison_empty].
  destruct operands as [ | | ? | ? | s | ops | ? ]; try discriminate.
  - destruct (s =? "")%string; discriminate.
  - destruct (index ops 0) as [ | | [|] | ? | [|? ?] | ? | ? ];
      try discriminate;
      intros H; returned_steps H; discriminate.
Qed.

(** A joining operator over no operand, or over one operand whose label is
    empty, gives the empty label. *)
Lemma label_operation_joins operator ops :
  includes joining_operators operator = true ->
  map label ops = [] \/ map label ops = [Some ""] ->
  label_operation label operator (JArray ops) = Some "".
Proof.
  intros Hop Hmap. unfold includes in Hop.
  apply existsb_exists in Hop as (x & Hx & Heq).
  apply String.eqb_eq in Heq. subst x.
  simpl in Hx.
  repeat (destruct Hx as [<-|Hx];
          [cbn; unfold joined; destruct Hmap as [-> | ->]; reflexivity|]).
  contradiction.
Qed.

End LabelProperties.

Section LabelTheorem.
Context {number : Type} {host : Host number}.
Hypothesis Number_toString_nonempty :
  forall n : number, Number_toString n <> "".

Lemma joins_nothing_object operator (operands : jsval number) rest :
  joins_nothing (JObject ((operator, operands) :: rest)) = true <->
  exists ops, operands = JArray ops /\
    includes joining_operators operator = true /\
    match ops with [] => True | [only] => joins_nothing only = true | _ => False end.
Proof.
  cbn [joins_nothing]. destruct operands as [ | | ? | ? | ? | ops | ? ];
    try (split; [discriminate|intros (ops & H & _); discriminate]).
  assert (Hinc : includes joining_operators operator
            = includes ["and"; "or"] operator || includes arithmetic_operators operator).
  { unfold includes, joining_operators. apply existsb_app. }
  rewrite andb_true_iff, <- Hinc. split.
  - intros [Hop Hops]. exists ops. repeat split; auto.
    destruct ops as [|x [|? ?]]; auto; discriminate.
  - intros (ops' & Heq & Hop & Hops). injection Heq as <-. split; auto.
    destruct ops as [|x [|? ?]]; auto; contradiction.
Qed.

Lemma buildLabel_empty_strong (rule : jsval number) :
  label_law rule /\
  match rule with
  | JArray items => Forall label_law items
  | _ => True
  end.
Proof.
  induction rule as [ | | b | n | s | items IH | entries IH]
    using jsval_nested_ind.
  1-5: split; [intros compact|exact I]; simpl.
  - split; discriminate.
  - split; discriminate.
  - destruct b; split; discriminate.
  - split; [intros H; injection H as H;
            apply Number_toString_nonempty in H; contradiction
           |discriminate].
  - split; discriminate.
  - split.
    + intros compact. simpl. destruct (compact || _);
        (split; [|discriminate]); [discriminate|].
      intros H. returned_steps H. discriminate.
    + eapply Forall_impl; [|exact IH]. intros a [Ha _]. exact Ha.
  - split; [intros compact|exact I].
    destruct entries as [|[operator operands] rest];
      [simpl; split; discriminate|].
    apply Forall_inv in IH. simpl in IH. destruct IH as [_ IHs].
    rewrite joins_nothing_object. cbn [buildLabel]. split.
    + intros H. apply label_operation_empty in H.
      destruct H as (ops & -> & Hop & Hmap). exists ops.
      repeat split; auto.
      destruct ops as [|x [|? ?]]; auto.
      * destruct Hmap as [Hmap|Hmap]; [discriminate|].
        injection Hmap as Hx. apply Forall_inv in IHs. apply (IHs true). exact Hx.
      * destruct Hmap; discriminate.
    + intros (ops & -> & Hop & Hops).
      apply label_operation_joins; [exact Hop|].
      destruct ops as [|x [|? ?]]; auto; [|contradiction].
      right. simpl. f_equal. apply Forall_inv in IHs. apply (IHs true). exact Hops.
Qed.

(** X26.  The rules with an empty label.  Where the number printer never
    prints the empty string, [buildLabel] returns the empty string exactly
    on the rules [joins_nothing] describes: an [and], [or] or arithmetic
    operation whose operand list is empty, or holds one operand whose own
    label is empty.  On every other rule it returns a label that is not
    empty, or throws. *)
Theorem buildLabel_empty_iff_joins_nothing :
  forall (rule : jsval number) (compact : bool),
    buildLabel rule compact = Some "" <-> joins_nothing rule = true.
Proof. intros rule. apply buildLabel_empty_strong. Qed.

End LabelTheorem.

(** C3, the failing input: the label of [{"and": []}] is the empty string.
    [buildLabel] joins the labels of the operands of an [and] and has no
    fallback for an empty list, as it has for the empty object ([{}]) and
    for an operator it does not know ([op(...)]). *)
Theorem buildLabel_empty_and : buildLabel rule_empty_and false = Some "".
Proof. reflexivity. Qed.

(** [buildLabel] can throw as well: on [{"var": [{"toString": 1}]}] the
    template literal that prints the path throws a [TypeError]. *)
Lemma buildLabel_throws :
  buildLabel rule_var_unprintable false = None.
Proof. reflexivity. Qed.

(** ** The tree builder *)

Section BuilderProperties.

Context {number : Type} {host : Host number}.

Lemma createChainedIfNode_unfold (fuel : nat) :
  createChainedIfNode (S fuel) =
  createChainedIfNode_body (createChainedIfNode fuel)
    (createResultNode (host := host) fuel).
Proof. reflexivity. Qed.

Lemma createResultNode_undefined (fuel : nat) parentId depth path b counter :
  createResultNode (S fuel) (@JUndefined number) parentId depth path b counter
  = Returns (result_leaf ("node-" ++ nat_toString (S counter)) TValue
               "undefined" JUndefined parentId depth path b, S counter).
Proof. reflexivity. Qed.

Lemma createResultNode_string (fuel : nat) str parentId depth path b counter :
  createResultNode (S fuel) (@JString number str) parentId depth path b counter
  = Returns (result_leaf ("node-" ++ nat_toString (S counter)) TValue
               (quoted str) (JString str) parentId depth path b, S counter).
Proof. reflexivity. Qed.

(** On an empty operand list [createChainedIfNode] calls itself on the empty
    list again: no amount of fuel lets it return. *)
Lemma createChainedIfNode_nil (fuel : nat) :
  forall parentId depth path (rule : jsval number) counter,
    createChainedIfNode fuel [] parentId depth path rule counter = OutOfFuel.
Proof.
  induction fuel as [|fuel IH]; intros; [reflexivity|].
  rewrite createChainedIfNode_unfold.
  unfold createChainedIfNode_body, bind, generateNodeId.
  cbn [index nth buildLabel completes ret].
  destruct fuel as [|fuel]; [reflexivity|].
  rewrite createResultNode_undefined.
  cbn [skipn length Nat.eqb]. rewrite IH. reflexivity.
Qed.

(** The same for every operand list of even length: the decomposition
    removes two operands at a time and never meets a list of length one. *)
Lemma createChainedIfNode_even (fuel : nat) :
  forall ops parentId depth path (rule : jsval number) counter r,
    Nat.even (length ops) = true ->
    createChainedIfNode fuel ops parentId depth path rule counter <> Returns r.
Proof.
  induction fuel as [|fuel IH];
    intros ops parentId depth path rule counter r Heven; [discriminate|].
  rewrite createChainedIfNode_unfold.
  unfold createChainedIfNode_body, bind, generateNodeId.
  destruct (buildLabel (index ops 0) false) as [conditionLabel|];
    [cbn [completes ret]|discriminate].
  destruct (createResultNode fuel _ _ _ _ _ _) as [[trueNode c1]| |];
    try discriminate.
  assert (Hrest : Nat.even (length (skipn 2 ops)) = true).
  { destruct ops as [|a [|b rest]]; try discriminate; auto. }
  destruct (length (skipn 2 ops) =? 1)%nat eqn:Hone.
  - apply Nat.eqb_eq in Hone. rewrite Hone in Hrest. discriminate.
  - destruct (createChainedIfNode fuel _ _ _ _ _ _) as [[e c2]| |] eqn:Hrec;
      try discriminate.
    exfalso. eapply IH; eauto.
Qed.

(** C6.  A call of [parseRuleToTree] at depth 0 does not depend on the value
    the counter [nodeIdCounter] had before it: whatever earlier calls left
    there, the outcome is the same, the whole tree with its ids, shape,
    labels and kinds, and the counter left behind.  So the second of two
    successive calls on one rule returns the tree the first returned. *)
Theorem parseRuleToTree_reproducible :
  forall (fuel : nat) (rule : jsval number) (counter counter' : nat),
    parseRuleToTree fuel rule None 0 [] counter
    = parseRuleToTree fuel rule None 0 [] counter'.
Proof. intros fuel rule counter counter'. destruct fuel; reflexivity. Qed.

End BuilderProperties.

Lemma chain_tail_diverges (fuel : nat) parentId depth path rule counter :
  createChainedIfNode fuel [JBool false; JString "b"] parentId depth path rule
    counter
  = @OutOfFuel (TreeNode Z * nat).
Proof.
  destruct fuel as [|fuel]; [reflexivity|].
  rewrite createChainedIfNode_unfold.
  unfold createChainedIfNode_body, bind, generateNodeId.
  cbn [index nth buildLabel completes ret].
  destruct fuel as [|fuel]; [reflexivity|].
  rewrite createResultNode_string.
  cbn [skipn length Nat.eqb]. rewrite createChainedIfNode_nil. reflexivity.
Qed.

Lemma chain_diverges (fuel : nat) parentId depth path rule counter :
  createChainedIfNode fuel [JBool true; JString "a"; JBool false; JString "b"]
    parentId depth path rule counter
  = @OutOfFuel (TreeNode Z * nat).
Proof.
  destruct fuel as [|fuel]; [reflexivity|].
  rewrite createChainedIfNode_unfold.
  unfold createChainedIfNode_body, bind, generateNodeId.
  cbn [index nth buildLabel completes ret].
  destruct fuel as [|fuel]; [reflexivity|].
  rewrite createResultNode_string.
  cbn [skipn length Nat.eqb]. rewrite chain_tail_diverges. reflexivity.
Qed.

(** C1, the failing input.  On [{"if": [true, "a", false, "b"]}] the tree
    builder does not return, whatever the fuel: [createChainedIfNode] is left
    with no operand after the second pair and recurses on the empty list for
    ever (a stack overflow in the source). *)
Theorem parseRuleToTree_chain_without_else_diverges :
  forall fuel counter : nat,
    parseRuleToTree fuel rule_chain_without_else None 0 [] counter = OutOfFuel.
Proof.
  intros fuel counter.
  destruct fuel as [|[|fuel]]; try reflexivity.
  change (parseRuleToTree (S (S fuel)) rule_chain_without_else None 0 []
            counter)
    with (createChainedIfNode fuel
            [JBool true; JString "a"; JBool false; JString "b"]
            None 0 [] rule_chain_without_else 0).
  apply chain_diverges.
Qed.

(** C2, as the code has it.  Building [{">=": [{"var": "age"}, 18]}] returns
    a single [operator] node with no child, both operands staying in the
    label, and that label is ["age" >= 18], the variable in double quotes. *)
Theorem parseRuleToTree_age_at_least_18 :
  forall fuel counter : nat,
    parseRuleToTree (S fuel) rule_age_at_least_18 None 0 [] counter
    = Returns
        (Tree {| node_id := "node-1"; node_type := TOperator;
                 node_label := label_age_at_least_18;
                 node_value := rule_age_at_least_18;
                 node_operator := Some ">=";
                 node_children := [];
                 node_parent := None; node_depth := 0; node_path := [];
                 node_x := None; node_y := None; node_width := None;
                 node_height := None; node_subtreeWidth := None;
                 node_expanded := true; node_highlighted := false;
                 node_selected := false |}, 1).
Proof. intros fuel counter. reflexivity. Qed.

(** C2, counterexample: the label of the node built for
    [{">=": [{"var": "age"}, 18]}] is not [$age >= 18]. *)
Lemma parseRuleToTree_age_label_not_dollar :
  exists t counter',
    parseRuleToTree 1 rule_age_at_least_18 None 0 [] 0 = Returns (t, counter')
    /\ node_label t <> "$age >= 18".
Proof.
  eexists; eexists; split; [vm_compute; reflexivity|]. simpl. discriminate.
Qed.

(** ** The flowchart emitter *)

Lemma chars_append (a b : string) : chars (a ++ b) = (chars a ++ chars b)%list.
Proof. induction a as [|c a IH]; simpl; [reflexivity|]. f_equal. exact IH. Qed.

Lemma replace_char_absent (c : ascii) (by_ s : string) :
  ~ In c (chars by_) -> ~ In c (chars (Mermaid.replace_char c by_ s)).
Proof.
  intros Hby. induction s as [|a s IH]; simpl; [tauto|].
  destruct (Ascii.eqb_spec a c) as [->|Hne].
  - rewrite chars_append, in_app_iff. tauto.
  - simpl. intros [H|H]; [congruence|tauto].
Qed.

Lemma replace_char_keeps (d c : ascii) (by_ s : string) :
  In d (chars (Mermaid.replace_char c by_ s)) ->
  In d (chars s) \/ In d (chars by_).
Proof.
  induction s as [|a s IH]; simpl; [tauto|].
  destruct (Ascii.eqb a c).
  - rewrite chars_append, in_app_iff. tauto.
  - simpl. tauto.
Qed.

Lemma remove_chars_keeps (d : ascii) (cs : list ascii) (s : string) :
  In d (chars (Mermaid.remove_chars cs s)) -> In d (chars s) /\ ~ In d cs.
Proof.
  induction s as [|a s IH]; simpl; [tauto|].
  destruct (existsb (Ascii.eqb a) cs) eqn:Hin.
  - tauto.
  - simpl. intros [->|H]; [|tauto]. split; [auto|].
    intros Hd. assert (existsb (Ascii.eqb d) cs = true) as Ht.
    { apply existsb_exists. exists d. split; [exact Hd|apply Ascii.eqb_refl]. }
    congruence.
Qed.

Lemma substring_keeps (d : ascii) (n : nat) (s : string) :
  In d (chars (substring 0 n s)) -> In d (chars s).
Proof.
  revert s. induction n as [|n IH]; intros [|a s]; simpl; try tauto.
  intros [H|H]; [auto|right; apply IH; exact H].
Qed.

Lemma substring_length_le (n : nat) (s : string) :
  String.length (substring 0 n s) <= n.
Proof.
  revert s. induction n as [|n IH]; intros [|a s]; simpl; try lia.
  specialize (IH s). lia.
Qed.

Lemma chars_replace_char (c : ascii) (by_ s : string) :
  chars (Mermaid.replace_char c by_ s) =
  flat_map (fun a => if Ascii.eqb a c then chars by_ else [a]) (chars s).
Proof.
  induction s as [|a s IH]; simpl; [reflexivity|].
  destruct (Ascii.eqb a c); [rewrite chars_append|simpl]; rewrite IH;
    reflexivity.
Qed.

Lemma chars_remove_chars (cs : list ascii) (s : string) :
  chars (Mermaid.remove_chars cs s) =
  flat_map (fun a => if existsb (Ascii.eqb a) cs then [] else [a]) (chars s).
Proof.
  induction s as [|a s IH]; simpl; [reflexivity|].
  destruct (existsb (Ascii.eqb a) cs); simpl; rewrite IH; reflexivity.
Qed.

Lemma chars_substring (n : nat) (s : string) :
  chars (substring 0 n s) = firstn n (chars s).
Proof.
  revert s. induction n as [|n IH]; intros [|a s]; simpl; try reflexivity.
  f_equal. apply IH.
Qed.

Lemma flat_map_flat_map {A B C} (f : A -> list B) (g : B -> list C)
    (xs : list A) :
  flat_map g (flat_map f xs) = flat_map (fun a => flat_map g (f a)) xs.
Proof.
  induction xs as [|x xs IH]; simpl; [reflexivity|].
  rewrite flat_map_app, IH. reflexivity.
Qed.

(** The four replacements of [escapeLabel], one after the other, do to each
    character what [normalized] says; the result is cut after 50. *)
Lemma escapeLabel_chars (text : string) :
  chars (Mermaid.escapeLabel text) =
  firstn 50 (flat_map normalized (chars text)).
Proof.
  unfold Mermaid.escapeLabel, Mermaid.slice0.
  rewrite chars_substring. f_equal.
  rewrite !chars_replace_char, chars_remove_chars, chars_replace_char.
  rewrite !flat_map_flat_map. apply flat_map_ext. intros c. unfold normalized.
  destruct (Ascii.eqb_spec c Mermaid.dquote_char) as [->|Hdq]; [reflexivity|].
  cbn [flat_map app].
  destruct (existsb (Ascii.eqb c) ["<"; ">"; "{"; "}"]%char) eqn:Hbr;
    [reflexivity|].
  cbn [flat_map app].
  destruct (Ascii.eqb_spec c Mermaid.newline) as [->|Hnl]; [reflexivity|].
  cbn [flat_map app].
  destruct (Ascii.eqb c "|"%char); reflexivity.
Qed.

(** X25.  For every input string the result of [escapeLabel] has at most 50
    characters and holds no double quote, no angle bracket, no curly brace,
    no pipe and no newline; it is the first 50 characters of the input with
    every quote normalized to an apostrophe, every bracket removed, every
    newline turned into a space and every pipe into a slash. *)
Theorem escapeLabel_characters :
  forall text : string,
    String.length (Mermaid.escapeLabel text) <= 50 /\
    (forall c, In c unsafe_chars -> ~ In c (chars (Mermaid.escapeLabel text))) /\
    chars (Mermaid.escapeLabel text) =
      firstn 50 (flat_map normalized (chars text)).
Proof.
  intros text. split; [apply substring_length_le|].
  split; [|apply escapeLabel_chars].
  intros c Hc Hin. unfold Mermaid.escapeLabel, Mermaid.slice0 in Hin.
  apply substring_keeps in Hin.
  assert (Hpipe : c <> "|"%char).
  { intros ->. revert Hin. apply replace_char_absent. simpl.
    intros [H|[]]; discriminate. }
  apply replace_char_keeps in Hin.
  destruct Hin as [Hin|Hin];
    [|simpl in Hin; destruct Hin as [<-|[]];
      simpl in Hc; intuition discriminate].
  assert (Hnl : c <> Mermaid.newline).
  { intros ->. revert Hin. apply replace_char_absent. simpl.
    intros [H|[]]; discriminate. }
  apply replace_char_keeps in Hin.
  destruct Hin as [Hin|Hin];
    [|simpl in Hin; destruct Hin as [<-|[]];
      simpl in Hc; intuition discriminate].
  apply remove_chars_keeps in Hin. destruct Hin as [Hin Hbr].
  assert (Hdq : c <> Mermaid.dquote_char).
  { intros ->. revert Hin. apply replace_char_absent. simpl.
    intros [H|[]]; discriminate. }
  simpl in Hc, Hbr. intuition congruence.
Qed.

(** C8, the failing input.  The rule ["a])"] is declared on the line
    [n1(['a])'])].  [escapeLabel] leaves square brackets, parentheses and
    slashes alone, [processNode] writes the text between the delimiters of
    the stadium shape without quotes, and so the text closes the shape after
    [a]: the line is not a well-formed declaration.  [processIfNode] and
    [processResultNode] write their texts in double quotes, where the same
    characters are harmless. *)
Theorem toMermaidFlowchart_bracket_text :
  forall fuel : nat,
    Mermaid.toMermaidFlowchart (S fuel) rule_bracket_text Mermaid.no_options
    = Returns document_bracket_text
    /\ Mermaid.flowchart_statements (S fuel) rule_bracket_text
         Mermaid.no_options
       = Returns (Mermaid.header Mermaid.TD ++
                  [ Mermaid.NodeDecl "n1" Mermaid.Terminator "'a])'";
                    Mermaid.Text EmptyString ])%list
    /\ Mermaid.escapeLabel (quoted "a])") = "'a])'"
    /\ closes_early Mermaid.Terminator "'a])'" = true.
Proof. intros fuel. repeat split. Qed.

(** C9, as the code has it.  Emitting
    [{"if": [{">": [{"var": "age"}, 18]}, "adult", "minor"]}] returns the
    text [document_adult_or_minor], the lines of the statements
    [statements_adult_or_minor].  It declares exactly one diamond, the
    decision node [n1]; its edges are exactly two, both leaving [n1],
    labelled [✓ Yes] and [✗ No]; and it declares exactly two terminators,
    the result nodes [n2] and [n3] of class [result], which read ['adult']
    and ['minor']: a string result is shown between apostrophes. *)
Theorem toMermaidFlowchart_adult_or_minor :
  forall fuel : nat,
    Mermaid.toMermaidFlowchart (3 + fuel) rule_adult_or_minor
      Mermaid.no_options
    = Returns document_adult_or_minor
    /\ Mermaid.flowchart_statements (3 + fuel) rule_adult_or_minor
         Mermaid.no_options
       = Returns statements_adult_or_minor
    /\ filter (Mermaid.declares Mermaid.Diamond) statements_adult_or_minor
       = [Mermaid.NodeDecl "n1" Mermaid.Diamond (quoted "age  18")]
    /\ filter Mermaid.is_edge statements_adult_or_minor
       = [Mermaid.Edge "n1" (Some (quoted "✓ Yes")) "n2";
          Mermaid.Edge "n1" (Some (quoted "✗ No")) "n3"]
    /\ filter (Mermaid.is_edge_from "n1") statements_adult_or_minor
       = filter Mermaid.is_edge statements_adult_or_minor
    /\ filter (Mermaid.declares Mermaid.Terminator) statements_adult_or_minor
       = [Mermaid.NodeDecl "n2" Mermaid.Terminator (quoted "'adult'");
          Mermaid.NodeDecl "n3" Mermaid.Terminator (quoted "'minor'")]
    /\ In (Mermaid.ClassOf "n2" "result") statements_adult_or_minor
    /\ In (Mermaid.ClassOf "n3" "result") statements_adult_or_minor.
Proof.
  intros fuel.
  split; [reflexivity|]. split; [reflexivity|].
  repeat split; try reflexivity; simpl; tauto.
Qed.

(** C9, counterexample: in the document of the rule no terminator reads
    [adult] or [minor], with double quotes or without: the two that are
    declared read ['adult'] and ['minor']. *)
Lemma toMermaidFlowchart_adult_in_apostrophes :
  Mermaid.toMermaidFlowchart 3 rule_adult_or_minor Mermaid.no_options
  = Returns document_adult_or_minor
  /\ exists statements,
       Mermaid.flowchart_statements 3 rule_adult_or_minor Mermaid.no_options
       = Returns statements /\
       forall id text,
         In (Mermaid.NodeDecl id Mermaid.Terminator text) statements ->
         ~ In text ["adult"; quoted "adult"; "minor"; quoted "minor"].
Proof.
  split; [reflexivity|].
  exists statements_adult_or_minor. split; [reflexivity|].
  intros id text Hin Htext.
  unfold statements_adult_or_minor, Mermaid.header in Hin.
  simpl in Hin, Htext.
  repeat (destruct Hin as [Hin|Hin]; [try discriminate|]);
    try contradiction;
    injection Hin as <- <-;
    repeat (destruct Htext as [Htext|Htext]; [discriminate|]);
    contradiction.
Qed.

(** ** The layout engine *)

Local Open Scope Q_scope.

Section LayoutProperties.

Context {number : Type}.
#[local] Abbreviation TreeNode := (TreeNode number).

Lemma number_or_pos (v d : Q) : 0 < v -> number_or (Some v) d = v.
Proof.
  intros Hv. unfold number_or. destruct (Qeq_bool v 0) eqn:E; [|reflexivity].
  apply Qeq_bool_eq in E. lra.
Qed.

Lemma number_or_zero (v : Q) : number_or (Some v) 0 == v.
Proof.
  unfold number_or. destruct (Qeq_bool v 0) eqn:E; [|reflexivity].
  apply Qeq_bool_eq in E. lra.
Qed.

Lemma calculateNodeWidth_pos (label : string) : 0 < calculateNodeWidth label.
Proof.
  unfold calculateNodeWidth.
  apply Q.min_glb_lt; [|reflexivity].
  eapply Qlt_le_trans; [|apply Q.le_max_r]. reflexivity.
Qed.

Lemma assignNodeWidths_sized (t : TreeNode) : Sized (assignNodeWidths t).
Proof.
  induction t as [n IH] using TreeNode_nested_ind. simpl. split.
  - eexists; split; [reflexivity|apply calculateNodeWidth_pos].
  - induction IH as [|c cs Hc _ IHcs]; simpl; auto.
Qed.

Lemma row_end_shift cfg (cs : list TreeNode) : forall X, row_end cfg cs X == X + row_end cfg cs 0.
Proof.
  induction cs as [|c cs IH]; intros X; simpl; [lra|].
  rewrite IH. rewrite (IH (0 + _ + _)). lra.
Qed.

Section Passes.

Variable cfg : TreeConfig.

Lemma childWidth_measured (t' : TreeNode) sw : measured_as cfg t' sw -> childWidth cfg t' = sw.
Proof.
  intros (_ & Hsw & Hpos). unfold childWidth. rewrite Hsw.
  apply number_or_pos. exact Hpos.
Qed.

Lemma reduce_widths_measured (cs : list TreeNode) :
  Forall (fun c => Sized c ->
                   measured_as cfg (fst (calculateSubtreeWidths c cfg))
                               (snd (calculateSubtreeWidths c cfg))) cs ->
  fold_right (fun c rest => Sized c /\ rest) True cs ->
  forall sum,
    let out := reduce_widths (fun c => calculateSubtreeWidths c cfg)
                 (cfg_horizontalSpacing cfg) cs sum in
    fold_right (fun c rest => Measured cfg c /\ rest) True (fst out) /\
    row_end cfg (fst out) 0 == snd out - sum /\
    length (fst out) = length cs.
Proof.
  induction 1 as [|c cs Hc _ IH]; intros Hsized sum; simpl.
  - repeat split; auto. lra.
  - destruct Hsized as [Hs Hrest]. specialize (Hc Hs).
    destruct (calculateSubtreeWidths c cfg) as [c' w]. simpl in Hc.
    specialize (IH Hrest (sum + w + cfg_horizontalSpacing cfg)).
    destruct (reduce_widths _ _ cs _) as [rest' total]. simpl in *.
    destruct IH as (Hm & Hrow & Hlen).
    repeat split; auto.
    + apply Hc.
    + rewrite row_end_shift, Hrow. rewrite (childWidth_measured _ _ Hc). lra.
Qed.

Hypothesis spacing_nonneg : 0 <= cfg_horizontalSpacing cfg.

Lemma calculateSubtreeWidths_measured (t : TreeNode) :
  Sized t ->
  measured_as cfg (fst (calculateSubtreeWidths t cfg))
              (snd (calculateSubtreeWidths t cfg)).
Proof.
  induction t as [n IH] using TreeNode_nested_ind.
  intros [(w & Hw & Hpos) Hchildren]. cbn [calculateSubtreeWidths].
  rewrite Hw, (number_or_pos _ _ Hpos).
  destruct (negb (node_expanded n) || (length (node_children n) =? 0)%nat)
    eqn:Hleaf.
  - simpl. split; [|split; [reflexivity|exact Hpos]].
    exists w, w. simpl.
    split; [exact Hw|]. split; [reflexivity|]. split; [exact Hpos|].
    split; [lra|]. intros He. rewrite He in Hleaf. simpl in Hleaf.
    apply Nat.eqb_eq in Hleaf.
    destruct (node_children n); [simpl; split; [exact I|lra]|discriminate].
  - pose proof (reduce_widths_measured (node_children n) IH Hchildren
                  (- cfg_horizontalSpacing cfg)) as Hred.
    destruct (reduce_widths _ _ (node_children n) _) as [children total].
    simpl in Hred. destruct Hred as (Hm & Hrow & Hlen). simpl.
    assert (Hmax : w <= Qmax w total) by apply Q.le_max_l.
    split; [|split; [reflexivity|lra]].
    exists w, (Qmax w total). simpl.
    split; [exact Hw|]. split; [reflexivity|]. split; [exact Hpos|].
    split; [exact Hmax|]. intros _. split; [exact Hm|].
    rewrite Hrow. pose proof (Q.le_max_r w total). lra.
Qed.

(** The position pass leaves widths and flags as they are. *)
Lemma assignVerticalPositions_fields (t : TreeNode) x y :
  node_width (assignVerticalPositions t x y cfg) = node_width t /\
  node_subtreeWidth (assignVerticalPositions t x y cfg) = node_subtreeWidth t /\
  node_expanded (assignVerticalPositions t x y cfg) = node_expanded t.
Proof.
  destruct t as [n]. cbn [assignVerticalPositions].
  destruct (negb (node_expanded n) || _); simpl; auto.
Qed.

Lemma childWidth_placed (t : TreeNode) x y :
  childWidth cfg (assignVerticalPositions t x y cfg) = childWidth cfg t.
Proof.
  unfold childWidth.
  destruct (assignVerticalPositions_fields t x y) as (-> & -> & _).
  reflexivity.
Qed.

Lemma place_children_row (cs : list TreeNode) (childY : Q) :
  Forall (fun c => forall x y, Measured cfg c ->
                     Placed cfg (assignVerticalPositions c x y cfg) x y) cs ->
  fold_right (fun c rest => Measured cfg c /\ rest) True cs ->
  forall X,
    let row := place_children
                 (fun child childX =>
                    assignVerticalPositions child childX childY cfg)
                 (childWidth cfg) (cfg_horizontalSpacing cfg) cs X in
    placed_row (fun c childX => Placed cfg c childX childY) cfg row X /\
    row_end cfg row X = row_end cfg cs X.
Proof.
  induction 1 as [|c cs Hc _ IH]; intros Hm X; simpl; [auto|].
  destruct Hm as [Hmc Hrest]. rewrite childWidth_placed.
  destruct (IH Hrest (X + childWidth cfg c + cfg_horizontalSpacing cfg))
    as [Hrow Hend].
  split; [split; [apply Hc; exact Hmc|exact Hrow]|exact Hend].
Qed.

Lemma assignVerticalPositions_placed (t : TreeNode) :
  forall x y, Measured cfg t ->
    Placed cfg (assignVerticalPositions t x y cfg) x y.
Proof.
  induction t as [n IH] using TreeNode_nested_ind.
  intros x y (w & sw & Hw & Hsw & Hpos & Hle & Hkids).
  cbn [assignVerticalPositions]. rewrite Hw, Hsw.
  assert (Hswpos : 0 < sw) by lra.
  rewrite (number_or_pos _ _ Hpos), (number_or_pos _ _ Hswpos).
  destruct (negb (node_expanded n) || (length (node_children n) =? 0)%nat)
    eqn:Hleaf.
  - exists w, sw. simpl. repeat (split; [first [assumption|reflexivity]|]).
    intros He. rewrite He in Hleaf. simpl in Hleaf. apply Nat.eqb_eq in Hleaf.
    destruct (node_children n); [simpl; split; [exact I|lra]|discriminate].
  - exists w, sw. simpl. repeat (split; [first [assumption|reflexivity]|]).
    intros He. destruct (Hkids He) as [Hm Hend].
    destruct (place_children_row (node_children n)
                (y + cfg_nodeHeight cfg + cfg_verticalSpacing cfg) IH Hm x)
      as [Hrow Hrowend].
    split; [exact Hrow|]. rewrite Hrowend, row_end_shift. lra.
Qed.


Lemma placed_geometry (t : TreeNode) x y :
  Placed cfg t x y ->
  span_left t == x /\ box_top t == y /\ 0 < box_width t /\
  box_width t <= span_width t /\ childWidth cfg t == span_width t /\
  x <= box_left t /\ box_right t <= x + span_width t.
Proof.
  destruct t as [n]. intros (w & sw & Hw & Hsw & Hpos & Hle & Hx & Hy & _).
  unfold span_left, span_right, box_right, box_left, box_top, box_width,
    span_width, childWidth. simpl.
  rewrite Hw, Hsw, Hx, Hy.
  assert (Hswpos : 0 < sw) by lra.
  rewrite !(number_or_pos w) by exact Hpos.
  rewrite !(number_or_pos sw) by exact Hswpos.
  pose proof (number_or_zero (x + (sw - w) / 2)) as Hx0.
  pose proof (number_or_zero y) as Hy0.
  assert (Hhalf : (sw - w) / 2 + (sw - w) / 2 == sw - w) by field.
  repeat split; lra.
Qed.

Lemma placed_expanded (n : Node number TreeNode) x y :
  Placed cfg (Tree n) x y -> node_expanded n = true ->
  placed_row
    (fun c childX =>
       Placed cfg c childX (y + cfg_nodeHeight cfg + cfg_verticalSpacing cfg))
    cfg (node_children n) x /\
  row_end cfg (node_children n) x
    <= x + span_width (Tree n) + cfg_horizontalSpacing cfg.
Proof.
  intros HP He. pose proof (placed_geometry _ _ _ HP) as Hg.
  destruct HP as (w & sw & Hw & Hsw & Hpos & Hle & Hx & Hy & Hrow).
  destruct (Hrow He) as [Hr Hend]. split; [exact Hr|].
  unfold span_width. simpl. rewrite Hsw.
  rewrite number_or_pos by lra. exact Hend.
Qed.

(** A row of placed children runs left to right: each child starts at or
    after the start of the row, and the row ends after the span of the child
    and one spacing. *)
Lemma placed_row_bounds (Y : Q) (cs : list TreeNode) :
  forall X,
    placed_row (fun c childX => Placed cfg c childX Y) cfg cs X ->
    X <= row_end cfg cs X /\
    forall c, In c cs ->
      exists Xc, Placed cfg c Xc Y /\ X <= Xc /\
        Xc + span_width c + cfg_horizontalSpacing cfg <= row_end cfg cs X.
Proof.
  induction cs as [|c cs IH]; intros X; simpl.
  - intros _. split; [lra|]. intros c [].
  - intros [Hc Hrow].
    destruct (IH _ Hrow) as [Hmono Hin].
    destruct (placed_geometry _ _ _ Hc) as (_ & _ & Hw & Hle & Hcw & _).
    split; [lra|].
    intros d [<-|Hd].
    + exists X. split; [exact Hc|]. split; [lra|]. lra.
    + destruct (Hin d Hd) as (Xd & HPd & Hlo & Hhi).
      exists Xd. split; [exact HPd|]. split; lra.
Qed.

(** Two children of a row, the first before the second: the span of the
    first ends before the span of the second starts. *)
Lemma placed_row_order (Y : Q) (cs : list TreeNode) :
  forall X i j ci cj,
    placed_row (fun c childX => Placed cfg c childX Y) cfg cs X ->
    (i < j)%nat -> nth_error cs i = Some ci -> nth_error cs j = Some cj ->
    exists Xi Xj, Placed cfg ci Xi Y /\ Placed cfg cj Xj Y /\
      Xi + span_width ci + cfg_horizontalSpacing cfg <= Xj.
Proof.
  induction cs as [|c cs IH]; intros X i j ci cj Hrow Hij Hi Hj.
  - destruct i; discriminate.
  - destruct Hrow as [Hc Hrow]. destruct j as [|j]; [lia|].
    simpl in Hj. destruct i as [|i].
    + injection Hi as <-.
      destruct (placed_row_bounds _ _ _ Hrow) as [_ Hin].
      destruct (Hin cj (nth_error_In _ _ Hj)) as (Xj & HPj & Hlo & _).
      destruct (placed_geometry _ _ _ Hc) as (_ & _ & _ & _ & Hcw & _).
      exists X, Xj. split; [exact Hc|]. split; [exact HPj|]. lra.
    + simpl in Hi. apply (IH _ i j ci cj Hrow); [lia|exact Hi|exact Hj].
Qed.

(** Every visible node of a placed tree lies within the span of the tree. *)
Lemma placed_within (t : TreeNode) :
  forall x y, Placed cfg t x y ->
    forall d, In d (collectNodes t) ->
      x <= box_left d /\ box_right d <= x + span_width t.
Proof.
  induction t as [n IH] using TreeNode_nested_ind.
  intros x y HP d Hd. cbn [collectNodes] in Hd.
  destruct Hd as [<-|Hd].
  { destruct (placed_geometry _ _ _ HP) as (_ & _ & _ & _ & _ & Hlo & Hhi).
    split; assumption. }
  destruct (node_expanded n) eqn:He; [|destruct Hd].
  destruct (placed_expanded _ _ _ HP He) as [Hrow Hend].
  apply in_flat_map in Hd as (c & Hc & Hdc).
  destruct (placed_row_bounds _ _ _ Hrow) as [_ Hin].
  destruct (Hin c Hc) as (Xc & HPc & Hlo & Hhi).
  rewrite Forall_forall in IH.
  destruct (IH c Hc Xc _ HPc d Hdc) as [Hdl Hdr].
  split; lra.
Qed.

(** Every visible node of a placed tree is itself placed. *)
Lemma placed_visible (t : TreeNode) :
  forall x y, Placed cfg t x y ->
    forall p, In p (collectNodes t) -> exists x' y', Placed cfg p x' y'.
Proof.
  induction t as [n IH] using TreeNode_nested_ind.
  intros x y HP p Hp. cbn [collectNodes] in Hp.
  destruct Hp as [<-|Hp]; [eauto|].
  destruct (node_expanded n) eqn:He; [|destruct Hp].
  destruct (placed_expanded _ _ _ HP He) as [Hrow _].
  apply in_flat_map in Hp as (c & Hc & Hpc).
  destruct (placed_row_bounds _ _ _ Hrow) as [_ Hin].
  destruct (Hin c Hc) as (Xc & HPc & _).
  rewrite Forall_forall in IH. eapply IH; eauto.
Qed.

Hypothesis step_positive :
  0 < cfg_nodeHeight cfg + cfg_verticalSpacing cfg.

(** The statement of C4 for one placed node. *)
Lemma placed_no_overlap (parent : TreeNode) x y :
  Placed cfg parent x y ->
  (forall d, In d (collectNodes parent) ->
     span_left parent <= box_left d /\ box_right d <= span_right parent) /\
  (node_expanded parent = true ->
     (forall child, In child (node_children parent) ->
        box_top parent < box_top child) /\
     (forall i j ci cj,
        (i < j)%nat ->
        nth_error (node_children parent) i = Some ci ->
        nth_error (node_children parent) j = Some cj ->
        span_right ci <= span_left cj /\
        forall a b, In a (collectNodes ci) -> In b (collectNodes cj) ->
                    box_right a <= box_left b)).
Proof.
  intros HP.
  destruct (placed_geometry _ _ _ HP) as (Hsl & Htop & _).
  split.
  - intros d Hd. destruct (placed_within _ _ _ HP d Hd) as [Hlo Hhi].
    unfold span_right. split; lra.
  - destruct parent as [n]. intros He.
    destruct (placed_expanded _ _ _ HP He) as [Hrow _]. split.
    + intros child Hc.
      destruct (placed_row_bounds _ _ _ Hrow) as [_ Hin].
      destruct (Hin child Hc) as (Xc & HPc & _).
      destruct (placed_geometry _ _ _ HPc) as (_ & Hctop & _).
      lra.
    + intros i j ci cj Hij Hi Hj. simpl in Hi, Hj.
      destruct (placed_row_order _ _ _ _ _ _ _ Hrow Hij Hi Hj)
        as (Xi & Xj & HPi & HPj & Hgap).
      destruct (placed_geometry _ _ _ HPi) as (Hli & _).
      destruct (placed_geometry _ _ _ HPj) as (Hlj & _).
      split; [unfold span_right; lra|].
      intros a b Ha Hb.
      destruct (placed_within _ _ _ HPi a Ha) as [_ Har].
      destruct (placed_within _ _ _ HPj b Hb) as [Hbl _].
      lra.
Qed.


End Passes.

Lemma calculateDimensions_fold (nodes : list TreeNode) :
  forall acc : Q * Q,
    0 <= fst acc -> 0 <= snd acc ->
    let out :=
      fold_left
        (fun (acc : Q * Q) (node : TreeNode) =>
           (Qmax (fst acc)
              (number_or (node_x node) 0 + number_or (node_width node) 180),
            Qmax (snd acc)
              (number_or (node_y node) 0 + number_or (node_height node) 44)))
        nodes acc in
    0 <= fst out /\ 0 <= snd out.
Proof.
  induction nodes as [|n nodes IH]; intros acc Hx Hy; simpl; [auto|].
  apply IH; simpl; (eapply Qle_trans; [|apply Q.le_max_l]); assumption.
Qed.

Lemma calculateDimensions_positive (nodes : list TreeNode) :
  0 < fst (calculateDimensions nodes) /\ 0 < snd (calculateDimensions nodes).
Proof.
  unfold calculateDimensions.
  pose proof (calculateDimensions_fold nodes (0, 0)) as H.
  simpl in H. specialize (H (Qle_refl 0) (Qle_refl 0)).
  destruct (fold_left _ nodes (0, 0)) as [maxX maxY]. simpl in *.
  destruct H as [Hx Hy]. split; lra.
Qed.

Lemma layout_dimensions_positive (root : TreeNode) config :
  0 < layout_width (calculateTreeLayout root config) /\
  0 < layout_height (calculateTreeLayout root config).
Proof.
  unfold calculateTreeLayout.
  pose proof (calculateDimensions_positive
                (collectNodes (positioned root (merge_config config)))) as H.
  destruct (calculateDimensions _) as [w h]. exact H.
Qed.

(** C7, as the code has it.  For every layout result and viewport, the fit
    zoom is the least of three numbers: the viewport width less twice the
    padding over the canvas width, the viewport height less twice the padding
    over the canvas height, and 1.  The canvas dimensions are positive, so
    the two quotients are defined, and the zoom is never above 1. *)
Theorem calculateFitZoom_capped :
  forall (root : TreeNode) (config : PartialTreeConfig)
         (viewportWidth viewportHeight padding : Q),
    let layout := calculateTreeLayout root config in
    let scaleX := (viewportWidth - padding * 2) / layout_width layout in
    let scaleY := (viewportHeight - padding * 2) / layout_height layout in
    let zoom := calculateFitZoom layout viewportWidth viewportHeight padding in
    0 < layout_width layout /\ 0 < layout_height layout /\
    zoom <= 1 /\ zoom <= scaleX /\ zoom <= scaleY /\
    (zoom == scaleX \/ zoom == scaleY \/ zoom == 1).
Proof.
  intros root config vw vh padding layout scaleX scaleY zoom.
  destruct (layout_dimensions_positive root config) as [Hw Hh].
  split; [exact Hw|]. split; [exact Hh|].
  subst zoom. unfold calculateFitZoom. fold layout. fold scaleX. fold scaleY.
  split; [apply Q.le_min_r|].
  split; [eapply Qle_trans; [apply Q.le_min_l|apply Q.le_min_l]|].
  split; [eapply Qle_trans; [apply Q.le_min_l|apply Q.le_min_r]|].
  destruct (Q.min_spec (Qmin scaleX scaleY) 1) as [[_ ->]|[_ ->]];
    [|right; right; reflexivity].
  destruct (Q.min_spec scaleX scaleY) as [[_ ->]|[_ ->]];
    [left|right; left]; reflexivity.
Qed.

Lemma layout_nodes_visible (root : TreeNode) (config : PartialTreeConfig) :
  layout_nodes (calculateTreeLayout root config)
  = collectNodes (positioned root (merge_config config)).
Proof.
  unfold calculateTreeLayout. destruct (calculateDimensions _). reflexivity.
Qed.

Lemma layout_root_visible (root : TreeNode) (config : PartialTreeConfig) :
  In (positioned root (merge_config config))
     (layout_nodes (calculateTreeLayout root config)).
Proof.
  rewrite layout_nodes_visible.
  destruct (positioned root (merge_config config)) as [n]. left. reflexivity.
Qed.

(** C4.  Lay a tree out with the default configuration: vertical
    orientation and the default sizes, which are whole numbers, as the
    widths of the nodes are, so that the sums of the source are exact.
    Then for every visible node [parent] of the result: every
    visible node below it has its box within the span of [parent]; and when
    [parent] is expanded, each child lies strictly lower than [parent], the
    spans of two distinct children do not overlap (the earlier one ends
    before the later one starts), and so no box under the one overlaps a
    box under the other. *)
Theorem layout_vertical_no_overlap :
  forall (root : TreeNode) (config : PartialTreeConfig),
    merge_config config = DEFAULT_CONFIG ->
    forall parent,
      In parent (layout_nodes (calculateTreeLayout root config)) ->
      (forall d, In d (collectNodes parent) ->
         span_left parent <= box_left d /\ box_right d <= span_right parent) /\
      (node_expanded parent = true ->
         (forall child, In child (node_children parent) ->
            box_top parent < box_top child) /\
         (forall i j ci cj,
            (i < j)%nat ->
            nth_error (node_children parent) i = Some ci ->
            nth_error (node_children parent) j = Some cj ->
            span_right ci <= span_left cj /\
            forall a b, In a (collectNodes ci) -> In b (collectNodes cj) ->
                        box_right a <= box_left b)).
Proof.
  intros root config Hdefault parent Hin.
  assert (Hvertical : cfg_orientation (merge_config config) = vertical)
    by (rewrite Hdefault; reflexivity).
  assert (Hspacing : 0 <= cfg_horizontalSpacing (merge_config config))
    by (rewrite Hdefault; discriminate).
  assert (Hstep : 0 < cfg_nodeHeight (merge_config config)
                      + cfg_verticalSpacing (merge_config config))
    by (rewrite Hdefault; reflexivity).
  rewrite layout_nodes_visible in Hin.
  assert (HP : Placed (merge_config config)
                 (positioned root (merge_config config)) 0 0).
  { unfold positioned. rewrite Hvertical.
    apply assignVerticalPositions_placed; [exact Hspacing|].
    apply calculateSubtreeWidths_measured; [exact Hspacing|].
    apply assignNodeWidths_sized. }
  destruct (placed_visible _ Hspacing _ _ _ HP parent Hin) as (x & y & HPp).
  exact (placed_no_overlap _ Hspacing Hstep _ _ _ HPp).
Qed.

End LayoutProperties.

Lemma layout_vertical_no_overlap_witness :
  let parent := positioned tree_adult_or_minor (merge_config no_config) in
  (forall d, In d (collectNodes parent) ->
     span_left parent <= box_left d /\ box_right d <= span_right parent) /\
  (node_expanded parent = true ->
     (forall child, In child (node_children parent) ->
        box_top parent < box_top child) /\
     (forall i j ci cj,
        (i < j)%nat ->
        nth_error (node_children parent) i = Some ci ->
        nth_error (node_children parent) j = Some cj ->
        span_right ci <= span_left cj /\
        forall a b, In a (collectNodes ci) -> In b (collectNodes cj) ->
                    box_right a <= box_left b)).
Proof.
  apply (layout_vertical_no_overlap tree_adult_or_minor no_config).
  - reflexivity.
  - apply layout_root_visible.
Defined.

(** C7, counterexample: for the layout of a single literal node (a canvas of
    144 by 94) and a viewport of the same size, the fit zoom is 14/94, not
    the least of viewport width / canvas width, viewport height / canvas
    height and 1, which is 1. *)
Lemma calculateFitZoom_is_not_plain_ratio :
  let layout := calculateTreeLayout tree_null no_config in
  ~ (calculateFitZoom layout 144 94 default_padding
     == Qmin (Qmin (144 / layout_width layout) (94 / layout_height layout)) 1).
Proof. intros layout H. vm_compute in H. discriminate H. Qed.

Local Close Scope Q_scope.

(** ** The expansion toggles *)

Section ToggleProperties.

Context {number : Type} {host : Host number}.
#[local] Abbreviation TreeNode := (TreeNode number).
#[local] Abbreviation heap := (heap number).
#[local] Abbreviation object := (Node number loc).
Local Open Scope nat_scope.
Local Open Scope list_scope.

Lemma set_children_back {R R'} (n : Node number R) (cs : list R') :
  set_children (set_children n cs) (node_children n) = n.
Proof. destruct n; reflexivity. Qed.

Lemma set_expanded_back {R} (n : Node number R) (b : bool) :
  set_expanded (set_expanded n b) (node_expanded n) = n.
Proof. destruct n; reflexivity. Qed.

Lemma preorder_unfold (n : Node number TreeNode) :
  preorder (Tree n) = Tree n :: flat_map preorder (node_children n).
Proof. reflexivity. Qed.

Lemma map_flat_map {A B C} (f : B -> C) (g : A -> list B) (xs : list A) :
  map f (flat_map g xs) = flat_map (fun x => map f (g x)) xs.
Proof.
  induction xs as [|x xs IH]; simpl; [reflexivity|].
  rewrite map_app, IH. reflexivity.
Qed.

Lemma tree_ids_unfold (n : Node number TreeNode) :
  tree_ids (Tree n) = node_id n :: forest_ids (node_children n).
Proof.
  unfold tree_ids, forest_ids. rewrite preorder_unfold. simpl.
  rewrite map_flat_map. reflexivity.
Qed.

Lemma tree_flags_unfold (n : Node number TreeNode) :
  tree_flags (Tree n) = node_expanded n :: forest_flags (node_children n).
Proof.
  unfold tree_flags, forest_flags. rewrite preorder_unfold. simpl.
  rewrite map_flat_map. reflexivity.
Qed.

Lemma tree_flags_length (t : TreeNode) :
  length (tree_flags t) = length (tree_ids t).
Proof. unfold tree_flags, tree_ids. rewrite !length_map. reflexivity. Qed.

(** *** What the erasure of the flags keeps *)

Lemma erase_expanded_unfold (n : Node number TreeNode) :
  erase_expanded (Tree n) =
  Tree (set_children (set_expanded n true)
          (map erase_expanded (node_children n))).
Proof. reflexivity. Qed.

Lemma replace_first_erase (f : TreeNode -> option TreeNode)
    (cs : list TreeNode) :
  Forall (fun c => forall c', f c = Some c' ->
                     erase_expanded c' = erase_expanded c) cs ->
  forall cs', replace_first f cs = Some cs' ->
    map erase_expanded cs' = map erase_expanded cs.
Proof.
  induction 1 as [|c cs Hc _ IH]; intros cs' Heq; simpl in Heq;
    [discriminate|].
  destruct (f c) as [c'|] eqn:Hfc.
  - injection Heq as <-. simpl. rewrite (Hc c' eq_refl). reflexivity.
  - destruct (replace_first f cs) as [rest|]; [|discriminate].
    injection Heq as <-. simpl. rewrite (IH rest eq_refl). reflexivity.
Qed.

Lemma toggle_first_erase (id : string) (t : TreeNode) :
  forall t', toggle_first id t = Some t' ->
    erase_expanded t' = erase_expanded t.
Proof.
  induction t as [n IH] using TreeNode_nested_ind.
  intros t' Heq. cbn [toggle_first] in Heq.
  destruct (node_id n =? id)%string.
  - injection Heq as <-. reflexivity.
  - destruct (replace_first _ _) as [cs'|] eqn:Hcs; [|discriminate].
    injection Heq as <-. rewrite !erase_expanded_unfold. simpl.
    rewrite (replace_first_erase _ _ IH cs' Hcs). reflexivity.
Qed.

Lemma replace_first_back (f : TreeNode -> option TreeNode)
    (cs : list TreeNode) :
  Forall (fun c => forall c', f c = Some c' -> f c' = Some c) cs ->
  forall cs', replace_first f cs = Some cs' -> replace_first f cs' = Some cs.
Proof.
  induction 1 as [|c cs Hc _ IH]; intros cs' Heq; simpl in Heq;
    [discriminate|].
  destruct (f c) as [c'|] eqn:Hfc.
  - injection Heq as <-. simpl. rewrite (Hc c' eq_refl). reflexivity.
  - destruct (replace_first f cs) as [rest|]; [|discriminate].
    injection Heq as <-. simpl. rewrite Hfc, (IH rest eq_refl). reflexivity.
Qed.

(** Flipping the first node with the id twice gives the tree back. *)
Lemma toggle_first_back (id : string) (t : TreeNode) :
  forall t', toggle_first id t = Some t' -> toggle_first id t' = Some t.
Proof.
  induction t as [n IH] using TreeNode_nested_ind.
  intros t' Heq. cbn [toggle_first] in Heq.
  destruct (node_id n =? id)%string eqn:Hid.
  - injection Heq as <-. cbn [toggle_first]. simpl. rewrite Hid.
    rewrite negb_involutive, set_expanded_back. reflexivity.
  - destruct (replace_first _ _) as [cs'|] eqn:Hcs; [|discriminate].
    injection Heq as <-. cbn [toggle_first]. simpl. rewrite Hid.
    rewrite (replace_first_back _ _ IH cs' Hcs). simpl.
    rewrite set_children_back. reflexivity.
Qed.

(** *** The position of the flipped flag *)

Lemma update_at_app_l {A} (f : A -> A) (xs ys : list A) (k : nat) :
  k < length xs -> update_at k f (xs ++ ys) = update_at k f xs ++ ys.
Proof.
  revert k. induction xs as [|x xs IH]; intros [|k] Hk; simpl in *;
    try lia; [reflexivity|].
  rewrite IH by lia. reflexivity.
Qed.

Lemma update_at_app_r {A} (f : A -> A) (xs ys : list A) (k : nat) :
  update_at (length xs + k) f (xs ++ ys) = xs ++ update_at k f ys.
Proof.
  induction xs as [|x xs IH]; simpl; [reflexivity|].
  rewrite IH. reflexivity.
Qed.

Lemma first_at_app_l (id : string) (xs ys : list string) (k : nat) :
  first_at id xs k -> first_at id (xs ++ ys) k.
Proof.
  intros [Hk Hmin].
  assert (k < length xs) by (apply nth_error_Some; congruence).
  split.
  - rewrite nth_error_app1 by lia. exact Hk.
  - intros j Hj. rewrite nth_error_app1 by lia. apply Hmin. exact Hj.
Qed.

Lemma first_at_app_r (id : string) (xs ys : list string) (k : nat) :
  ~ In id xs -> first_at id ys k -> first_at id (xs ++ ys) (length xs + k).
Proof.
  intros Hxs [Hk Hmin]. split.
  - rewrite nth_error_app2 by lia.
    replace (length xs + k - length xs) with k by lia. exact Hk.
  - intros j Hj. destruct (Nat.lt_ge_cases j (length xs)) as [Hlt|Hge].
    + rewrite nth_error_app1 by lia. intros Heq.
      apply nth_error_In in Heq. contradiction.
    + rewrite nth_error_app2 by lia. apply Hmin. lia.
Qed.

Lemma replace_first_flags (id : string) (cs : list TreeNode) :
  Forall (fun c =>
            flipped_at_first id (tree_ids c) (tree_flags c)
              (option_map tree_flags (toggle_first id c))) cs ->
  flipped_at_first id (forest_ids cs) (forest_flags cs)
    (option_map forest_flags (replace_first (toggle_first id) cs)).
Proof.
  induction 1 as [|c cs Hc _ IH]; simpl; [tauto|].
  unfold forest_ids, forest_flags in *. simpl.
  destruct (toggle_first id c) as [c'|]; simpl in *.
  - destruct Hc as (k & Hfirst & Hflags). exists k.
    split; [apply first_at_app_l; exact Hfirst|].
    rewrite Hflags, update_at_app_l; [reflexivity|].
    rewrite tree_flags_length. apply nth_error_Some.
    destruct Hfirst as [-> _]. discriminate.
  - destruct (replace_first (toggle_first id) cs) as [cs'|]; simpl in *.
    + destruct IH as (k & Hfirst & Hflags).
      exists (length (tree_ids c) + k).
      split; [apply first_at_app_r; assumption|].
      rewrite Hflags, <- tree_flags_length. apply eq_sym, update_at_app_r.
    + rewrite in_app_iff. tauto.
Qed.

(** A toggle flips the flag at the first position of the id, in the order
    [flattenTree] lists the nodes, and no other; when it finds no node, the
    id does not occur. *)
Lemma toggle_first_flags (id : string) (t : TreeNode) :
  flipped_at_first id (tree_ids t) (tree_flags t)
    (option_map tree_flags (toggle_first id t)).
Proof.
  induction t as [n IH] using TreeNode_nested_ind.
  cbn [toggle_first]. rewrite tree_ids_unfold, tree_flags_unfold.
  destruct (String.eqb_spec (node_id n) id) as [Hid|Hid]; simpl.
  - exists 0. split; [|rewrite tree_flags_unfold; reflexivity].
    split; [simpl; congruence|intros j Hj; lia].
  - pose proof (replace_first_flags id _ IH) as Hkids.
    destruct (replace_first (toggle_first id) (node_children n)) as [cs'|];
      simpl in *.
    + destruct Hkids as (k & [Hk Hmin] & Hflags). exists (S k).
      split; [split|].
      * exact Hk.
      * intros [|j] Hj; simpl; [congruence|apply Hmin; lia].
      * rewrite tree_flags_unfold. simpl. rewrite Hflags. reflexivity.
    + intros [H|H]; [contradiction|tauto].
Qed.

Lemma toggle_first_found (id : string) (t : TreeNode) :
  In id (tree_ids t) -> exists t', toggle_first id t = Some t'.
Proof.
  intros Hin. pose proof (toggle_first_flags id t) as H.
  destruct (toggle_first id t) as [t'|]; [eauto|]. simpl in H. contradiction.
Qed.

(** *** What depends on the erasure only *)

Lemma heights_map (f : TreeNode -> TreeNode) (cs : list TreeNode) :
  Forall (fun c => height (f c) = height c) cs ->
  fold_right (fun c rest => Nat.max (height c) rest) 0 (map f cs)
  = fold_right (fun c rest => Nat.max (height c) rest) 0 cs.
Proof. induction 1 as [|c cs Hc _ IH]; simpl; congruence. Qed.

Lemma height_erase (t : TreeNode) : height (erase_expanded t) = height t.
Proof.
  induction t as [n IH] using TreeNode_nested_ind.
  simpl. rewrite (heights_map _ _ IH). reflexivity.
Qed.

Lemma json_tree_map (f : TreeNode -> TreeNode) (cs : list TreeNode) :
  Forall (fun c => json_tree (f c) <-> json_tree c) cs ->
  fold_right (fun c rest => json_tree c /\ rest) True (map f cs) <->
  fold_right (fun c rest => json_tree c /\ rest) True cs.
Proof. induction 1 as [|c cs Hc _ IH]; simpl; tauto. Qed.

Lemma json_tree_erase (t : TreeNode) :
  json_tree (erase_expanded t) <-> json_tree t.
Proof.
  induction t as [n IH] using TreeNode_nested_ind.
  simpl. rewrite (json_tree_map _ _ IH). reflexivity.
Qed.

Lemma same_erasure (t t' : TreeNode) :
  erase_expanded t' = erase_expanded t ->
  height t' = height t /\ (json_tree t -> json_tree t').
Proof.
  intros He. split.
  - rewrite <- (height_erase t'), He. apply height_erase.
  - intros Hj. apply json_tree_erase. rewrite He. apply json_tree_erase.
    exact Hj.
Qed.

(** *** Lists and the store *)

Lemma nth_error_update_at_same {A} (f : A -> A) (xs : list A) (i : nat) :
  nth_error (update_at i f xs) i = option_map f (nth_error xs i).
Proof.
  revert i. induction xs as [|x xs IH]; intros [|i]; simpl; auto.
Qed.

Lemma nth_error_update_at_other {A} (f : A -> A) (xs : list A) (i j : nat) :
  i <> j -> nth_error (update_at i f xs) j = nth_error xs j.
Proof.
  revert i j. induction xs as [|x xs IH]; intros [|i] [|j] Hij; simpl; auto.
  contradiction.
Qed.

Lemma length_update_at {A} (f : A -> A) (xs : list A) (i : nat) :
  length (update_at i f xs) = length xs.
Proof.
  revert i. induction xs as [|x xs IH]; intros [|i]; simpl; auto.
Qed.

Lemma set_children_id {R} (n : Node number R) :
  set_children n (node_children n) = n.
Proof. destruct n; reflexivity. Qed.

Lemma mapi_from_index {St A B} (f : A -> M St B) (xs : list A) (i j : nat) :
  mapi_from (fun x _ => f x) xs i = mapi_from (fun x _ => f x) xs j.
Proof.
  revert i j. induction xs as [|x xs IH]; intros i j; simpl; [reflexivity|].
  rewrite (IH (S i) (S j)). reflexivity.
Qed.

Lemma mapM_cons {St A B} (f : A -> M St B) (x : A) (xs : list A) :
  mapM f (x :: xs) = (y <- f x ;; ys <- mapM f xs ;; ret (y :: ys)).
Proof.
  unfold mapM. simpl. rewrite (mapi_from_index f xs 1 0). reflexivity.
Qed.

Lemma mapM_nil {St A B} (f : A -> M St B) : mapM f [] = ret [].
Proof. reflexivity. Qed.

Lemma forEach_app {St A} (f : A -> M St unit) (xs ys : list A) (s : St) :
  forEach f (xs ++ ys) s =
  match forEach f xs s with
  | Returns (_, s') => forEach f ys s'
  | Throws e => Throws e
  | OutOfFuel => OutOfFuel
  end.
Proof.
  revert s. induction xs as [|x xs IH]; intros s; simpl; [reflexivity|].
  unfold bind. destruct (f x s) as [[[] s1]| |]; auto.
Qed.

(** *** Sizes *)

Lemma size_unfold (n : Node number TreeNode) :
  size (Tree n) = S (sizes (node_children n)).
Proof. reflexivity. Qed.

Lemma height_unfold (n : Node number TreeNode) :
  height (Tree n) = S (heights (node_children n)).
Proof. reflexivity. Qed.

Lemma size_positive (t : TreeNode) : 0 < size t.
Proof. destruct t. rewrite size_unfold. lia. Qed.

(** *** Regions *)

Lemma chain_bounds (h : heap) (cs : list TreeNode) :
  Forall (fun c => forall lo l, region h c lo l -> lo + size c = S l) cs ->
  forall lo hi ls,
    chain (fun lo' l' c => region h c lo' l') lo hi ls cs ->
    lo + sizes cs = hi.
Proof.
  induction 1 as [|c cs Hc _ IH]; intros lo hi [|l ls] Hchain;
    simpl in Hchain; try contradiction.
  - simpl. lia.
  - destruct Hchain as [Hr Hrest]. apply Hc in Hr. apply IH in Hrest.
    simpl. lia.
Qed.

Lemma region_bounds (h : heap) (t : TreeNode) :
  forall lo l, region h t lo l -> lo + size t = S l.
Proof.
  induction t as [n IH] using TreeNode_nested_ind.
  intros lo l (o & Ho & Hn & Hchain).
  apply (chain_bounds h _ IH) in Hchain. rewrite size_unfold. lia.
Qed.

Lemma chain_extent (h : heap) (cs : list TreeNode) lo hi ls :
  chain (fun lo' l' c => region h c lo' l') lo hi ls cs ->
  lo + sizes cs = hi.
Proof.
  apply chain_bounds. apply Forall_forall. intros c _. apply region_bounds.
Qed.

Lemma region_allocated (h : heap) (t : TreeNode) lo l :
  region h t lo l -> l < length h.
Proof.
  destruct t as [n]. intros (o & Ho & _).
  apply nth_error_Some. congruence.
Qed.

(** A region depends on the objects of its block only. *)
Lemma chain_frame (h h2 : heap) (cs : list TreeNode) :
  Forall (fun c => forall lo l,
            region h c lo l ->
            (forall i, lo <= i <= l -> nth_error h2 i = nth_error h i) ->
            region h2 c lo l) cs ->
  forall lo hi ls,
    chain (fun lo' l' c => region h c lo' l') lo hi ls cs ->
    (forall i, lo <= i < hi -> nth_error h2 i = nth_error h i) ->
    chain (fun lo' l' c => region h2 c lo' l') lo hi ls cs.
Proof.
  induction 1 as [|c cs Hc _ IH]; intros lo hi [|l ls] Hchain Hsame;
    simpl in *; try contradiction; auto.
  destruct Hchain as [Hr Hrest].
  pose proof (region_bounds _ _ _ _ Hr) as Hb.
  pose proof (chain_extent _ _ _ _ _ Hrest) as Hhi.
  pose proof (size_positive c).
  split.
  - apply Hc; [exact Hr|]. intros i Hi. apply Hsame. lia.
  - apply IH; [exact Hrest|]. intros i Hi. apply Hsame. lia.
Qed.

Lemma region_frame (h h2 : heap) (t : TreeNode) :
  forall lo l,
    region h t lo l ->
    (forall i, lo <= i <= l -> nth_error h2 i = nth_error h i) ->
    region h2 t lo l.
Proof.
  induction t as [n IH] using TreeNode_nested_ind.
  intros lo l Hr Hsame.
  pose proof (region_bounds _ _ _ _ Hr) as Hb.
  destruct Hr as (o & Ho & Hn & Hchain).
  exists o. split; [rewrite Hsame; [exact Ho|]|].
  { rewrite size_unfold in Hb. lia. }
  split; [exact Hn|].
  apply (chain_frame h h2 _ IH _ _ _ Hchain).
  intros i Hi. apply Hsame. lia.
Qed.

(** *** Reading a tree *)

Lemma json_tree_unfold (n : Node number TreeNode) :
  json_tree (Tree n) <->
  JSON_reparse (node_value n) = node_value n /\
  fold_right (fun c rest => json_tree c /\ rest) True (node_children n).
Proof. reflexivity. Qed.

Lemma stringify_children (fuel : nat) (h : heap) (cs : list TreeNode) :
  Forall (fun c => forall l, rep h l c -> json_tree c -> height c <= fuel ->
                     JSON_stringify_tree fuel l h = Returns (c, h)) cs ->
  forall ls,
    pairwise (fun l c => rep h l c) ls cs ->
    fold_right (fun c rest => json_tree c /\ rest) True cs ->
    heights cs <= fuel ->
    mapM (JSON_stringify_tree fuel) ls h = Returns (cs, h).
Proof.
  induction 1 as [|c cs Hc _ IH]; intros [|l ls] Hrep Hjson Hfuel;
    simpl in Hrep; try contradiction; [reflexivity|].
  destruct Hrep as [Hr Hrest]. destruct Hjson as [Hj Hjs].
  unfold heights in Hfuel. simpl in Hfuel. fold (heights cs) in Hfuel.
  rewrite mapM_cons. unfold bind.
  rewrite (Hc l Hr Hj) by lia. rewrite (IH ls Hrest Hjs) by lia.
  reflexivity.
Qed.

(** [JSON.stringify] reads the tree a location holds. *)
Lemma stringify_rep (t : TreeNode) :
  forall fuel h l,
    rep h l t -> json_tree t -> height t <= fuel ->
    JSON_stringify_tree fuel l h = Returns (t, h).
Proof.
  induction t as [n IH] using TreeNode_nested_ind.
  intros fuel h l (o & Ho & Hn & Hrep) [Hvalue Hjson] Hfuel.
  rewrite height_unfold in Hfuel.
  destruct fuel as [|fuel]; [lia|].
  cbn [JSON_stringify_tree]. unfold bind, deref. rewrite Ho.
  erewrite stringify_children; [|exact (Forall_impl _ (fun c Hc => Hc fuel h) IH)
                                |exact Hrep|exact Hjson|lia].
  unfold ret. do 3 f_equal. rewrite <- Hn in Hvalue |- *. simpl in Hvalue.
  rewrite Hvalue. reflexivity.
Qed.

(** *** Allocating a tree *)

Lemma region_app (h ext : heap) (t : TreeNode) lo l :
  region h t lo l -> region (h ++ ext) t lo l.
Proof.
  intros Hr. apply (region_frame h); [exact Hr|].
  intros i Hi. apply nth_error_app1.
  pose proof (region_allocated _ _ _ _ Hr). lia.
Qed.

Lemma chain_app (h ext : heap) (cs : list TreeNode) lo hi ls :
  chain (fun lo' l' c => region h c lo' l') lo hi ls cs ->
  chain (fun lo' l' c => region (h ++ ext) c lo' l') lo hi ls cs.
Proof.
  revert lo ls. induction cs as [|c cs IH]; intros lo [|l ls] Hchain;
    simpl in *; try contradiction; auto.
  destruct Hchain as [Hr Hrest]. split; [apply region_app; exact Hr|auto].
Qed.

Lemma parse_children (cs : list TreeNode) :
  Forall (fun c => forall h, exists ext,
            JSON_parse_tree c h = Returns (length h + size c - 1, h ++ ext) /\
            length ext = size c /\
            region (h ++ ext) c (length h) (length h + size c - 1)) cs ->
  forall h, exists ext ls,
    mapM JSON_parse_tree cs h = Returns (ls, h ++ ext) /\
    length ext = sizes cs /\
    chain (fun lo' l' c => region (h ++ ext) c lo' l')
      (length h) (length h + sizes cs) ls cs.
Proof.
  induction 1 as [|c cs Hc _ IH]; intros h.
  - exists [], []. rewrite app_nil_r. simpl. repeat split; auto.
  - destruct (Hc h) as (ext1 & Hparse & Hlen1 & Hr).
    destruct (IH (h ++ ext1)) as (ext2 & ls & Hrest & Hlen2 & Hchain).
    exists (ext1 ++ ext2), ((length h + size c - 1) :: ls).
    rewrite mapM_cons. unfold bind. rewrite Hparse, Hrest.
    rewrite app_assoc. pose proof (size_positive c).
    split; [reflexivity|]. split; [rewrite length_app; simpl; lia|].
    simpl. split; [apply region_app; exact Hr|].
    rewrite length_app, Hlen1 in Hchain.
    replace (S (length h + size c - 1)) with (length h + size c) by lia.
    replace (length h + (size c + sizes cs))
      with (length h + size c + sizes cs) by lia.
    exact Hchain.
Qed.

(** [JSON.parse] appends the objects of the tree to the store and lays them
    out as a region. *)
Lemma parse_region (t : TreeNode) :
  forall h, exists ext,
    JSON_parse_tree t h = Returns (length h + size t - 1, h ++ ext) /\
    length ext = size t /\
    region (h ++ ext) t (length h) (length h + size t - 1).
Proof.
  induction t as [n IH] using TreeNode_nested_ind. intros h.
  destruct (parse_children _ IH h) as (ext & ls & Hparse & Hlen & Hchain).
  exists (ext ++ [set_children n ls]).
  cbn [JSON_parse_tree]. unfold bind, alloc. rewrite Hparse.
  rewrite size_unfold, length_app, Hlen, app_assoc.
  replace (length h + S (sizes (node_children n)) - 1)
    with (length h + sizes (node_children n)) by lia.
  split; [reflexivity|]. split; [rewrite length_app; simpl; lia|].
  exists (set_children n ls). split.
  { rewrite nth_error_app2; rewrite length_app, Hlen; [|lia].
    replace (_ - _) with 0 by lia. reflexivity. }
  split; [apply set_children_back|].
  simpl. apply chain_app. exact Hchain.
Qed.

(** A region is a representation. *)
Lemma chain_rep (h : heap) (cs : list TreeNode) :
  Forall (fun c => forall lo l, region h c lo l -> rep h l c) cs ->
  forall lo hi ls,
    chain (fun lo' l' c => region h c lo' l') lo hi ls cs ->
    pairwise (fun l c => rep h l c) ls cs.
Proof.
  induction 1 as [|c cs Hc _ IH]; intros lo hi [|l ls] Hchain;
    simpl in *; try contradiction; auto.
  destruct Hchain as [Hr Hrest]. split; [eapply Hc; eauto|eapply IH; eauto].
Qed.

Lemma region_rep (h : heap) (t : TreeNode) :
  forall lo l, region h t lo l -> rep h l t.
Proof.
  induction t as [n IH] using TreeNode_nested_ind.
  intros lo l (o & Ho & Hn & Hchain). exists o.
  split; [exact Ho|]. split; [exact Hn|].
  eapply chain_rep; eauto.
Qed.

Lemma pairwise_keeps (h h' : heap) (cs : list TreeNode) :
  Forall (fun c => forall l, rep h l c -> rep h' l c) cs ->
  forall ls,
    pairwise (fun l c => rep h l c) ls cs ->
    pairwise (fun l c => rep h' l c) ls cs.
Proof.
  induction 1 as [|c cs Hc _ IH]; intros [|l ls] Hrep;
    simpl in *; try contradiction; auto.
  destruct Hrep as [Hr Hrest]. split; auto.
Qed.

(** A representation survives in every store that keeps its objects. *)
Lemma rep_keeps (h h' : heap) (t : TreeNode) :
  keeps h h' -> forall l, rep h l t -> rep h' l t.
Proof.
  intros Hkeep. induction t as [n IH] using TreeNode_nested_ind.
  intros l (o & Ho & Hn & Hrep). exists o.
  split; [apply Hkeep; exact Ho|]. split; [exact Hn|].
  eapply pairwise_keeps; eauto.
Qed.

Lemma chain_frame_all (h h2 : heap) (cs : list TreeNode) lo hi ls :
  chain (fun lo' l' c => region h c lo' l') lo hi ls cs ->
  (forall i, lo <= i < hi -> nth_error h2 i = nth_error h i) ->
  chain (fun lo' l' c => region h2 c lo' l') lo hi ls cs.
Proof.
  apply chain_frame. apply Forall_forall. intros c _. apply region_frame.
Qed.

(** *** Finding a node and flipping its flag *)

Lemma object_of_node {R} (o : object) (n : Node number R) (cs : list R) :
  set_children o cs = n ->
  node_id o = node_id n /\ node_expanded o = node_expanded n /\
  (forall b, set_children (set_expanded o b) cs = set_expanded n b) /\
  (forall cs' : list R, set_children o cs' = set_children n cs').
Proof. intros <-. repeat split. Qed.

Lemma find_children (fuel : nat) (id : string) (h : heap)
    (cs : list TreeNode) :
  Forall (fun c => forall lo l, region h c lo l -> height c <= fuel ->
                     found_and_flipped fuel id h c lo l) cs ->
  forall lo hi ls,
    chain (fun lo' l' c => region h c lo' l') lo hi ls cs ->
    heights cs <= fuel ->
    match replace_first (toggle_first id) cs with
    | Some cs' =>
        exists p,
          first_found (fun c => findNodeById fuel c id) ls h
          = Returns (Some p, h) /\
          lo <= p < hi /\
          chain (fun lo' l' c => region (update_at p flip h) c lo' l')
            lo hi ls cs'
    | None =>
        first_found (fun c => findNodeById fuel c id) ls h = Returns (None, h)
    end.
Proof.
  induction 1 as [|c cs Hc _ IH]; intros lo hi [|l ls] Hchain Hfuel;
    simpl in Hchain; try contradiction; [reflexivity|].
  destruct Hchain as [Hr Hrest].
  unfold heights in Hfuel. simpl in Hfuel. fold (heights cs) in Hfuel.
  pose proof (region_bounds _ _ _ _ Hr) as Hb.
  pose proof (chain_extent _ _ _ _ _ Hrest) as Hext.
  pose proof (size_positive c) as Hpos.
  specialize (Hc lo l Hr ltac:(lia)). unfold found_and_flipped in Hc.
  specialize (IH (S l) hi ls Hrest ltac:(lia)).
  cbn [replace_first first_found]. unfold bind.
  destruct (toggle_first id c) as [c'|].
  - destruct Hc as (p & Hfind & Hp & Hregion). exists p.
    rewrite Hfind. split; [reflexivity|]. split; [lia|].
    simpl. split; [exact Hregion|].
    apply (chain_frame_all h); [exact Hrest|].
    intros i Hi. apply nth_error_update_at_other. lia.
  - rewrite Hc.
    destruct (replace_first (toggle_first id) cs) as [cs'|]; simpl.
    + destruct IH as (p & Hfind & Hp & Hchain). exists p.
      split; [exact Hfind|]. split; [lia|].
      split; [|exact Hchain].
      apply (region_frame h); [exact Hr|].
      intros i Hi. apply nth_error_update_at_other. lia.
    + exact IH.
Qed.

Lemma find_and_flip (id : string) (t : TreeNode) :
  forall fuel h lo l,
    region h t lo l -> height t <= fuel ->
    found_and_flipped fuel id h t lo l.
Proof.
  induction t as [n IH] using TreeNode_nested_ind.
  intros fuel h lo l Hr Hfuel. rewrite height_unfold in Hfuel.
  pose proof (region_bounds _ _ _ _ Hr) as Hb. rewrite size_unfold in Hb.
  destruct Hr as (o & Ho & Hn & Hchain).
  destruct (object_of_node _ _ _ Hn) as (Hid & Hexp & Hflip & Hkids).
  destruct fuel as [|fuel]; [lia|].
  unfold found_and_flipped. cbn [toggle_first findNodeById].
  unfold bind, deref. rewrite Ho, Hid.
  destruct (node_id n =? id)%string.
  - exists l. split; [reflexivity|]. split; [lia|].
    exists (flip o). split; [rewrite nth_error_update_at_same, Ho; reflexivity|].
    split; [unfold flip; rewrite Hexp; apply Hflip|].
    simpl. apply (chain_frame_all h); [exact Hchain|].
    intros i Hi. apply nth_error_update_at_other. lia.
  - pose proof (find_children fuel id h (node_children n)
                  (Forall_impl _ (fun c Hc => Hc fuel h) IH)
                  lo l (node_children o) Hchain ltac:(lia)) as Hkid.
    destruct (replace_first (toggle_first id) (node_children n)) as [cs'|];
      simpl.
    + destruct Hkid as (p & Hfind & Hp & Hch). exists p.
      split; [exact Hfind|]. split; [lia|].
      exists o. split; [rewrite nth_error_update_at_other; [exact Ho|lia]|].
      split; [apply Hkids|]. exact Hch.
    + exact Hkid.
Qed.

(** *** The toggles on the store *)

Lemma toggle_core (fuel : nat) (h : heap) (root : loc) (t : TreeNode)
    (nodeId : string) :
  rep h root t -> json_tree t -> height t <= fuel ->
  exists h' clone,
    toggleNodeExpansion fuel root nodeId h = Returns (clone, h') /\
    keeps h h' /\ length h <= clone /\ rep h' clone (toggled nodeId t).
Proof.
  intros Hrep Hjson Hfuel.
  destruct (parse_region t h) as (ext & Hparse & Hlen & Hreg).
  pose proof (find_and_flip nodeId t fuel _ _ _ Hreg Hfuel) as Hfind.
  pose proof (region_allocated _ _ _ _ Hreg) as Halloc.
  pose proof (size_positive t) as Hpos.
  unfold toggleNodeExpansion, clone, bind.
  rewrite (stringify_rep t fuel h root Hrep Hjson Hfuel), Hparse.
  unfold found_and_flipped in Hfind. unfold toggled.
  destruct (toggle_first nodeId t) as [t'|].
  - destruct Hfind as (p & -> & Hp & Hreg').
    unfold assign_expanded.
    destruct (nth_error (h ++ ext) p) eqn:Hobj;
      [|apply nth_error_None in Hobj; lia].
    eexists; eexists. split; [reflexivity|].
    split; [|split; [lia|eapply region_rep; exact Hreg']].
    intros i o Ho.
    assert (i < length h) by (apply nth_error_Some; congruence).
    rewrite nth_error_update_at_other by lia.
    rewrite nth_error_app1 by lia. exact Ho.
  - rewrite Hfind. eexists; eexists. split; [reflexivity|].
    split; [|split; [lia|eapply region_rep; exact Hreg]].
    intros i o Ho.
    assert (i < length h) by (apply nth_error_Some; congruence).
    rewrite nth_error_app1 by lia. exact Ho.
Qed.

Lemma toggled_erase (id : string) (t : TreeNode) :
  erase_expanded (toggled id t) = erase_expanded t.
Proof.
  unfold toggled. destruct (toggle_first id t) as [t'|] eqn:Heq;
    [apply (toggle_first_erase id t t' Heq)|reflexivity].
Qed.

(** C5, as the code has it.  Let the location [root] hold the tree [t], a
    tree whose values survive a round trip through JSON text and in which
    [nodeId] occurs.  Then [toggleNodeExpansion] returns the location
    [clone] of a tree [t'] whose objects are all new, and
    - the store keeps every object it had where it was, so [root] still
      holds [t]: the original is not written to;
    - [t'] and [t] agree on shape and on every field but [expanded]
      (children, label, type, value and the rest);
    - the flags of [t'] are those of [t] with exactly one flipped, that of
      the first node whose id is [nodeId];
    - toggling [nodeId] again in the result gives a tree equal to [t]. *)
Theorem toggleNodeExpansion_spec :
  forall (fuel : nat) (h : heap) (root : loc) (t : TreeNode)
         (nodeId : string),
    rep h root t -> json_tree t -> height t <= fuel ->
    In nodeId (tree_ids t) ->
    exists h' clone t',
      toggleNodeExpansion fuel root nodeId h = Returns (clone, h') /\
      length h <= clone /\ keeps h h' /\ rep h' root t /\
      rep h' clone t' /\
      erase_expanded t' = erase_expanded t /\
      (exists k, first_at nodeId (tree_ids t) k /\
                 tree_flags t' = update_at k negb (tree_flags t)) /\
      exists h'' clone',
        toggleNodeExpansion fuel clone nodeId h' = Returns (clone', h'') /\
        rep h'' clone' t.
Proof.
  intros fuel h root t nodeId Hrep Hjson Hfuel Hin.
  destruct (toggle_core fuel h root t nodeId Hrep Hjson Hfuel)
    as (h' & clone & Hrun & Hkeeps & Hnew & Hclone).
  pose proof (toggled_erase nodeId t) as Herase.
  destruct (same_erasure _ _ Herase) as [Hheight Hjson'].
  destruct (toggle_core fuel h' clone (toggled nodeId t) nodeId Hclone
              (Hjson' Hjson) ltac:(lia))
    as (h'' & clone' & Hrun' & _ & _ & Hclone').
  destruct (toggle_first_found nodeId t Hin) as (t' & Ht').
  pose proof (toggle_first_flags nodeId t) as Hflags.
  unfold toggled in *. rewrite Ht' in *.
  rewrite (toggle_first_back nodeId t t' Ht') in Hclone'.
  exists h', clone, t'.
  split; [exact Hrun|]. split; [exact Hnew|]. split; [exact Hkeeps|].
  split; [exact (rep_keeps h h' t Hkeeps root Hrep)|].
  split; [exact Hclone|]. split; [exact Herase|].
  split; [exact Hflags|].
  exists h'', clone'. split; [exact Hrun'|exact Hclone'].
Qed.

(** *** Listing the nodes and collapsing them *)

Lemma preorder_locs_unfold (n : Node number TreeNode) (lo : nat) :
  preorder_locs (Tree n) lo =
  (lo + size (Tree n) - 1) :: locs_below preorder_locs (node_children n) lo.
Proof. reflexivity. Qed.

Lemma flatten_children (fuel : nat) (h : heap) (cs : list TreeNode) :
  Forall (fun c => forall lo l, region h c lo l -> height c <= fuel ->
                     flattenTree fuel l h
                     = Returns (preorder_locs c lo, h)) cs ->
  forall lo hi ls,
    chain (fun lo' l' c => region h c lo' l') lo hi ls cs ->
    heights cs <= fuel ->
    exists below,
      mapM (flattenTree fuel) ls h = Returns (below, h) /\
      concat below = locs_below preorder_locs cs lo.
Proof.
  induction 1 as [|c cs Hc _ IH]; intros lo hi [|l ls] Hchain Hfuel;
    simpl in Hchain; try contradiction.
  - exists []. split; reflexivity.
  - destruct Hchain as [Hr Hrest].
    unfold heights in Hfuel. simpl in Hfuel. fold (heights cs) in Hfuel.
    pose proof (region_bounds _ _ _ _ Hr) as Hb.
    replace (S l) with (lo + size c) in Hrest by lia.
    destruct (IH _ _ _ Hrest ltac:(lia)) as (below & Hmap & Hcat).
    exists (preorder_locs c lo :: below).
    rewrite mapM_cons. unfold bind.
    rewrite (Hc lo l Hr) by lia. rewrite Hmap.
    split; [reflexivity|]. simpl. rewrite Hcat. reflexivity.
Qed.

(** [flattenTree] on a region lists its locations, parents first. *)
Lemma flatten_region (t : TreeNode) :
  forall fuel h lo l,
    region h t lo l -> height t <= fuel ->
    flattenTree fuel l h = Returns (preorder_locs t lo, h).
Proof.
  induction t as [n IH] using TreeNode_nested_ind.
  intros fuel h lo l Hr Hfuel. rewrite height_unfold in Hfuel.
  pose proof (region_bounds _ _ _ _ Hr) as Hb.
  destruct Hr as (o & Ho & Hn & Hchain).
  destruct fuel as [|fuel]; [lia|].
  destruct (flatten_children fuel h _
              (Forall_impl _ (fun c Hc => Hc fuel h) IH)
              _ _ _ Hchain ltac:(lia)) as (below & Hmap & Hcat).
  cbn [flattenTree]. unfold bind, deref. rewrite Ho, Hmap.
  rewrite preorder_locs_unfold, Hcat. unfold ret.
  do 3 f_equal. lia.
Qed.

Lemma set_all_children (b : bool) (cs : list TreeNode) :
  Forall (fun c => forall h lo l, region h c lo l ->
            exists h',
              forEach (assign_flag b) (preorder_locs c lo) h
              = Returns (tt, h') /\
              region h' (with_all_expanded b c) lo l /\
              outside lo (S l) h h') cs ->
  forall h lo hi ls,
    chain (fun lo' l' c => region h c lo' l') lo hi ls cs ->
    exists h',
      forEach (assign_flag b) (locs_below preorder_locs cs lo) h
      = Returns (tt, h') /\
      chain (fun lo' l' c => region h' c lo' l') lo hi ls
        (map (with_all_expanded b) cs) /\
      outside lo hi h h'.
Proof.
  induction 1 as [|c cs Hc _ IH]; intros h lo hi [|l ls] Hchain;
    simpl in Hchain; try contradiction.
  - exists h. split; [reflexivity|]. split; [exact Hchain|]. intros i _.
    reflexivity.
  - destruct Hchain as [Hr Hrest].
    pose proof (region_bounds _ _ _ _ Hr) as Hb.
    pose proof (chain_extent _ _ _ _ _ Hrest) as Hext.
    pose proof (size_positive c) as Hpos.
    destruct (Hc h lo l Hr) as (h1 & Hrun1 & Hreg1 & Hout1).
    assert (Hrest1 : chain (fun lo' l' c0 => region h1 c0 lo' l')
                       (lo + size c) hi ls cs).
    { replace (lo + size c) with (S l) by lia.
      apply (chain_frame_all h); [exact Hrest|].
      intros i Hi. apply Hout1. lia. }
    destruct (IH h1 _ _ _ Hrest1) as (h2 & Hrun2 & Hchain2 & Hout2).
    exists h2. cbn [locs_below]. rewrite forEach_app, Hrun1, Hrun2.
    split; [reflexivity|]. split.
    + simpl. split.
      * apply (region_frame h1); [exact Hreg1|].
        intros i Hi. apply Hout2. lia.
      * replace (S l) with (lo + size c) by lia. exact Hchain2.
    + intros i Hi. rewrite Hout2 by lia. apply Hout1. lia.
Qed.

Lemma assign_flag_run (b : bool) (l : loc) (h : heap) (o : object) :
  nth_error h l = Some o ->
  assign_flag b l h
  = Returns (tt, update_at l (fun o => set_expanded o b) h).
Proof. intros Ho. unfold assign_flag, assign_expanded. rewrite Ho. reflexivity. Qed.

(** Writing one flag to every node of a region. *)
Lemma set_all_region (b : bool) (t : TreeNode) :
  forall h lo l,
    region h t lo l ->
    exists h',
      forEach (assign_flag b) (preorder_locs t lo) h = Returns (tt, h') /\
      region h' (with_all_expanded b t) lo l /\
      outside lo (S l) h h'.
Proof.
  induction t as [n IH] using TreeNode_nested_ind.
  intros h lo l Hr.
  pose proof (region_bounds _ _ _ _ Hr) as Hb.
  pose proof (size_positive (Tree n)) as Hpos.
  destruct Hr as (o & Ho & Hn & Hchain).
  destruct (object_of_node _ _ _ Hn) as (_ & _ & Hset & Hkids).
  set (h1 := update_at l (fun o => set_expanded o b) h).
  assert (Hchain1 : chain (fun lo' l' c => region h1 c lo' l') lo l
                      (node_children o) (node_children n)).
  { apply (chain_frame_all h); [exact Hchain|].
    intros i Hi. apply nth_error_update_at_other. lia. }
  destruct (set_all_children b _ IH h1 _ _ _ Hchain1)
    as (h2 & Hrun & Hchain2 & Hout).
  exists h2. rewrite preorder_locs_unfold.
  replace (lo + size (Tree n) - 1) with l by lia.
  cbn [forEach]. unfold bind. rewrite (assign_flag_run b l h o Ho).
  fold h1. rewrite Hrun. split; [reflexivity|]. split.
  - exists (set_expanded o b). split.
    + rewrite Hout by lia. unfold h1.
      rewrite nth_error_update_at_same, Ho. reflexivity.
    + split; [|exact Hchain2]. simpl.
      rewrite <- (Hset b). reflexivity.
  - intros i Hi. rewrite Hout by lia. unfold h1.
    apply nth_error_update_at_other. lia.
Qed.

Lemma set_all_forest (b : bool) (cs : list TreeNode) :
  forall h lo hi ls,
    chain (fun lo' l' c => region h c lo' l') lo hi ls cs ->
    exists h',
      forEach (assign_flag b) (locs_below preorder_locs cs lo) h
      = Returns (tt, h') /\
      chain (fun lo' l' c => region h' c lo' l') lo hi ls
        (map (with_all_expanded b) cs) /\
      outside lo hi h h'.
Proof.
  apply set_all_children. apply Forall_forall. intros c _.
  apply set_all_region.
Qed.

Lemma collapse_core (fuel : nat) (h : heap) (root : loc) (t : TreeNode) :
  rep h root t -> json_tree t -> height t <= fuel ->
  exists h' clone,
    collapseAllNodes fuel root h = Returns (clone, h') /\
    keeps h h' /\ length h <= clone /\ rep h' clone (collapsed t).
Proof.
  intros Hrep Hjson Hfuel.
  destruct (parse_region t h) as (ext & Hparse & Hlen & Hreg).
  pose proof (region_bounds _ _ _ _ Hreg) as Hb.
  pose proof (size_positive t) as Hpos.
  unfold collapseAllNodes, clone, bind.
  rewrite (stringify_rep t fuel h root Hrep Hjson Hfuel), Hparse.
  set (c := length h + size t - 1) in *.
  destruct t as [n]. destruct Hreg as (o & Ho & Hn & Hchain).
  destruct (object_of_node _ _ _ Hn) as (_ & _ & Hset & Hkids).
  fold (@assign_flag number true c). rewrite (assign_flag_run true c _ o Ho).
  set (h2 := update_at c (fun o => set_expanded o true) (h ++ ext)).
  assert (Hchain2 : chain (fun lo' l' c0 => region h2 c0 lo' l') (length h) c
                      (node_children o) (node_children n)).
  { apply (chain_frame_all (h ++ ext)); [exact Hchain|].
    intros i Hi. apply nth_error_update_at_other. lia. }
  assert (Hroot2 : nth_error h2 c = Some (set_expanded o true)).
  { unfold h2. rewrite nth_error_update_at_same, Ho. reflexivity. }
  assert (Hreg2 : region h2 (Tree (set_expanded n true)) (length h) c).
  { exists (set_expanded o true). split; [exact Hroot2|].
    split; [apply Hset|exact Hchain2]. }
  rewrite (flatten_region _ fuel h2 _ _ Hreg2) by exact Hfuel.
  rewrite preorder_locs_unfold. cbn [skipn]. simpl node_children.
  destruct (set_all_forest false (node_children n) h2 _ _ _ Hchain2)
    as (h3 & Hrun & Hchain3 & Hout).
  fold (@assign_flag number false). rewrite Hrun.
  exists h3, c. split; [reflexivity|]. split; [|split; [lia|]].
  - intros i obj Hobj.
    assert (i < length h) by (apply nth_error_Some; congruence).
    rewrite Hout by lia. unfold h2.
    rewrite nth_error_update_at_other by lia.
    rewrite nth_error_app1 by lia. exact Hobj.
  - apply (region_rep h3 _ (length h) c).
    exists (set_expanded o true). split; [rewrite Hout by lia; exact Hroot2|].
    split; [|exact Hchain3]. simpl. rewrite <- (Hset true). reflexivity.
Qed.

Lemma with_all_expanded_erase (b : bool) (t : TreeNode) :
  erase_expanded (with_all_expanded b t) = erase_expanded t.
Proof.
  induction t as [n IH] using TreeNode_nested_ind.
  assert (Hmap : map erase_expanded
                   (map (with_all_expanded b) (node_children n))
                 = map erase_expanded (node_children n)).
  { induction IH as [|c cs Hc _ IHcs]; simpl; congruence. }
  cbn [with_all_expanded]. rewrite !erase_expanded_unfold.
  cbn [node_children set_children]. rewrite Hmap. reflexivity.
Qed.

Lemma collapsed_erase (t : TreeNode) :
  erase_expanded (collapsed t) = erase_expanded t.
Proof.
  destruct t as [n]. unfold collapsed. rewrite !erase_expanded_unfold.
  cbn [node_children set_children]. rewrite map_map.
  rewrite (map_ext _ _ (with_all_expanded_erase false)). reflexivity.
Qed.

Lemma with_all_expanded_flags (b : bool) (t : TreeNode) :
  forall d, In d (preorder (with_all_expanded b t)) -> node_expanded d = b.
Proof.
  induction t as [n IH] using TreeNode_nested_ind.
  intros d Hd. simpl in Hd. destruct Hd as [<-|Hd]; [reflexivity|].
  apply in_flat_map in Hd as (c' & Hc' & Hd).
  apply in_map_iff in Hc' as (c & <- & Hc).
  rewrite Forall_forall in IH. exact (IH c Hc d Hd).
Qed.

(** C10, as the code has it.  Let the location [root] hold the tree [t], a
    tree whose values survive a round trip through JSON text.
    Then [collapseAllNodes] returns the location [clone] of a tree [t'] whose
    objects are all new, the store keeping every object it had, such that
    the root of [t'] is expanded, every other node of [t'] is collapsed, and
    [t'] agrees with [t] on shape and on every field but [expanded]. *)
Theorem collapseAllNodes_spec :
  forall (fuel : nat) (h : heap) (root : loc) (t : TreeNode),
    rep h root t -> json_tree t -> height t <= fuel ->
    exists h' clone t',
      collapseAllNodes fuel root h = Returns (clone, h') /\
      length h <= clone /\ keeps h h' /\ rep h' root t /\
      rep h' clone t' /\
      node_expanded t' = true /\
      (forall d, In d (flat_map preorder (node_children t')) ->
                 node_expanded d = false) /\
      erase_expanded t' = erase_expanded t.
Proof.
  intros fuel h root t Hrep Hjson Hfuel.
  destruct (collapse_core fuel h root t Hrep Hjson Hfuel)
    as (h' & clone & Hrun & Hkeeps & Hnew & Hclone).
  exists h', clone, (collapsed t).
  split; [exact Hrun|]. split; [exact Hnew|]. split; [exact Hkeeps|].
  split; [exact (rep_keeps h h' t Hkeeps root Hrep)|].
  split; [exact Hclone|].
  destruct t as [n]. split; [reflexivity|]. split; [|apply collapsed_erase].
  intros d Hd. simpl in Hd.
  apply in_flat_map in Hd as (c' & Hc' & Hd).
  apply in_map_iff in Hc' as (c & <- & Hc).
  exact (with_all_expanded_flags false c d Hd).
Qed.

End ToggleProperties.


Lemma rep_adult_or_minor : rep heap_adult_or_minor 2 tree_adult_or_minor.
Proof.
  eexists. split; [reflexivity|]. split; [reflexivity|]. simpl.
  split; [eexists; repeat split|].
  split; [eexists; repeat split|exact I].
Qed.

Lemma json_tree_adult_or_minor : json_tree tree_adult_or_minor.
Proof. simpl. repeat split. Qed.

Lemma toggleNodeExpansion_spec_witness :
  rep heap_adult_or_minor 2 tree_adult_or_minor /\
  json_tree tree_adult_or_minor /\
  height tree_adult_or_minor <= 2 /\
  In "node-2"%string (tree_ids tree_adult_or_minor) /\
  exists h' clone t',
    toggleNodeExpansion 2 2 "node-2" heap_adult_or_minor
    = Returns (clone, h') /\
    length heap_adult_or_minor <= clone /\ keeps heap_adult_or_minor h' /\
    rep h' 2 tree_adult_or_minor /\
    rep h' clone t' /\
    erase_expanded t' = erase_expanded tree_adult_or_minor /\
    (exists k, first_at "node-2" (tree_ids tree_adult_or_minor) k /\
               tree_flags t'
               = update_at k negb (tree_flags tree_adult_or_minor)) /\
    exists h'' clone',
      toggleNodeExpansion 2 clone "node-2" h' = Returns (clone', h'') /\
      rep h'' clone' tree_adult_or_minor.
Proof.
  assert (Hheight : height tree_adult_or_minor <= 2) by (simpl; lia).
  assert (Hin : In "node-2"%string (tree_ids tree_adult_or_minor))
    by (simpl; tauto).
  split; [exact rep_adult_or_minor|].
  split; [exact json_tree_adult_or_minor|].
  split; [exact Hheight|]. split; [exact Hin|].
  exact (toggleNodeExpansion_spec 2 heap_adult_or_minor 2
           tree_adult_or_minor "node-2" rep_adult_or_minor
           json_tree_adult_or_minor Hheight Hin).
Defined.

Lemma collapseAllNodes_spec_witness :
  rep heap_adult_or_minor 2 tree_adult_or_minor /\
  json_tree tree_adult_or_minor /\
  height tree_adult_or_minor <= 2 /\
  exists h' clone t',
    collapseAllNodes 2 2 heap_adult_or_minor = Returns (clone, h') /\
    length heap_adult_or_minor <= clone /\ keeps heap_adult_or_minor h' /\
    rep h' 2 tree_adult_or_minor /\
    rep h' clone t' /\
    node_expanded t' = true /\
    (forall d, In d (flat_map preorder (node_children t')) ->
               node_expanded d = false) /\
    erase_expanded t' = erase_expanded tree_adult_or_minor.
Proof.
  assert (Hheight : height tree_adult_or_minor <= 2) by (simpl; lia).
  split; [exact rep_adult_or_minor|].
  split; [exact json_tree_adult_or_minor|].
  split; [exact Hheight|].
  exact (collapseAllNodes_spec 2 heap_adult_or_minor 2 tree_adult_or_minor
           rep_adult_or_minor json_tree_adult_or_minor Hheight).
Defined.

(** The tree of the rule [1e999] and the store that holds it. *)
Lemma parseRuleToTree_infinity :
  parseRuleToTree 1 rule_infinity None 0 [] 0 = Returns (tree_infinity, 1).
Proof. reflexivity. Qed.

Lemma rep_infinity : rep heap_infinity 0 tree_infinity.
Proof. exists node_infinity. repeat split. Qed.

(** C5, counterexample.  The tree builder returns [tree_infinity] for the
    rule [1e999], and [heap_infinity] holds it at location 0.  Toggling its
    node returns a copy whose [value] is [null], not the [Infinity] of the
    original: the copy is made through JSON text, which has no notation for
    a number that is not finite.  Toggling the node of the copy again gives
    a tree whose [value] is [null] as well, not a tree equal to the
    original. *)
Lemma toggleNodeExpansion_loses_infinity :
  parseRuleToTree 1 rule_infinity None 0 [] 0 = Returns (tree_infinity, 1) /\
  rep heap_infinity 0 tree_infinity /\
  In "node-1" (tree_ids tree_infinity) /\
  exists h' clone o,
    toggleNodeExpansion 1 0 "node-1" heap_infinity = Returns (clone, h') /\
    nth_error h' clone = Some o /\
    node_value o = JNull /\
    node_value o <> node_value tree_infinity /\
    exists h'' clone' o',
      toggleNodeExpansion 1 clone "node-1" h' = Returns (clone', h'') /\
      nth_error h'' clone' = Some o' /\
      node_value o' = JNull /\
      node_value o' <> node_value tree_infinity.
Proof.
  split; [exact parseRuleToTree_infinity|].
  split; [exact rep_infinity|].
  split; [left; reflexivity|].
  eexists; eexists; eexists.
  split; [vm_compute; reflexivity|].
  split; [reflexivity|]. split; [reflexivity|]. split; [discriminate|].
  eexists; eexists; eexists.
  split; [vm_compute; reflexivity|].
  split; [reflexivity|]. split; [reflexivity|discriminate].
Qed.

(** C10, counterexample.  Collapsing the tree of the rule [1e999] returns a
    copy whose [value] is [null], not the [Infinity] of the original: a
    field other than [expanded] differs. *)
Lemma collapseAllNodes_loses_infinity :
  parseRuleToTree 1 rule_infinity None 0 [] 0 = Returns (tree_infinity, 1) /\
  rep heap_infinity 0 tree_infinity /\
  exists h' clone o,
    collapseAllNodes 1 0 heap_infinity = Returns (clone, h') /\
    nth_error h' clone = Some o /\
    node_value o = JNull /\
    node_value o <> node_value tree_infinity.
Proof.
  split; [exact parseRuleToTree_infinity|].
  split; [exact rep_infinity|].
  eexists; eexists; eexists.
  split; [vm_compute; reflexivity|].
  split; [reflexivity|]. split; [reflexivity|discriminate].
Qed.


(** * Further properties of the code *)

(** ** Printing counters *)

Lemma to_uint_nonnil (n : nat) : Nat.to_uint n <> Nil.
Proof.
  rewrite <- (DecimalNat.Unsigned.of_to n) at 1.
  rewrite DecimalNat.Unsigned.to_of.
  apply DecimalFacts.unorm_nonnil.
Qed.

Lemma nat_toString_injective (a b : nat) :
  nat_toString a = nat_toString b -> a = b.
Proof.
  unfold nat_toString. intros H. apply DecimalNat.Unsigned.to_uint_inj.
  pose proof (NilZero.usu _ (to_uint_nonnil a)) as Ha.
  pose proof (NilZero.usu _ (to_uint_nonnil b)) as Hb.
  rewrite H in Ha. congruence.
Qed.

Lemma firstn_keeps {A} (n : nat) (xs : list A) (x : A) :
  In x (firstn n xs) -> In x xs.
Proof.
  revert xs. induction n as [|n IH]; intros [|y xs]; simpl; try tauto.
  intros [H|H]; [auto|right; apply IH; exact H].
Qed.

Lemma find_append {A} (f : A -> bool) (xs ys : list A) :
  find f (xs ++ ys) =
  match find f xs with Some x => Some x | None => find f ys end.
Proof.
  induction xs as [|x xs IH]; simpl; [reflexivity|].
  destruct (f x); [reflexivity|exact IH].
Qed.


Ltac returned := eexists; eexists; reflexivity.

(** ** The conversions to a string return on a printable value *)

Section Printing.
Local Open Scope list_scope.
Local Open Scope nat_scope.

Context {number : Type} {host : Host number}.
#[local] Abbreviation jsval := (jsval number).

Lemma all_some_returns {A B} (f : A -> option B) (xs : list A) :
  Forall (fun x => exists b, f x = Some b) xs ->
  exists bs, all_some (map f xs) = Some bs.
Proof.
  induction 1 as [|x xs (b & Hb) _ (bs & IH)]; [exists []; reflexivity|].
  exists (b :: bs). cbn [map all_some]. rewrite Hb. cbn [and_then].
  rewrite IH. reflexivity.
Qed.

Lemma printable_index (ops : list jsval) (i : nat) :
  printable (JArray ops) = true -> printable (index ops i) = true.
Proof.
  cbn [printable]. rewrite forallb_forall. intros H. unfold index.
  destruct (nth_in_or_default i ops JUndefined) as [Hin|Hd];
    [auto|rewrite Hd; reflexivity].
Qed.

Lemma printable_operands operator (operands : jsval) rest :
  printable (JObject ((operator, operands) :: rest)) = true ->
  printable operands = true.
Proof.
  cbn [printable forallb snd]. intros H.
  apply andb_prop in H as [_ H]. apply andb_prop in H as [H _]. exact H.
Qed.

Lemma ToString_printable (v : jsval) :
  printable v = true -> exists s, ToString v = Some s.
Proof.
  induction v as [| | [|] | | |items IH|entries IH] using jsval_nested_ind;
    intros Hp; try (eexists; reflexivity).
  - cbn [ToString].
    destruct (all_some_returns
                (fun e : jsval => match e with
                                  | JUndefined | JNull => Some EmptyString
                                  | _ => ToString e
                                  end) items) as (parts & Hparts).
    + cbn [printable] in Hp. rewrite forallb_forall in Hp.
      rewrite Forall_forall in IH |- *. intros e Hin.
      specialize (IH e Hin (Hp e Hin)).
      destruct e; try (eexists; reflexivity); exact IH.
    + rewrite Hparts. eexists; reflexivity.
  - cbn [ToString]. cbn [printable] in Hp. apply andb_prop in Hp as [Hp _].
    destruct (has_key "toString" entries); [discriminate|].
    eexists; reflexivity.
Qed.

Section Labels.

Variable label : jsval -> option string.

Lemma joined_returns (sep : string) (ops : list jsval) :
  Forall (fun op => exists s, label op = Some s) ops ->
  exists s, joined label sep ops = Some s.
Proof.
  intros H. destruct (all_some_returns _ _ H) as (labels & Hl).
  unfold joined. rewrite Hl. eexists; reflexivity.
Qed.

Lemma label_arithmetic_returns operator operands :
  operands_labelled label operands ->
  exists s, label_arithmetic label operator operands = Some s.
Proof.
  intros [_ Hops]. unfold label_arithmetic.
  destruct (includes arithmetic_operators operator);
    destruct operands; try (eexists; reflexivity).
  apply joined_returns, Hops.
Qed.

Lemma label_membership_returns operator operands :
  operands_labelled label operands ->
  exists s, label_membership label operator operands = Some s.
Proof.
  intros H. unfold label_membership.
  destruct (operator =? "in")%string;
    [destruct operands as [ | | ? | ? | ? | [|needle [|haystack ?]] | ? ]|];
    try (apply label_arithmetic_returns, H).
  destruct H as [_ Hops].
  inversion Hops as [|? ? (n & Hn) Hops1]; subst.
  inversion Hops1 as [|? ? (h & Hh) _]; subst.
  rewrite Hn. cbn [and_then].
  destruct haystack; try rewrite Hh; eexists; reflexivity.
Qed.

Lemma label_negation_returns operator operands :
  operands_labelled label operands ->
  exists s, label_negation label operator operands = Some s.
Proof.
  intros H. unfold label_negation.
  destruct ((operator =? "!")%string || (operator =? "!!")%string)%bool;
    [|apply label_membership_returns, H].
  destruct H as [(s & Hs) Hops].
  destruct operands as [ | | ? | ? | ? | [|inner ?] | ? ];
    try (rewrite Hs; eexists; reflexivity).
  - eexists; reflexivity.
  - inversion Hops as [|? ? (i & Hi) _]; subst. rewrite Hi.
    eexists; reflexivity.
Qed.

Lemma label_logical_returns operator operands :
  operands_labelled label operands ->
  exists s, label_logical label operator operands = Some s.
Proof.
  intros H. unfold label_logical.
  destruct operands as [ | | ? | ? | ? | ops | ? ];
    try (apply label_negation_returns, H).
  destruct (operator =? "and")%string; [apply joined_returns, H|].
  destruct (operator =? "or")%string; [apply joined_returns, H|].
  apply label_negation_returns, H.
Qed.

Lemma label_comparison_returns operator operands :
  operands_labelled label operands ->
  exists s, label_comparison label operator operands = Some s.
Proof.
  intros H. unfold label_comparison.
  destruct (includes comparison_operators operator);
    [destruct operands as [ | | ? | ? | ? | [|l [|r ?]] | ? ]|];
    try (apply label_logical_returns, H).
  destruct H as [_ Hops].
  inversion Hops as [|? ? (a & Ha) Hops1]; subst.
  inversion Hops1 as [|? ? (b & Hb) _]; subst.
  rewrite Ha, Hb. eexists; reflexivity.
Qed.

Lemma label_operation_returns operator operands :
  printable operands = true ->
  operands_labelled label operands ->
  exists s, label_operation label operator operands = Some s.
Proof.
  intros Hp H. unfold label_operation.
  destruct (operator =? "var")%string; [|apply label_comparison_returns, H].
  destruct operands as [ | | ? | ? | ? | ops | ? ];
    try (eexists; reflexivity).
  destruct (ToString_printable _ (printable_index ops 0 Hp)) as (s & Hs).
  revert Hs.
  destruct (index ops 0) as [ | | ? | ? | [|? ?] | ? | ? ]; intros Hs;
    try (eexists; reflexivity); rewrite Hs; eexists; reflexivity.
Qed.

End Labels.

Lemma buildLabel_printable_strong (rule : jsval) :
  labelled rule /\
  match rule with
  | JArray items => Forall labelled items
  | _ => True
  end.
Proof.
  induction rule as [| | | | |items IH|entries IH] using jsval_nested_ind;
    (split; [intros Hp compact|]); auto; try (eexists; reflexivity).
  - cbn [buildLabel]. destruct (compact || _); [eexists; reflexivity|].
    destruct (all_some_returns (fun r => buildLabel r true) items)
      as (labels & Hl).
    + cbn [printable] in Hp. rewrite forallb_forall in Hp.
      rewrite Forall_forall in IH |- *. intros r Hin.
      apply (proj1 (IH r Hin) (Hp r Hin)).
    + rewrite Hl. eexists; reflexivity.
  - apply (Forall_impl _ (fun a H => proj1 H) IH).
  - destruct entries as [|[operator operands] rest]; [eexists; reflexivity|].
    cbn [buildLabel].
    pose proof (printable_operands _ _ _ Hp) as Hpo.
    inversion IH as [|? ? [Hoperands Hops] _]; subst. cbn [snd] in *.
    apply label_operation_returns; [exact Hpo|]. split.
    + apply (Hoperands Hpo).
    + destruct operands as [ | | ? | ? | ? | ops | ? ]; auto.
      cbn [printable] in Hpo. rewrite forallb_forall in Hpo.
      rewrite Forall_forall in Hops |- *. intros op Hin.
      apply (Hops op Hin (Hpo op Hin)).
Qed.

Lemma buildLabel_printable (rule : jsval) (compact : bool) :
  printable rule = true -> exists s, buildLabel rule compact = Some s.
Proof. intros Hp. apply (proj1 (buildLabel_printable_strong rule) Hp). Qed.

Lemma printable_item (items : list jsval) (item : jsval) :
  printable (JArray items) = true -> In item items -> printable item = true.
Proof. cbn [printable]. rewrite forallb_forall. auto. Qed.

Lemma formatVarName_printable (operands : jsval) :
  printable operands = true ->
  exists s, Mermaid.formatVarName operands = Some s.
Proof.
  intros Hp. destruct operands as [| | | | |ops|]; try (eexists; reflexivity).
  cbn [Mermaid.formatVarName].
  destruct (ToString_printable _ (printable_index ops 0 Hp)) as (s & ->).
  eexists; reflexivity.
Qed.

Lemma formatOperand_printable (operand : jsval) :
  printable operand = true ->
  exists s, Mermaid.formatOperand operand = Some s.
Proof.
  intros Hp.
  destruct operand as [| | [|] | | | |[|[operator operands] rest]];
    try (eexists; reflexivity).
  cbn [Mermaid.formatOperand].
  destruct (operator =? "var")%string; [|eexists; reflexivity].
  apply formatVarName_printable, (printable_operands _ _ _ Hp).
Qed.

Section Conditions.

Variable label : jsval -> option string.

Lemma condition_negation_returns operator operands :
  operands_labelled label operands ->
  exists s, Mermaid.condition_negation label operator operands = Some s.
Proof.
  intros [(s & Hs) Hops]. unfold Mermaid.condition_negation.
  destruct (operator =? "!")%string; [|eexists; reflexivity].
  destruct operands as [ | | ? | ? | ? | [|inner ?] | ? ];
    try (rewrite Hs; eexists; reflexivity).
  - eexists; reflexivity.
  - inversion Hops as [|? ? (i & Hi) _]; subst. rewrite Hi.
    eexists; reflexivity.
Qed.

Lemma condition_logical_returns operator operands :
  operands_labelled label operands ->
  exists s, Mermaid.condition_logical label operator operands = Some s.
Proof.
  intros H. unfold Mermaid.condition_logical.
  destruct operands as [ | | ? | ? | ? | ops | ? ];
    try (apply condition_negation_returns, H).
  destruct (operator =? "and")%string; [apply joined_returns, H|].
  destruct (operator =? "or")%string; [apply joined_returns, H|].
  apply condition_negation_returns, H.
Qed.

Lemma condition_membership_returns operator operands :
  printable operands = true ->
  operands_labelled label operands ->
  exists s, Mermaid.condition_membership label operator operands = Some s.
Proof.
  intros Hp H. unfold Mermaid.condition_membership.
  destruct (operator =? "in")%string;
    [destruct operands as [ | | ? | ? | ? | [|needle [|haystack ?]] | ? ]|];
    try (apply condition_logical_returns, H).
  destruct (formatOperand_printable needle) as (n & ->);
    [apply (printable_item _ _ Hp); left; reflexivity|].
  destruct (formatOperand_printable haystack) as (h & ->);
    [apply (printable_item _ _ Hp); right; left; reflexivity|].
  eexists; reflexivity.
Qed.

Lemma condition_comparison_returns operator operands :
  printable operands = true ->
  operands_labelled label operands ->
  exists s, Mermaid.condition_comparison label operator operands = Some s.
Proof.
  intros Hp H. unfold Mermaid.condition_comparison.
  destruct (includes comparison_operators operator);
    [destruct operands as [ | | ? | ? | ? | [|l [|r ?]] | ? ]|];
    try (apply condition_membership_returns; assumption).
  destruct (formatOperand_printable l) as (a & ->);
    [apply (printable_item _ _ Hp); left; reflexivity|].
  destruct (formatOperand_printable r) as (b & ->);
    [apply (printable_item _ _ Hp); right; left; reflexivity|].
  eexists; reflexivity.
Qed.

End Conditions.

Lemma buildConditionLabel_printable_strong (condition : jsval) :
  conditioned condition /\
  match condition with
  | JArray items => Forall conditioned items
  | _ => True
  end.
Proof.
  induction condition as [| | [|] | | |items IH|entries IH]
    using jsval_nested_ind;
    (split; [intros Hp|]); auto; try (eexists; reflexivity).
  - apply (Forall_impl _ (fun a H => proj1 H) IH).
  - destruct entries as [|[operator operands] rest]; [eexists; reflexivity|].
    pose proof (printable_operands _ _ _ Hp) as Hpo.
    inversion IH as [|? ? [Hoperands Hops] _]; subst. cbn [snd] in *.
    cbn [Mermaid.buildConditionLabel].
    apply condition_comparison_returns; [exact Hpo|]. split.
    + apply (Hoperands Hpo).
    + destruct operands as [ | | ? | ? | ? | ops | ? ]; auto.
      rewrite Forall_forall in Hops |- *. intros op Hin.
      apply (Hops op Hin (printable_item _ _ Hpo Hin)).
Qed.

Lemma buildConditionLabel_printable (condition : jsval) :
  printable condition = true ->
  exists s, Mermaid.buildConditionLabel condition = Some s.
Proof.
  intros Hp. apply (proj1 (buildConditionLabel_printable_strong condition) Hp).
Qed.

End Printing.

(** ** The tree builder returns *)

Section BuilderTermination.
Local Open Scope list_scope.
Local Open Scope nat_scope.

Context {number : Type} {host : Host number}.
#[local] Abbreviation jsval := (jsval number).

Lemma parseRuleToTree_unfold (fuel : nat) :
  @parseRuleToTree number host (S fuel)
  = parseRuleToTree_body (parseRuleToTree fuel) (createIfNode fuel).
Proof. reflexivity. Qed.

Lemma createIfNode_unfold (fuel : nat) :
  @createIfNode number host (S fuel)
  = createIfNode_body (parseRuleToTree fuel) (createChainedIfNode fuel)
      (createResultNode fuel).
Proof. reflexivity. Qed.

Lemma createResultNode_unfold (fuel : nat) :
  @createResultNode number host (S fuel)
  = createResultNode_body (parseRuleToTree fuel).
Proof. reflexivity. Qed.

Lemma weight_array (items : list jsval) :
  weight (JArray items) = S (list_sum (map (fun item => S (weight item)) items)).
Proof. reflexivity. Qed.

Lemma weight_object (entries : list (string * jsval)) :
  weight (JObject entries)
  = 4 + list_sum (map (fun kv => weight (snd kv)) entries).
Proof. reflexivity. Qed.

Lemma weight_positive (v : jsval) : 0 < weight v.
Proof. destruct v; simpl; lia. Qed.

Lemma weight_item (items : list jsval) (item : jsval) :
  In item items ->
  S (weight item) <= list_sum (map (fun item => S (weight item)) items).
Proof.
  induction items as [|x xs IH]; simpl; [tauto|].
  intros [->|Hin]; [lia|]. specialize (IH Hin). lia.
Qed.

Lemma returns_bind {St A B} (m : M St A) (k : A -> M St B) (s : St) :
  returns (m s) -> (forall a s', returns (k a s')) -> returns (bind m k s).
Proof.
  intros (a & s' & Hm) Hk. unfold bind. rewrite Hm. apply Hk.
Qed.

Lemma returns_mapi {St A B} (f : A -> nat -> M St B) (xs : list A) :
  (forall x i s, In x xs -> returns (f x i s)) ->
  forall i s, returns (mapi_from f xs i s).
Proof.
  induction xs as [|x xs IH]; intros Hf i s; simpl.
  - eexists; eexists; reflexivity.
  - apply returns_bind; [apply Hf; left; reflexivity|].
    intros y s'. apply returns_bind; [apply IH; intros; apply Hf; right; assumption|].
    intros ys s''. eexists; eexists; reflexivity.
Qed.

Lemma returns_completes {St A} (r : option A) (s : St) :
  (exists a, r = Some a) -> returns (completes r s).
Proof. intros (a & ->). eexists; eexists; reflexivity. Qed.

Lemma returns_createValueNode label (value : jsval) parentId depth path counter :
  returns (createValueNode label value parentId depth path counter).
Proof. eexists; eexists; reflexivity. Qed.

Lemma returns_createVariableNode (operands : jsval) parentId depth path counter :
  printable operands = true ->
  returns (createVariableNode operands parentId depth path counter).
Proof.
  intros Hp. unfold createVariableNode.
  destruct operands as [| | | | |ops|]; cbn;
    try (eexists; eexists; reflexivity).
  apply returns_bind.
  - apply returns_bind; [|intros; returned].
    apply returns_completes, ToString_printable, printable_index, Hp.
  - intros varName c. apply returns_bind; [returned|]. intros id c1.
    destruct (index ops 1); eexists; eexists; reflexivity.
Qed.

(** [createResultNode] returns when [parseRuleToTree] does on the result. *)
Lemma returns_createResultNode (fuel : nat) (result : jsval) :
  printable result = true ->
  (forall parentId depth path counter,
     returns (parseRuleToTree fuel result parentId depth path counter)) ->
  forall parentId depth path b counter,
    returns (createResultNode (S fuel) result parentId depth path b counter).
Proof.
  intros Hp Hparse parentId depth path b counter.
  rewrite createResultNode_unfold. unfold createResultNode_body.
  destruct result as [| |x|n|s|items|entries];
    try (eexists; eexists; reflexivity).
  - destruct x; returned.
  - destruct (first_key_is entries "var"); [|apply Hparse].
    apply returns_bind; [|intros; returned].
    apply returns_completes, buildLabel_printable, Hp.
Qed.

Lemma sound_item (items : list jsval) (item : jsval) :
  sound (JArray items) -> In item items -> sound item.
Proof.
  intros (Hj & Hc & Hp) Hin. simpl in Hj, Hc, Hp.
  rewrite forallb_forall in Hj, Hc, Hp. repeat split; auto.
Qed.

Lemma sound_entry (entries : list (string * jsval)) k (v : jsval) :
  sound (JObject entries) -> In (k, v) entries -> sound v.
Proof.
  intros (Hj & Hc & Hp) Hin. simpl in Hj, Hc, Hp.
  apply andb_prop in Hc as [_ Hc]. apply andb_prop in Hp as [_ Hp].
  rewrite forallb_forall in Hj, Hc, Hp.
  split; [exact (Hj _ Hin)|split; [exact (Hc _ Hin)|exact (Hp _ Hin)]].
Qed.

Lemma sound_defined (v : jsval) : sound v -> v <> JUndefined.
Proof. intros [Hj _] ->. discriminate. Qed.

Lemma sound_printable (v : jsval) : sound v -> printable v = true.
Proof. intros (_ & _ & Hp). exact Hp. Qed.

(** A result operand is built with one call more than its own tree needs. *)
Lemma returns_result (fuel : nat) (result : jsval) :
  (sound result -> builds result) -> sound result ->
  S (weight result) <= fuel ->
  forall parentId depth path b counter,
    returns (createResultNode fuel result parentId depth path b counter).
Proof.
  intros Hb Hs Hfuel. destruct fuel as [|fuel]; [lia|].
  apply returns_createResultNode; [apply sound_printable, Hs|].
  intros. apply (Hb Hs). lia.
Qed.

(** The chain: an odd number of operands, at least three. *)
Lemma returns_chain (n : nat) :
  forall (ops : list jsval) fuel,
    length ops = 2 * n + 3 ->
    Forall (fun op => sound op -> builds op) ops ->
    Forall sound ops ->
    2 + list_sum (map (fun item => S (weight item)) ops) <= fuel ->
    forall parentId depth path rule counter,
      returns (createChainedIfNode fuel ops parentId depth path rule counter).
Proof.
  induction n as [|n IH]; intros ops fuel Hlen Hall Hsound Hfuel
    parentId depth path rule counter;
    (destruct ops as [|c [|v rest]]; [simpl in Hlen; lia..|]);
    simpl in Hlen;
    inversion Hall as [|? ? _ Hall1]; subst;
    inversion Hall1 as [|? ? Hv Hrest]; subst;
    inversion Hsound as [|? ? Hsc Hsound1]; subst;
    inversion Hsound1 as [|? ? Hsv Hsrest]; subst;
    simpl in Hfuel;
    (destruct fuel as [|fuel]; [lia|]);
    rewrite createChainedIfNode_unfold; unfold createChainedIfNode_body;
    cbn [index nth];
    (apply returns_bind;
     [apply returns_completes, buildLabel_printable, sound_printable, Hsc|]);
    intros conditionLabel c0;
    apply returns_bind; try (eexists; eexists; reflexivity);
    intros id c1;
    (apply returns_bind; [apply (returns_result fuel v Hv Hsv); lia|]);
    intros trueNode c2; cbn [skipn].
  - destruct rest as [|d [|? ?]]; simpl in Hlen; try lia.
    cbn [length Nat.eqb index nth].
    inversion Hrest as [|? ? Hd _]; subst.
    inversion Hsrest as [|? ? Hsd _]; subst. simpl in Hfuel.
    apply returns_bind; [apply (returns_result fuel d Hd Hsd); lia|].
    intros; eexists; eexists; reflexivity.
  - assert (Hone : (length rest =? 1)%nat = false) by (apply Nat.eqb_neq; lia).
    rewrite Hone.
    apply returns_bind; [|intros; eexists; eexists; reflexivity].
    apply IH; auto; lia.
Qed.

Lemma odd_chain (k : nat) : Nat.odd k = true -> 3 < k -> exists n, k = 2 * n + 3.
Proof.
  intros Hodd Hk. apply Nat.odd_spec in Hodd as [m ->].
  exists (m - 1). lia.
Qed.

Lemma returns_createIfNode (ops : list jsval) (rule : jsval) (fuel : nat) :
  Forall (fun op => sound op -> builds op) ops ->
  Forall sound ops ->
  (length ops <=? 3)%nat || Nat.odd (length ops) = true ->
  3 + list_sum (map (fun item => S (weight item)) ops) <= fuel ->
  forall parentId depth path counter,
    returns (createIfNode fuel ops parentId depth path rule counter).
Proof.
  intros Hall Hsound Hshape Hfuel parentId depth path counter.
  destruct fuel as [|fuel]; [lia|].
  rewrite createIfNode_unfold. unfold createIfNode_body.
  destruct (length ops <? 2)%nat eqn:Hshort; [apply returns_createValueNode|].
  apply Nat.ltb_ge in Hshort.
  destruct (3 <? length ops)%nat eqn:Hlong.
  - apply Nat.ltb_lt in Hlong.
    assert (Hodd : Nat.odd (length ops) = true).
    { apply orb_prop in Hshape as [Hle|Hodd]; [|exact Hodd].
      apply Nat.leb_le in Hle. lia. }
    destruct (odd_chain _ Hodd Hlong) as (n & Hn).
    apply (returns_chain n); auto. lia.
  - apply Nat.ltb_ge in Hlong.
    destruct ops as [|c [|v rest]]; simpl in Hshort; try lia.
    inversion Hall as [|? ? _ Hall1]; subst;
    inversion Hall1 as [|? ? Hv Hrest]; subst;
    inversion Hsound as [|? ? Hsc Hsound1]; subst;
    inversion Hsound1 as [|? ? Hsv Hsrest]; subst.
    simpl in Hfuel. cbn [index nth].
    apply returns_bind;
      [apply returns_completes, buildLabel_printable, sound_printable, Hsc|].
    intros conditionLabel c0.
    apply returns_bind; [eexists; eexists; reflexivity|]. intros id c1.
    apply returns_bind; [apply (returns_result fuel v Hv Hsv); lia|].
    intros trueNode c2.
    destruct rest as [|e rest]; cbn [length Nat.ltb Nat.leb];
      [eexists; eexists; reflexivity|].
    inversion Hrest as [|? ? He _]; subst.
    inversion Hsrest as [|? ? Hse _]; subst. simpl in Hfuel.
    change (2 <? S (S (S (length rest))))%nat with true. cbn iota.
    cbn [index nth].
    apply returns_bind; [|intros; eexists; eexists; reflexivity].
    assert (Hres : forall b c, returns (createResultNode fuel e id (S depth)
                                          (path ++ ["else"])%list b c)).
    { intros. apply (returns_result fuel e He Hse). lia. }
    destruct e as [| | | | | |elseEntries]; try apply Hres.
    destruct (first_key_is elseEntries "if" || first_key_is elseEntries "?:");
      [|apply Hres].
    apply (He Hse). lia.
Qed.

Lemma builds_strong (rule : jsval) :
  (sound rule -> builds rule) /\
  match rule with
  | JArray items => Forall (fun op => sound op -> builds op) items
  | _ => True
  end.
Proof.
  induction rule as [| | | | |items IH|entries IH] using jsval_nested_ind;
    (split; [intros Hs fuel parentId depth path counter Hfuel|]); auto.
  - destruct Hs as [Hj _]. discriminate.
  - destruct fuel; [simpl in Hfuel; lia|]. returned.
  - destruct fuel; [simpl in Hfuel; lia|]. returned.
  - destruct fuel; [simpl in Hfuel; lia|]. returned.
  - destruct fuel; [simpl in Hfuel; lia|]. returned.
  - rewrite weight_array in Hfuel. destruct fuel as [|fuel]; [lia|].
    rewrite parseRuleToTree_unfold. unfold parseRuleToTree_body.
    apply returns_bind; [returned|]. intros _ c0.
    apply returns_bind; [returned|]. intros id c1.
    apply returns_bind; [|intros; returned].
    apply returns_mapi. intros item i s Hin.
    rewrite Forall_forall in IH.
    apply (proj1 (IH item Hin) (sound_item _ _ Hs Hin)).
    pose proof (weight_item items item Hin). lia.
  - apply (Forall_impl _ (fun a H => proj1 H) IH).
  - rewrite weight_object in Hfuel. destruct fuel as [|fuel]; [lia|].
    rewrite parseRuleToTree_unfold. unfold parseRuleToTree_body.
    apply returns_bind; [returned|]. intros _ c0.
    destruct entries as [|[operator operands] rest];
      [apply returns_createValueNode|].
    assert (Hso : sound operands)
      by (apply (sound_entry _ operator _ Hs); left; reflexivity).
    destruct (operator =? "var")%string;
      [apply returns_createVariableNode, sound_printable, Hso|].
    inversion IH as [|? ? [Hoperands Hops] _]; subst. cbn [snd] in *.
    simpl in Hfuel. cbv zeta.
    pose proof (buildLabel_printable _ false (sound_printable _ Hs))
      as Hlabel.
    destruct ((operator =? "if")%string || (operator =? "?:")%string)
      eqn:Hif;
      destruct operands as [| | | | |ops|es]; cbv beta iota;
      try (apply returns_bind; [apply returns_completes, Hlabel|];
           intros label c00;
           apply returns_bind; [returned|]; intros id c1;
           apply returns_bind; [|intros; returned]).
    all: try returned.
    + (* a conditional *)
      destruct Hs as (_ & Hc & _). cbn [chains_end] in Hc.
      apply andb_prop in Hc as [Hshape _].
      unfold is_conditional in Hshape. rewrite Hif in Hshape.
      cbn [negb orb] in Hshape.
      apply returns_createIfNode; auto.
      * apply Forall_forall. intros op Hin. exact (sound_item _ _ Hso Hin).
      * rewrite weight_array in Hfuel. lia.
    + apply returns_bind; [|intros; returned].
      apply (Hoperands Hso). lia.
    + destruct (existsb isComplexOperand ops); [|returned].
      apply returns_mapi. intros op i s Hin.
      apply filter_In in Hin as [Hin _].
      rewrite Forall_forall in Hops.
      apply (Hops op Hin (sound_item _ _ Hso Hin)).
      rewrite weight_array in Hfuel.
      pose proof (weight_item ops op Hin). lia.
    + apply returns_bind; [|intros; returned].
      apply (Hoperands Hso). lia.
Qed.

(** X1.  On a rule that is a JSON value, in which every [if] or [?:] with
    more than three operands has an odd number of them and no object has a
    property named [toString], [parseRuleToTree] returns a tree and raises
    nothing: [weight rule] nested calls are enough, whatever the parent,
    depth, path and counter it is called with. *)
Theorem parseRuleToTree_returns :
  forall (rule : jsval) (fuel : nat) (parentId : option string)
         (depth : nat) (path : list string) (counter : nat),
    json_value rule = true -> chains_end rule = true ->
    printable rule = true ->
    weight rule <= fuel ->
    exists tree counter',
      parseRuleToTree fuel rule parentId depth path counter
      = Returns (tree, counter').
Proof.
  intros rule fuel parentId depth path counter Hj Hc Hp Hfuel.
  exact (proj1 (builds_strong rule) (conj Hj (conj Hc Hp)) fuel parentId
           depth path counter Hfuel).
Qed.

(** X27.  A variable whose path starts with an object that has a property
    named [toString] makes the tree builder throw: [createVariableNode]
    converts the first entry of the path to a string, and that conversion
    throws a [TypeError].  No tree is returned. *)
Theorem parseRuleToTree_var_throws :
  forall (fuel : nat) (entries : list (string * jsval)) (others : list jsval)
         (rest : list (string * jsval)) (parentId : option string)
         (depth : nat) (path : list string) (counter : nat),
    has_key "toString" entries = true ->
    parseRuleToTree (S fuel)
      (JObject (("var", JArray (JObject entries :: others)) :: rest))
      parentId depth path counter
    = Throws TypeError.
Proof.
  intros fuel entries others rest parentId depth path counter Hkey.
  rewrite parseRuleToTree_unfold.
  unfold parseRuleToTree_body, bind, createVariableNode, bind.
  cbn [reset_at_root String.eqb Ascii.eqb Bool.eqb index nth ToString].
  rewrite Hkey. reflexivity.
Qed.

(** X2.  On an [if] or a [?:] with more than three operands and an even
    number of them [parseRuleToTree] never returns a tree, whatever the
    operands are and however many nested calls it is allowed. *)
Theorem parseRuleToTree_even_chain :
  forall (fuel : nat) (operator : string) (ops : list jsval)
         (rest : list (string * jsval)) (parentId : option string)
         (depth : nat) (path : list string) (counter : nat) r,
    is_conditional operator = true ->
    3 < length ops -> Nat.even (length ops) = true ->
    parseRuleToTree fuel (JObject ((operator, JArray ops) :: rest))
      parentId depth path counter <> Returns r.
Proof.
  intros fuel operator ops rest parentId depth path counter r Hop Hlen Heven.
  destruct fuel as [|fuel]; [discriminate|].
  rewrite parseRuleToTree_unfold. unfold parseRuleToTree_body, bind.
  cbn [reset_at_root].
  assert (Hvar : (operator =? "var")%string = false).
  { unfold is_conditional in Hop. apply orb_prop in Hop as [H|H];
      apply String.eqb_eq in H; subst; reflexivity. }
  rewrite Hvar. unfold is_conditional in Hop. rewrite Hop.
  destruct fuel as [|fuel]; [discriminate|].
  rewrite createIfNode_unfold. unfold createIfNode_body.
  assert (H2 : (length ops <? 2) = false) by (apply Nat.ltb_ge; lia).
  assert (H3 : (3 <? length ops) = true) by (apply Nat.ltb_lt; lia).
  rewrite H2, H3. apply createChainedIfNode_even. exact Heven.
Qed.


End BuilderTermination.

(** ** The ids and the links of a built tree *)

Section BuilderIds.
Local Open Scope list_scope.
Local Open Scope nat_scope.

Context {number : Type} {host : Host number}.
#[local] Abbreviation TreeNode := (TreeNode number).
#[local] Abbreviation jsval := (jsval number).

Lemma bind_returns {St A B} (m : M St A) (k : A -> M St B) (s : St) r :
  bind m k s = Returns r ->
  exists a s', m s = Returns (a, s') /\ k a s' = Returns r.
Proof.
  unfold bind. destruct (m s) as [[a s']| |]; try discriminate.
  intros H. exists a, s'. auto.
Qed.

Lemma completes_returns {St A} (r : option A) (s : St) a s' :
  completes r s = Returns (a, s') -> r = Some a /\ s' = s.
Proof.
  destruct r as [x|]; [|discriminate]. intros H. injection H as <- <-. auto.
Qed.

(** The first step of a call that returned was a conversion. *)
Ltac converted H label :=
  let c := fresh "c" in
  let Hl := fresh "Hl" in
  apply bind_returns in H as (label & c & Hl & H);
  apply completes_returns in Hl as [Hl ->].

Lemma node_ids_app (from a b : nat) :
  node_ids from (a + b) = node_ids from a ++ node_ids (from + a) b.
Proof. unfold node_ids. rewrite seq_app, map_app. reflexivity. Qed.

Lemma node_ids_one (from : nat) :
  node_ids from 1 = [("node-" ++ nat_toString from)%string].
Proof. reflexivity. Qed.

Lemma node_ids_cons (from count : nat) :
  node_ids from (S count)
  = ("node-" ++ nat_toString from)%string :: node_ids (S from) count.
Proof. reflexivity. Qed.

Lemma NoDup_map_injective {A B} (f : A -> B) (xs : list A) :
  (forall a b, f a = f b -> a = b) -> NoDup xs -> NoDup (map f xs).
Proof.
  intros Hf. induction 1 as [|x xs Hx _ IH]; simpl; constructor; auto.
  intros Hin. apply in_map_iff in Hin as (y & Heq & Hy).
  apply Hf in Heq. subst. contradiction.
Qed.

Lemma node_ids_NoDup (from count : nat) : NoDup (node_ids from count).
Proof.
  unfold node_ids. apply NoDup_map_injective; [|apply seq_NoDup].
  intros a b H. apply nat_toString_injective.
  simpl in H. congruence.
Qed.

Lemma forest_built_nil parentId depth c :
  forest_built (@nil TreeNode) parentId depth c c.
Proof. repeat split; [constructor|simpl; lia]. Qed.

Lemma forest_built_cons (t : TreeNode) ts parentId depth c c1 c2 :
  built t parentId depth c c1 ->
  forest_built ts parentId depth c1 c2 ->
  forest_built (t :: ts) parentId depth c c2.
Proof.
  intros (Hp & Hd & Hids & -> & Hl) (Hall & Hfids & ->).
  split; [constructor; auto|].
  unfold forest_ids, sizes in *. simpl. fold (sizes ts).
  split; [|lia].
  rewrite node_ids_app, Hids, Hfids. do 2 f_equal. 
Qed.

(** A node whose children were built right after its own id was taken. *)
Lemma built_node (n : Node number TreeNode) parentId depth c c' :
  node_id n = ("node-" ++ nat_toString (S c))%string ->
  node_parent n = parentId -> node_depth n = depth ->
  forest_built (node_children n) (Some (node_id n)) (S depth) (S c) c' ->
  built (Tree n) parentId depth c c'.
Proof.
  intros Hid Hp Hd (Hall & Hids & ->).
  split; [exact Hp|]. split; [exact Hd|].
  rewrite tree_ids_unfold, size_unfold, Hids, node_ids_cons, Hid.
  split; [reflexivity|]. split; [lia|].
  simpl. rewrite Hd. clear Hids.
  induction Hall as [|t ts Ht _ IH]; simpl; auto.
Qed.

Lemma mapi_from_built {A} (f : A -> nat -> Gen TreeNode) parentId depth
    (xs : list A) :
  (forall x i c t c', f x i c = Returns (t, c') ->
                      built t parentId depth c c') ->
  forall i c ts c',
    mapi_from f xs i c = Returns (ts, c') ->
    forest_built ts parentId depth c c'.
Proof.
  intros Hf. induction xs as [|x xs IH]; intros i c ts c' Hrun; simpl in Hrun.
  - injection Hrun as <- <-. apply forest_built_nil.
  - apply bind_returns in Hrun as (t & c1 & Ht & Hrun).
    apply bind_returns in Hrun as (ts' & c2 & Hts & Hrun).
    injection Hrun as <- <-.
    eapply forest_built_cons; [eapply Hf; exact Ht|eapply IH; exact Hts].
Qed.

Lemma built_leaf (n : Node number TreeNode) parentId depth c :
  node_id n = ("node-" ++ nat_toString (S c))%string ->
  node_parent n = parentId -> node_depth n = depth ->
  node_children n = [] ->
  built (Tree n) parentId depth c (S c).
Proof.
  intros Hid Hp Hd Hkids. apply built_node; auto.
  rewrite Hkids. apply forest_built_nil.
Qed.

Lemma forest_built_one (t : TreeNode) parentId depth c c' :
  built t parentId depth c c' -> forest_built [t] parentId depth c c'.
Proof.
  intros H. eapply forest_built_cons; [exact H|apply forest_built_nil].
Qed.

Lemma forest_built_two (t u : TreeNode) parentId depth c c1 c2 :
  built t parentId depth c c1 -> built u parentId depth c1 c2 ->
  forest_built [t; u] parentId depth c c2.
Proof.
  intros Ht Hu. eapply forest_built_cons; [exact Ht|].
  apply forest_built_one. exact Hu.
Qed.

Ltac leaf H :=
  injection H as <- <-; apply built_leaf; reflexivity.

Lemma createValueNode_built label (value : jsval) parentId depth path c t c' :
  createValueNode label value parentId depth path c = Returns (t, c') ->
  built t parentId depth c c'.
Proof. intros H. leaf H. Qed.

Lemma createVariableNode_built (operands : jsval) parentId depth path c t c' :
  createVariableNode operands parentId depth path c = Returns (t, c') ->
  built t parentId depth c c'.
Proof.
  unfold createVariableNode. intros H.
  apply bind_returns in H as (varName & c0 & Hname & H).
  assert (c0 = c) as ->.
  { destruct operands as [| | | | |ops|];
      try (injection Hname as _ <-; reflexivity).
    converted Hname printed. injection Hname as _ <-. reflexivity. }
  clear Hname.
  destruct (match operands with JArray ops => index ops 1 | _ => JUndefined end);
    cbn in H; try (leaf H);
    injection H as <- <-;
    (apply built_node; try reflexivity;
     apply forest_built_one; apply built_leaf; reflexivity).
Qed.

Lemma result_built_step (fuel : nat) :
  parse_built fuel -> result_built (S fuel).
Proof.
  intros Hparse result parentId depth path b c t c' H.
  rewrite createResultNode_unfold in H. unfold createResultNode_body in H.
  destruct result as [| |[|]|n|s|items|entries]; try (leaf H).
  destruct (first_key_is entries "var"); [converted H label; leaf H|].
  exact (Hparse _ _ _ _ _ _ _ H).
Qed.

Lemma chain_built_step (fuel : nat) :
  chain_built fuel -> result_built fuel -> chain_built (S fuel).
Proof.
  intros Hchain Hresult ops parentId depth path rule c t c' H.
  rewrite createChainedIfNode_unfold in H.
  unfold createChainedIfNode_body in H.
  converted H conditionLabel.
  apply bind_returns in H as (id & c1 & Hid & H).
  injection Hid as <- <-.
  apply bind_returns in H as (trueNode & c2 & Htrue & H).
  apply Hresult in Htrue.
  apply bind_returns in H as (elseNode & c3 & Helse & H).
  injection H as <- <-.
  apply built_node; try reflexivity. cbn [node_children node_id].
  apply (forest_built_two _ _ _ _ _ c2); [exact Htrue|].
  destruct (length (skipn 2 ops) =? 1)%nat.
  - exact (Hresult _ _ _ _ _ _ _ _ Helse).
  - exact (Hchain _ _ _ _ _ _ _ _ Helse).
Qed.

Lemma if_built_step (fuel : nat) :
  parse_built fuel -> chain_built fuel -> result_built fuel ->
  if_built (S fuel).
Proof.
  intros Hparse Hchain Hresult ops parentId depth path rule c t c' H.
  rewrite createIfNode_unfold in H. unfold createIfNode_body in H.
  destruct (length ops <? 2)%nat;
    [exact (createValueNode_built _ _ _ _ _ _ _ _ H)|].
  destruct (3 <? length ops)%nat; [exact (Hchain _ _ _ _ _ _ _ _ H)|].
  converted H conditionLabel.
  apply bind_returns in H as (id & c1 & Hid & H).
  injection Hid as <- <-.
  apply bind_returns in H as (trueNode & c2 & Htrue & H).
  apply Hresult in Htrue.
  destruct (2 <? length ops)%nat.
  - apply bind_returns in H as (elseNode & c3 & Helse & H).
    injection H as <- <-.
    apply built_node; try reflexivity. cbn [node_children node_id].
    apply (forest_built_two _ _ _ _ _ c2); [exact Htrue|].
    destruct (index ops 2) as [| | | | | |elseEntries];
      try exact (Hresult _ _ _ _ _ _ _ _ Helse).
    destruct (first_key_is elseEntries "if" || first_key_is elseEntries "?:").
    + exact (Hparse _ _ _ _ _ _ _ Helse).
    + exact (Hresult _ _ _ _ _ _ _ _ Helse).
  - injection H as <- <-.
    apply built_node; try reflexivity. cbn [node_children node_id].
    apply forest_built_one. exact Htrue.
Qed.

Lemma parse_built_step (fuel : nat) :
  parse_built fuel -> if_built fuel -> parse_built (S fuel).
Proof.
  intros Hparse Hif rule parentId depth path c t c' H.
  rewrite parseRuleToTree_unfold in H. unfold parseRuleToTree_body in H.
  apply bind_returns in H as ([] & c0 & Hreset & H).
  injection Hreset as <-.
  set (c0 := if depth =? 0 then 0 else c) in *.
  assert (Hkids : forall (f : jsval -> nat -> list string) id ops i c1 ts c2,
            mapi_from (fun op i => parseRuleToTree fuel op (Some id) (S depth)
                                     (f op i)) ops i c1 = Returns (ts, c2) ->
            forest_built ts (Some id) (S depth) c1 c2).
  { intros f id ops i c1 ts c2 Hrun.
    apply (mapi_from_built _ _ _ _
             (fun x i c t c' Hx => Hparse x (Some id) (S depth) _ c t c' Hx)
             _ _ _ _ Hrun). }
  destruct rule as [| |x|n|s|items|entries];
    try exact (createValueNode_built _ _ _ _ _ _ _ _ H).
  - discriminate.
  - apply bind_returns in H as (id & c1 & Hid & H). injection Hid as <- <-.
    apply bind_returns in H as (children & c2 & Hchildren & H).
    injection H as <- <-.
    apply built_node; try reflexivity. cbn [node_children node_id].
    exact (Hkids (fun _ i => path ++ [("[" ++ nat_toString i ++ "]")%string])
             _ _ _ _ _ _ Hchildren).
  - destruct entries as [|[operator operands] rest];
      [exact (createValueNode_built _ _ _ _ _ _ _ _ H)|].
    destruct (operator =? "var")%string;
      [exact (createVariableNode_built _ _ _ _ _ _ _ H)|].
    cbv zeta in H.
    destruct ((operator =? "if")%string || (operator =? "?:")%string);
      destruct operands as [| | | | |ops|es]; cbv beta iota in H;
      try exact (Hif _ _ _ _ _ _ _ _ H);
      converted H label;
      apply bind_returns in H as (id & c1 & Hid & H);
      injection Hid as <- <-;
      apply bind_returns in H as (children & c2 & Hchildren & H);
      injection H as <- <-;
      (apply built_node; try reflexivity); cbn [node_children node_id];
      try (injection Hchildren as <- <-; apply forest_built_nil).
    + apply bind_returns in Hchildren as (child & c3 & Hchild & Hret).
      injection Hret as <- <-. apply forest_built_one.
      exact (Hparse _ _ _ _ _ _ _ Hchild).
    + destruct (existsb isComplexOperand ops).
      * exact (Hkids (fun _ i => path ++ [operator;
                                   ("[" ++ nat_toString i ++ "]")%string])
                 _ _ _ _ _ _ Hchildren).
      * injection Hchildren as <- <-. apply forest_built_nil.
    + apply bind_returns in Hchildren as (child & c3 & Hchild & Hret).
      injection Hret as <- <-. apply forest_built_one.
      exact (Hparse _ _ _ _ _ _ _ Hchild).
Qed.

Lemma built_all (fuel : nat) :
  parse_built fuel /\ if_built fuel /\ chain_built fuel /\ result_built fuel.
Proof.
  induction fuel as [|fuel (Hparse & Hif & Hchain & Hresult)].
  - unfold parse_built, if_built, chain_built, result_built.
    split; [|split; [|split]]; intros; discriminate.
  - split; [apply parse_built_step; assumption|].
    split; [apply if_built_step; assumption|].
    split; [apply chain_built_step; assumption|].
    apply result_built_step; assumption.
Qed.

(** X3.  Whenever a call of [parseRuleToTree] at depth 0 returns a tree,
    the ids of its nodes, in the order of [flattenTree], are [node-1],
    [node-2], ... up to the number of nodes: no two nodes share an id, and
    the counter is left at the number of nodes. *)
Theorem parseRuleToTree_ids :
  forall (fuel : nat) (rule : jsval) (parentId : option string)
         (path : list string) (counter : nat) (tree : TreeNode)
         (counter' : nat),
    parseRuleToTree fuel rule parentId 0 path counter
    = Returns (tree, counter') ->
    tree_ids tree = node_ids 1 (size tree) /\
    NoDup (tree_ids tree) /\
    counter' = size tree.
Proof.
  intros fuel rule parentId path counter tree counter' H.
  destruct (proj1 (built_all fuel) _ _ _ _ _ _ _ H)
    as (_ & _ & Hids & Hc & _).
  split; [exact Hids|]. split; [rewrite Hids; apply node_ids_NoDup|].
  simpl in Hc. exact Hc.
Qed.

(** X4.  Whenever [parseRuleToTree] returns a tree, its root has the
    parent and the depth the call was given, and throughout the tree every
    child names its parent's id in [parent] and has the depth of its parent
    plus one. *)
Theorem parseRuleToTree_links :
  forall (fuel : nat) (rule : jsval) (parentId : option string)
         (depth : nat) (path : list string) (counter : nat)
         (tree : TreeNode) (counter' : nat),
    parseRuleToTree fuel rule parentId depth path counter
    = Returns (tree, counter') ->
    node_parent tree = parentId /\ node_depth tree = depth /\ linked tree.
Proof.
  intros fuel rule parentId depth path counter tree counter' H.
  destruct (proj1 (built_all fuel) _ _ _ _ _ _ _ H)
    as (Hp & Hd & _ & _ & Hl).
  auto.
Qed.


End BuilderIds.

(** ** Listing, finding and copying nodes *)

Section HeapExtras.
Local Open Scope list_scope.
Local Open Scope nat_scope.

Context {number : Type} {host : Host number}.
#[local] Abbreviation TreeNode := (TreeNode number).
#[local] Abbreviation heap := (heap number).

Lemma flatten_rep_children (fuel : nat) (h : heap) (cs : list TreeNode) :
  Forall (fun c => forall l, rep h l c -> height c <= fuel ->
            exists ls, flattenTree fuel l h = Returns (ls, h) /\
                       Forall2 (rep h) ls (preorder c)) cs ->
  forall ls, pairwise (fun l c => rep h l c) ls cs ->
    heights cs <= fuel ->
    exists below,
      mapM (flattenTree fuel) ls h = Returns (below, h) /\
      Forall2 (rep h) (concat below) (flat_map preorder cs).
Proof.
  induction 1 as [|c cs Hc _ IH]; intros [|l ls] Hrep Hfuel;
    simpl in Hrep; try contradiction.
  - exists []. split; [reflexivity|constructor].
  - destruct Hrep as [Hr Hrest].
    unfold heights in Hfuel. simpl in Hfuel. fold (heights cs) in Hfuel.
    destruct (Hc l Hr ltac:(lia)) as (here & Hrun & Hhere).
    destruct (IH ls Hrest ltac:(lia)) as (below & Hmap & Hbelow).
    exists (here :: below). rewrite mapM_cons. unfold bind.
    rewrite Hrun, Hmap. split; [reflexivity|].
    simpl. apply Forall2_app; assumption.
Qed.

Lemma flatten_rep (t : TreeNode) :
  forall fuel (h : heap) l,
    rep h l t -> height t <= fuel ->
    exists ls, flattenTree fuel l h = Returns (ls, h) /\
               Forall2 (rep h) ls (preorder t).
Proof.
  induction t as [n IH] using TreeNode_nested_ind.
  intros fuel h l Hrep Hfuel. rewrite height_unfold in Hfuel.
  destruct fuel as [|fuel]; [lia|].
  pose proof Hrep as (o & Ho & Hn & Hkids).
  destruct (flatten_rep_children fuel h _
              (Forall_impl _ (fun c Hc => Hc fuel h) IH) _ Hkids ltac:(lia))
    as (below & Hmap & Hbelow).
  exists (l :: concat below).
  cbn [flattenTree]. unfold bind, deref. rewrite Ho, Hmap.
  split; [reflexivity|]. rewrite preorder_unfold.
  constructor; [exact Hrep|exact Hbelow].
Qed.

(** X5.  [flattenTree] returns the nodes of the tree, each node before its
    children and the children in order, the root first, as many as the
    tree has; the store is left as it was. *)
Theorem flattenTree_preorder :
  forall (fuel : nat) (h : heap) (root : loc) (t : TreeNode),
    rep h root t -> height t <= fuel ->
    exists nodes,
      flattenTree fuel root h = Returns (nodes, h) /\
      Forall2 (rep h) nodes (preorder t) /\
      length nodes = size t /\
      hd_error nodes = Some root.
Proof.
  intros fuel h root t Hrep Hfuel.
  destruct (flatten_rep t fuel h root Hrep Hfuel) as (ls & Hrun & Hall).
  exists ls. split; [exact Hrun|]. split; [exact Hall|].
  split.
  - rewrite (Forall2_length Hall). clear.
    induction t as [n IH] using TreeNode_nested_ind.
    rewrite preorder_unfold, size_unfold. simpl. f_equal.
    induction IH as [|c cs Hc _ IHcs]; simpl; [reflexivity|].
    rewrite length_app, Hc, IHcs. reflexivity.
  - destruct t as [n]. destruct fuel as [|fuel];
      [rewrite height_unfold in Hfuel; lia|].
    cbn [flattenTree] in Hrun. unfold bind, deref in Hrun.
    destruct Hrep as (o & Ho & _). rewrite Ho in Hrun.
    destruct (mapM _ _ h) as [[below h1]| |]; try discriminate.
    injection Hrun as <- _. reflexivity.
Qed.

Lemma find_rep_children (fuel : nat) (id : string) (h : heap)
    (cs : list TreeNode) :
  Forall (fun c => forall l, rep h l c -> height c <= fuel ->
            found_first id h (findNodeById fuel l id h) (preorder c)) cs ->
  forall ls, pairwise (fun l c => rep h l c) ls cs ->
    heights cs <= fuel ->
    found_first id h
      (first_found (fun c => findNodeById fuel c id) ls h)
      (flat_map preorder cs).
Proof.
  induction 1 as [|c cs Hc _ IH]; intros [|l ls] Hrep Hfuel;
    simpl in Hrep; try contradiction; [reflexivity|].
  destruct Hrep as [Hr Hrest].
  unfold heights in Hfuel. simpl in Hfuel. fold (heights cs) in Hfuel.
  specialize (Hc l Hr ltac:(lia)). specialize (IH ls Hrest ltac:(lia)).
  unfold found_first in *. cbn [flat_map first_found]. rewrite find_append.
  unfold bind. destruct (find (has_id id) (preorder c)) as [s|].
  - destruct Hc as (p & -> & Hp). exists p. split; [reflexivity|exact Hp].
  - rewrite Hc. exact IH.
Qed.

Lemma find_rep (id : string) (t : TreeNode) :
  forall fuel (h : heap) l,
    rep h l t -> height t <= fuel ->
    found_first id h (findNodeById fuel l id h) (preorder t).
Proof.
  induction t as [n IH] using TreeNode_nested_ind.
  intros fuel h l Hrep Hfuel. rewrite height_unfold in Hfuel.
  destruct fuel as [|fuel]; [lia|].
  pose proof Hrep as (o & Ho & Hn & Hkids).
  destruct (object_of_node _ _ _ Hn) as (Hid & _).
  unfold found_first. rewrite preorder_unfold. cbn [find findNodeById].
  unfold bind, deref. rewrite Ho, Hid. unfold has_id at 1. cbn [fields].
  destruct (node_id n =? id)%string.
  - exists l. split; [reflexivity|exact Hrep].
  - exact (find_rep_children fuel id h _
             (Forall_impl _ (fun c Hc => Hc fuel h) IH) _ Hkids ltac:(lia)).
Qed.

(** X6.  [findNodeById] returns the first node, in the order of
    [flattenTree], whose id is the one asked for: no node before it has
    that id.  It returns [null] only when no node of the tree has the id.
    The store is left as it was. *)
Theorem findNodeById_first_match :
  forall (fuel : nat) (h : heap) (root : loc) (t : TreeNode) (id : string),
    rep h root t -> height t <= fuel ->
    exists result,
      findNodeById fuel root id h = Returns (result, h) /\
      match result with
      | Some p =>
          exists s before after,
            rep h p s /\ node_id s = id /\
            preorder t = (before ++ s :: after)%list /\
            ~ In id (map (fun d : TreeNode => node_id d) before)
      | None => ~ In id (tree_ids t)
      end.
Proof.
  intros fuel h root t id Hrep Hfuel.
  pose proof (find_rep id t fuel h root Hrep Hfuel) as Hfind.
  unfold found_first in Hfind.
  destruct (find (has_id id) (preorder t)) as [s|] eqn:Hs.
  - destruct Hfind as (p & Hrun & Hp). exists (Some p).
    split; [exact Hrun|]. exists s.
    clear Hrun Hrep Hfuel. revert Hs. generalize (preorder t) as nodes.
    induction nodes as [|d nodes IH]; simpl; [discriminate|].
    destruct (has_id id d) eqn:Hd.
    + intros [= ->]. exists [], nodes. split; [exact Hp|].
      split; [apply String.eqb_eq; exact Hd|]. split; [reflexivity|].
      simpl. tauto.
    + intros Hrest. destruct (IH Hrest) as (before & after & H1 & H2 & H3 & H4).
      exists (d :: before), after. split; [exact H1|]. split; [exact H2|].
      split; [simpl; rewrite H3; reflexivity|].
      simpl. intros [Heq|Hin]; [|contradiction].
      unfold has_id in Hd. apply String.eqb_neq in Hd. contradiction.
  - exists None. split; [exact Hfind|].
    unfold tree_ids. intros Hin. apply in_map_iff in Hin as (d & Hd & Hin).
    pose proof (find_none _ _ Hs d Hin) as Hno. unfold has_id in Hno.
    apply String.eqb_neq in Hno. contradiction.
Qed.

Lemma traverse_children (fuel : nat) (id : string) (h : heap)
    (cs : list TreeNode) :
  Forall (fun c => forall l pre, rep h l c -> height c <= fuel ->
            path_found id h c (preorder c) pre (traverse fuel id l pre h)) cs ->
  forall ls pre, pairwise (fun l c => rep h l c) ls cs ->
    heights cs <= fuel ->
    match find (has_id id) (flat_map preorder cs) with
    | Some s =>
        exists c ls' path front,
          In c cs /\
          any_child (traverse fuel id) ls pre h
          = Returns ((true, (pre ++ ls')%list), h) /\
          Forall2 (rep h) ls' path /\
          hd_error path = Some c /\ path = (front ++ [s])%list /\
          descends path
    | None => any_child (traverse fuel id) ls pre h = Returns ((false, pre), h)
    end.
Proof.
  induction 1 as [|c cs Hc _ IH]; intros [|l ls] pre Hrep Hfuel;
    simpl in Hrep; try contradiction; [reflexivity|].
  destruct Hrep as [Hr Hrest].
  unfold heights in Hfuel. simpl in Hfuel. fold (heights cs) in Hfuel.
  specialize (Hc l pre Hr ltac:(lia)).
  specialize (IH ls pre Hrest ltac:(lia)).
  unfold path_found in Hc. cbn [flat_map any_child]. rewrite find_append.
  unfold bind. destruct (find (has_id id) (preorder c)) as [s|].
  - destruct Hc as (ls' & path & front & -> & H1 & H2 & H3 & H4).
    exists c, ls', path, front. simpl. auto 10.
  - rewrite Hc. simpl.
    destruct (find (has_id id) (flat_map preorder cs)) as [s|].
    + destruct IH as (c' & ls' & path & front & H0 & H1 & H2 & H3 & H4 & H5).
      exists c', ls', path, front. simpl. auto 10.
    + exact IH.
Qed.

Lemma traverse_rep (id : string) (t : TreeNode) :
  forall fuel (h : heap) l pre,
    rep h l t -> height t <= fuel ->
    path_found id h t (preorder t) pre (traverse fuel id l pre h).
Proof.
  induction t as [n IH] using TreeNode_nested_ind.
  intros fuel h l pre Hrep Hfuel. rewrite height_unfold in Hfuel.
  destruct fuel as [|fuel]; [lia|].
  pose proof Hrep as (o & Ho & Hn & Hkids).
  destruct (object_of_node _ _ _ Hn) as (Hid & _).
  unfold path_found. rewrite preorder_unfold. cbn [find traverse].
  unfold bind, deref. rewrite Ho, Hid. unfold has_id at 1. cbn [fields].
  destruct (node_id n =? id)%string.
  - exists [l], [Tree n], []. split; [reflexivity|].
    split; [constructor; [exact Hrep|constructor]|]. simpl. auto.
  - pose proof (traverse_children fuel id h _
                  (Forall_impl _ (fun c Hc => Hc fuel h) IH) _
                  (pre ++ [l])%list Hkids ltac:(lia)) as Hch.
    destruct (find (has_id id) (flat_map preorder (node_children n)))
      as [s|].
    + destruct Hch as (c & ls' & path & front & Hin & -> & H2 & H3 & H4 & H5).
      exists (l :: ls'), (Tree n :: path), (Tree n :: front). simpl.
      split; [rewrite <- app_assoc; reflexivity|].
      split; [constructor; assumption|]. split; [reflexivity|].
      split; [rewrite H4; reflexivity|].
      destruct path as [|c' rest]; [exact I|].
      simpl in H3. injection H3 as ->. split; [exact Hin|exact H5].
    + rewrite Hch. simpl. rewrite removelast_last. reflexivity.
Qed.

(** X7.  [getPathToNode] returns the empty path when no node has the id;
    otherwise it returns the nodes from the root down to the first node, in
    the order of [flattenTree], that has the id: the path starts at the
    root, each node of it is a child of the one before, and it ends at that
    node.  The store is left as it was. *)
Theorem getPathToNode_spec :
  forall (fuel : nat) (h : heap) (root : loc) (t : TreeNode) (id : string),
    rep h root t -> height t <= fuel ->
    exists nodes,
      getPathToNode fuel root id h = Returns (nodes, h) /\
      match find (has_id id) (preorder t) with
      | Some s =>
          exists path front,
            Forall2 (rep h) nodes path /\
            hd_error path = Some t /\ path = (front ++ [s])%list /\
            node_id s = id /\ descends path
      | None => nodes = [] /\ ~ In id (tree_ids t)
      end.
Proof.
  intros fuel h root t id Hrep Hfuel.
  pose proof (traverse_rep id t fuel h root [] Hrep Hfuel) as Hpath.
  unfold path_found in Hpath. unfold getPathToNode, bind.
  destruct (find (has_id id) (preorder t)) as [s|] eqn:Hs.
  - destruct Hpath as (ls & path & front & -> & H1 & H2 & H3 & H4).
    exists ls. split; [reflexivity|]. exists path, front.
    repeat split; try assumption.
    apply find_some in Hs as [_ Hs]. apply String.eqb_eq. exact Hs.
  - rewrite Hpath. exists []. split; [reflexivity|]. split; [reflexivity|].
    unfold tree_ids. intros Hin. apply in_map_iff in Hin as (d & Hd & Hin).
    pose proof (find_none _ _ Hs d Hin) as Hno. unfold has_id in Hno.
    apply String.eqb_neq in Hno. contradiction.
Qed.

Lemma expand_core (fuel : nat) (h : heap) (root : loc) (t : TreeNode) :
  rep h root t -> json_tree t -> height t <= fuel ->
  exists h' clone,
    expandAllNodes fuel root h = Returns (clone, h') /\
    keeps h h' /\ length h <= clone /\
    rep h' clone (with_all_expanded true t).
Proof.
  intros Hrep Hjson Hfuel.
  destruct (parse_region t h) as (ext & Hparse & Hlen & Hreg).
  pose proof (region_bounds _ _ _ _ Hreg) as Hb.
  pose proof (size_positive t) as Hpos.
  unfold expandAllNodes, clone, bind.
  rewrite (stringify_rep t fuel h root Hrep Hjson Hfuel), Hparse.
  rewrite (flatten_region _ fuel _ _ _ Hreg) by exact Hfuel.
  destruct (set_all_region true t _ _ _ Hreg) as (h2 & Hrun & Hreg2 & Hout).
  fold (@assign_flag number true). rewrite Hrun.
  eexists; eexists. split; [reflexivity|].
  split; [|split; [lia|eapply region_rep; exact Hreg2]].
  intros i obj Hobj.
  assert (i < length h) by (apply nth_error_Some; congruence).
  rewrite Hout by lia. rewrite nth_error_app1 by lia. exact Hobj.
Qed.

(** X9.  [expandAllNodes] returns a copy made of new objects in which every
    node is expanded and every other field and the shape are as in the
    tree given; the objects of the tree given are not written to. *)
Theorem expandAllNodes_spec :
  forall (fuel : nat) (h : heap) (root : loc) (t : TreeNode),
    rep h root t -> json_tree t -> height t <= fuel ->
    exists h' clone t',
      expandAllNodes fuel root h = Returns (clone, h') /\
      length h <= clone /\ keeps h h' /\ rep h' root t /\
      rep h' clone t' /\
      (forall d, In d (preorder t') -> node_expanded d = true) /\
      erase_expanded t' = erase_expanded t.
Proof.
  intros fuel h root t Hrep Hjson Hfuel.
  destruct (expand_core fuel h root t Hrep Hjson Hfuel)
    as (h' & clone & Hrun & Hkeeps & Hnew & Hclone).
  exists h', clone, (with_all_expanded true t).
  split; [exact Hrun|]. split; [exact Hnew|]. split; [exact Hkeeps|].
  split; [exact (rep_keeps h h' t Hkeeps root Hrep)|].
  split; [exact Hclone|].
  split; [apply with_all_expanded_flags|apply with_all_expanded_erase].
Qed.

(** X8.  When no node of the tree has the id, [toggleNodeExpansion] returns
    a copy, made of new objects, that is equal to the tree given; nothing
    is raised and the objects of the tree given are not written to. *)
Theorem toggleNodeExpansion_unknown_id :
  forall (fuel : nat) (h : heap) (root : loc) (t : TreeNode)
         (nodeId : string),
    rep h root t -> json_tree t -> height t <= fuel ->
    ~ In nodeId (tree_ids t) ->
    exists h' clone,
      toggleNodeExpansion fuel root nodeId h = Returns (clone, h') /\
      length h <= clone /\ keeps h h' /\ rep h' root t /\ rep h' clone t.
Proof.
  intros fuel h root t nodeId Hrep Hjson Hfuel Hnot.
  destruct (toggle_core fuel h root t nodeId Hrep Hjson Hfuel)
    as (h' & clone & Hrun & Hkeeps & Hnew & Hclone).
  exists h', clone.
  split; [exact Hrun|]. split; [exact Hnew|]. split; [exact Hkeeps|].
  split; [exact (rep_keeps h h' t Hkeeps root Hrep)|].
  pose proof (toggle_first_flags nodeId t) as Hflags.
  unfold toggled in Hclone. destruct (toggle_first nodeId t) as [t'|].
  - destruct Hflags as (k & [Hk _] & _). apply nth_error_In in Hk.
    contradiction.
  - exact Hclone.
Qed.

Lemma with_all_expanded_twice (b b' : bool) (t : TreeNode) :
  with_all_expanded b (with_all_expanded b' t) = with_all_expanded b t.
Proof.
  induction t as [n IH] using TreeNode_nested_ind.
  assert (Hmap : map (with_all_expanded b)
                   (map (with_all_expanded b') (node_children n))
                 = map (with_all_expanded b) (node_children n)).
  { induction IH as [|c cs Hc _ IHcs]; simpl; congruence. }
  cbn [with_all_expanded node_children set_children set_expanded].
  destruct n; cbn in *. rewrite Hmap. reflexivity.
Qed.

Lemma collapsed_twice (t : TreeNode) : collapsed (collapsed t) = collapsed t.
Proof.
  destruct t as [n]. unfold collapsed.
  destruct n; cbn. rewrite map_map.
  rewrite (map_ext _ _ (with_all_expanded_twice false false)). reflexivity.
Qed.

Lemma expanded_collapsed (t : TreeNode) :
  with_all_expanded true (collapsed t) = with_all_expanded true t.
Proof.
  destruct t as [n]. unfold collapsed.
  destruct n; cbn. rewrite map_map.
  rewrite (map_ext _ _ (with_all_expanded_twice true false)). reflexivity.
Qed.

(** X10.  Collapsing a collapsed tree changes nothing: [collapseAllNodes] of
    the result of [collapseAllNodes] is a tree equal to that result. *)
Theorem collapseAllNodes_idempotent :
  forall (fuel : nat) (h : heap) (root : loc) (t : TreeNode),
    rep h root t -> json_tree t -> height t <= fuel ->
    exists h' once h'' twice t',
      collapseAllNodes fuel root h = Returns (once, h') /\
      collapseAllNodes fuel once h' = Returns (twice, h'') /\
      rep h'' once t' /\ rep h'' twice t'.
Proof.
  intros fuel h root t Hrep Hjson Hfuel.
  destruct (collapse_core fuel h root t Hrep Hjson Hfuel)
    as (h' & once & Hrun & _ & _ & Honce).
  destruct (same_erasure _ _ (collapsed_erase t)) as [Hheight Hjson'].
  destruct (collapse_core fuel h' once (collapsed t) Honce (Hjson' Hjson)
              ltac:(lia))
    as (h'' & twice & Hrun' & Hkeeps & _ & Htwice).
  rewrite collapsed_twice in Htwice.
  exists h', once, h'', twice, (collapsed t).
  split; [exact Hrun|]. split; [exact Hrun'|].
  split; [exact (rep_keeps h' h'' _ Hkeeps once Honce)|exact Htwice].
Qed.

(** X11.  Expanding after collapsing gives the tree that expanding alone
    gives: [expandAllNodes] of the result of [collapseAllNodes] is equal to
    [expandAllNodes] of the tree given. *)
Theorem expandAllNodes_after_collapseAllNodes :
  forall (fuel : nat) (h : heap) (root : loc) (t : TreeNode),
    rep h root t -> json_tree t -> height t <= fuel ->
    exists h1 folded h2 unfolded h3 direct t',
      collapseAllNodes fuel root h = Returns (folded, h1) /\
      expandAllNodes fuel folded h1 = Returns (unfolded, h2) /\
      expandAllNodes fuel root h2 = Returns (direct, h3) /\
      rep h3 unfolded t' /\ rep h3 direct t'.
Proof.
  intros fuel h root t Hrep Hjson Hfuel.
  destruct (collapse_core fuel h root t Hrep Hjson Hfuel)
    as (h1 & c1 & Hrun1 & Hkeeps1 & _ & Hc1).
  destruct (same_erasure _ _ (collapsed_erase t)) as [Hheight Hjson'].
  destruct (expand_core fuel h1 c1 (collapsed t) Hc1 (Hjson' Hjson)
              ltac:(lia))
    as (h2 & c2 & Hrun2 & Hkeeps2 & _ & Hc2).
  rewrite expanded_collapsed in Hc2.
  assert (Hroot2 : rep h2 root t).
  { apply (rep_keeps h1 h2 t Hkeeps2). apply (rep_keeps h h1 t Hkeeps1).
    exact Hrep. }
  destruct (expand_core fuel h2 root t Hroot2 Hjson Hfuel)
    as (h3 & c3 & Hrun3 & Hkeeps3 & _ & Hc3).
  exists h1, c1, h2, c2, h3, c3, (with_all_expanded true t).
  split; [exact Hrun1|]. split; [exact Hrun2|]. split; [exact Hrun3|].
  split; [exact (rep_keeps h2 h3 _ Hkeeps3 c2 Hc2)|exact Hc3].
Qed.


End HeapExtras.

(** ** What a layout holds *)

Section LayoutExtras.
Local Open Scope list_scope.
Local Open Scope nat_scope.
Local Open Scope Q_scope.

Context {number : Type}.
#[local] Abbreviation TreeNode := (TreeNode number).

(** X12.  The width [calculateNodeWidth] gives a node is never below
    [MIN_NODE_WIDTH] (120) nor above [MAX_NODE_WIDTH] (400), and a longer
    label never gets a narrower node. *)
Theorem calculateNodeWidth_bounds :
  forall label : string,
    MIN_NODE_WIDTH <= calculateNodeWidth label /\
    calculateNodeWidth label <= MAX_NODE_WIDTH /\
    forall longer : string,
      (String.length label <= String.length longer)%nat ->
      calculateNodeWidth label <= calculateNodeWidth longer.
Proof.
  intros label. unfold calculateNodeWidth.
  split; [|split].
  - apply Q.min_glb; [apply Q.le_max_r|]. unfold MIN_NODE_WIDTH, MAX_NODE_WIDTH. lra.
  - apply Q.le_min_r.
  - intros longer Hlen.
    apply Q.min_le_compat_r. apply Q.max_le_compat_r.
    assert (H : inject_Z (Z.of_nat (String.length label))
                <= inject_Z (Z.of_nat (String.length longer))).
    { rewrite <- Zle_Qle. lia. }
    unfold CHAR_WIDTH, NODE_PADDING. lra.
Qed.

Lemma erase_geometry_unfold (n : Node number TreeNode) :
  erase_geometry (Tree n)
  = Tree (set_children (set_geometry n None None None None None)
            (map erase_geometry (node_children n))).
Proof. reflexivity. Qed.

Lemma erase_assignNodeWidths (t : TreeNode) :
  erase_geometry (assignNodeWidths t) = erase_geometry t.
Proof.
  induction t as [n IH] using TreeNode_nested_ind.
  cbn [assignNodeWidths]. rewrite !erase_geometry_unfold.
  cbn [node_children set_children]. rewrite map_map.
  f_equal. unfold set_children, set_geometry, set_size. cbn. f_equal.
  apply map_ext_Forall. exact IH.
Qed.

Lemma erase_reduce_widths cfg (cs : list TreeNode) (sum : Q) :
  Forall (fun c => erase_geometry (fst (calculateSubtreeWidths c cfg))
                   = erase_geometry c) cs ->
  map erase_geometry
    (fst (reduce_widths (fun c => calculateSubtreeWidths c cfg)
            (cfg_horizontalSpacing cfg) cs sum))
  = map erase_geometry cs.
Proof.
  intros H. revert sum. induction H as [|c cs Hc _ IH]; intros sum; simpl;
    [reflexivity|].
  destruct (calculateSubtreeWidths c cfg) as [c' w]. simpl in Hc.
  specialize (IH (sum + w + cfg_horizontalSpacing cfg)).
  destruct (reduce_widths _ _ cs _) as [rest total]. simpl in *.
  rewrite Hc, IH. reflexivity.
Qed.

Lemma erase_calculateSubtreeWidths cfg (t : TreeNode) :
  erase_geometry (fst (calculateSubtreeWidths t cfg)) = erase_geometry t.
Proof.
  induction t as [n IH] using TreeNode_nested_ind.
  cbn [calculateSubtreeWidths].
  destruct (negb (node_expanded n) || _); [reflexivity|].
  pose proof (erase_reduce_widths cfg (node_children n)
                (- cfg_horizontalSpacing cfg) IH) as Hkids.
  destruct (reduce_widths _ _ (node_children n) _) as [children total].
  simpl in Hkids. cbn [fst]. rewrite !erase_geometry_unfold.
  cbn [node_children set_children set_subtreeWidth set_geometry].
  rewrite Hkids. reflexivity.
Qed.

Lemma erase_place_children (assign : TreeNode -> Q -> TreeNode)
    (extent : TreeNode -> Q) (spacing : Q) (cs : list TreeNode) :
  Forall (fun c => forall offset,
            erase_geometry (assign c offset) = erase_geometry c) cs ->
  forall offset,
    map erase_geometry (place_children assign extent spacing cs offset)
    = map erase_geometry cs.
Proof.
  induction 1 as [|c cs Hc _ IH]; intros offset; simpl; [reflexivity|].
  rewrite Hc, IH. reflexivity.
Qed.

Lemma erase_assignVerticalPositions cfg (t : TreeNode) :
  forall x y,
    erase_geometry (assignVerticalPositions t x y cfg) = erase_geometry t.
Proof.
  induction t as [n IH] using TreeNode_nested_ind. intros x y.
  cbn [assignVerticalPositions].
  destruct (negb (node_expanded n) || _); [reflexivity|].
  rewrite !erase_geometry_unfold.
  cbn [node_children set_children set_position set_geometry].
  rewrite erase_place_children; [reflexivity|].
  eapply Forall_impl; [|exact IH]. intros c Hc offset. apply Hc.
Qed.

Lemma erase_assignHorizontalPositions cfg (t : TreeNode) :
  forall x y,
    erase_geometry (assignHorizontalPositions t x y cfg) = erase_geometry t.
Proof.
  induction t as [n IH] using TreeNode_nested_ind. intros x y.
  cbn [assignHorizontalPositions].
  destruct (negb (node_expanded n) || _); [reflexivity|].
  rewrite !erase_geometry_unfold.
  cbn [node_children set_children set_position set_geometry].
  rewrite erase_place_children; [reflexivity|].
  eapply Forall_impl; [|exact IH]. intros c Hc offset. apply Hc.
Qed.

Lemma erase_positioned cfg (root : TreeNode) :
  erase_geometry (positioned root cfg) = erase_geometry root.
Proof.
  unfold positioned.
  destruct (cfg_orientation cfg);
    [rewrite erase_assignHorizontalPositions
    |rewrite erase_assignVerticalPositions];
    rewrite erase_calculateSubtreeWidths; apply erase_assignNodeWidths.
Qed.

Lemma collectNodes_erase (t : TreeNode) :
  collectNodes (erase_geometry t) = map erase_geometry (collectNodes t).
Proof.
  induction t as [n IH] using TreeNode_nested_ind.
  rewrite erase_geometry_unfold. cbn [collectNodes].
  cbn [node_expanded node_children set_children set_geometry fields].
  rewrite <- erase_geometry_unfold. cbn [map]. f_equal.
  destruct (node_expanded n); [|reflexivity].
  induction IH as [|c cs Hc _ IHcs]; simpl; [reflexivity|].
  rewrite map_app, Hc, IHcs. reflexivity.
Qed.

(** X13.  The nodes of a layout are the visible nodes of the tree given
    (a node, then the nodes below it when it is expanded), in the same
    order and with every field as it was but for the geometry. *)
Theorem calculateTreeLayout_keeps_nodes :
  forall (root : TreeNode) (config : PartialTreeConfig),
    map erase_geometry (layout_nodes (calculateTreeLayout root config))
    = map erase_geometry (collectNodes root).
Proof.
  intros root config. rewrite layout_nodes_visible.
  rewrite <- !collectNodes_erase, erase_positioned. reflexivity.
Qed.

Lemma createEdges_targets cfg (t : TreeNode) :
  map edge_target (createEdges t cfg) = tl (map (fun d : TreeNode => node_id d) (collectNodes t)).
Proof.
  induction t as [n IH] using TreeNode_nested_ind.
  cbn [createEdges collectNodes map tl].
  destruct (node_expanded n); [|reflexivity].
  induction IH as [|c cs Hc _ IHcs]; simpl; [reflexivity|].
  rewrite !map_app, IHcs, Hc. f_equal.
  destruct c as [m]. reflexivity.
Qed.

Lemma createEdges_shown cfg (t : TreeNode) :
  forall e, In e (createEdges t cfg) ->
    shown_child (collectNodes t) (edge_source e) (edge_target e).
Proof.
  induction t as [n IH] using TreeNode_nested_ind.
  intros e He. cbn [createEdges] in He.
  destruct (node_expanded n) eqn:Hexp; [|destruct He].
  apply in_flat_map in He as (c & Hc & He).
  destruct He as [<-|He].
  - exists (Tree n), c. cbn [collectNodes]. rewrite Hexp.
    split; [left; reflexivity|]. repeat split; auto.
  - rewrite Forall_forall in IH.
    destruct (IH c Hc e He) as (parent & child & Hp & Hpe & Hch & Hs & Ht).
    exists parent, child. split; [|auto].
    cbn [collectNodes]. rewrite Hexp. right.
    apply in_flat_map. exists c. auto.
Qed.

Lemma layout_edges_created (root : TreeNode) (config : PartialTreeConfig) :
  layout_edges (calculateTreeLayout root config)
  = createEdges (positioned root (merge_config config)) (merge_config config).
Proof.
  unfold calculateTreeLayout. destruct (calculateDimensions _). reflexivity.
Qed.

(** X14.  The edges of a layout: there is one edge less than there are
    nodes, the targets of the edges are the nodes but the first, in order
    (so every node shown but the root has exactly one edge into it), and
    every edge goes from an expanded node of the layout to one of its
    children. *)
Theorem calculateTreeLayout_edges :
  forall (root : TreeNode) (config : PartialTreeConfig),
    let layout := calculateTreeLayout root config in
    map edge_target (layout_edges layout)
    = tl (map (fun d : TreeNode => node_id d) (layout_nodes layout)) /\
    S (length (layout_edges layout)) = length (layout_nodes layout) /\
    forall e, In e (layout_edges layout) ->
      shown_child (layout_nodes layout) (edge_source e) (edge_target e).
Proof.
  intros root config layout. subst layout.
  rewrite layout_edges_created, layout_nodes_visible.
  split; [apply createEdges_targets|]. split; [|apply createEdges_shown].
  rewrite <- (length_map edge_target), createEdges_targets.
  destruct (positioned root (merge_config config)) as [n].
  cbn [collectNodes map tl length]. rewrite length_map. reflexivity.
Qed.

Lemma fold_dimensions_bound (nodes : list TreeNode) :
  forall acc : Q * Q,
    let out :=
      fold_left
        (fun (acc : Q * Q) (node : TreeNode) =>
           (Qmax (fst acc)
              (number_or (node_x node) 0 + number_or (node_width node) 180),
            Qmax (snd acc)
              (number_or (node_y node) 0 + number_or (node_height node) 44)))
        nodes acc in
    fst acc <= fst out /\ snd acc <= snd out /\
    forall d, In d nodes ->
      number_or (node_x d) 0 + number_or (node_width d) 180 <= fst out /\
      number_or (node_y d) 0 + number_or (node_height d) 44 <= snd out.
Proof.
  induction nodes as [|n nodes IH]; intros acc; simpl.
  - split; [lra|]. split; [lra|]. intros d [].
  - destruct (IH (Qmax (fst acc)
                    (number_or (node_x n) 0 + number_or (node_width n) 180),
                  Qmax (snd acc)
                    (number_or (node_y n) 0 + number_or (node_height n) 44)))
      as (Hx & Hy & Hin). simpl in Hx, Hy.
    pose proof (Q.le_max_l (fst acc)
                  (number_or (node_x n) 0 + number_or (node_width n) 180)).
    pose proof (Q.le_max_r (fst acc)
                  (number_or (node_x n) 0 + number_or (node_width n) 180)).
    pose proof (Q.le_max_l (snd acc)
                  (number_or (node_y n) 0 + number_or (node_height n) 44)).
    pose proof (Q.le_max_r (snd acc)
                  (number_or (node_y n) 0 + number_or (node_height n) 44)).
    split; [lra|]. split; [lra|].
    intros d [<-|Hd]; [split; lra|apply Hin; exact Hd].
Qed.

(** X15.  The canvas [calculateDimensions] gives is at least 24 wide and 50
    high (its size for no node at all), and it holds the box of every node
    of the list with a margin of 24 to the right and 50 below, a missing
    width counting as 180 and a missing height as 44. *)
Theorem calculateDimensions_contains :
  forall nodes : list TreeNode,
    cfg_horizontalSpacing DEFAULT_CONFIG <= fst (calculateDimensions nodes) /\
    cfg_verticalSpacing DEFAULT_CONFIG <= snd (calculateDimensions nodes) /\
    forall d, In d nodes ->
      number_or (node_x d) 0 + number_or (node_width d) 180
        + cfg_horizontalSpacing DEFAULT_CONFIG
        <= fst (calculateDimensions nodes) /\
      number_or (node_y d) 0 + number_or (node_height d) 44
        + cfg_verticalSpacing DEFAULT_CONFIG
        <= snd (calculateDimensions nodes).
Proof.
  intros nodes. unfold calculateDimensions.
  destruct (fold_dimensions_bound nodes (0, 0)) as (Hx & Hy & Hin).
  destruct (fold_left _ nodes (0, 0)) as [maxX maxY]. simpl in *.
  split; [lra|]. split; [lra|].
  intros d Hd. specialize (Hin d Hd). lra.
Qed.

Lemma placed_below cfg (t : TreeNode) :
  0 <= cfg_horizontalSpacing cfg ->
  0 <= cfg_nodeHeight cfg + cfg_verticalSpacing cfg ->
  forall x y, Placed cfg t x y ->
    forall d, In d (collectNodes t) -> y <= box_top d.
Proof.
  intros Hspacing Hstep.
  induction t as [n IH] using TreeNode_nested_ind.
  intros x y HP d Hd. cbn [collectNodes] in Hd.
  destruct Hd as [<-|Hd].
  { destruct (placed_geometry _ _ _ _ HP) as (_ & Htop & _). lra. }
  destruct (node_expanded n) eqn:He; [|destruct Hd].
  destruct (placed_expanded _ _ _ _ HP He) as [Hrow _].
  apply in_flat_map in Hd as (c & Hc & Hdc).
  destruct (placed_row_bounds _ Hspacing _ _ _ Hrow) as [_ Hin].
  destruct (Hin c Hc) as (Xc & HPc & _).
  rewrite Forall_forall in IH.
  pose proof (IH c Hc Xc _ HPc d Hdc). lra.
Qed.

Lemma layout_dimensions (root : TreeNode) (config : PartialTreeConfig) :
  (layout_width (calculateTreeLayout root config),
   layout_height (calculateTreeLayout root config))
  = calculateDimensions (layout_nodes (calculateTreeLayout root config)).
Proof.
  unfold calculateTreeLayout. destruct (calculateDimensions _) eqn:E.
  simpl. rewrite E. reflexivity.
Qed.

(** X16.  In vertical orientation, with a spacing between siblings and a
    step between levels that are not negative, every node of the layout
    lies on the canvas: its left and top coordinates are not negative, its
    right edge is at least 24 short of the canvas width and its lower edge
    at least 50 short of the canvas height. *)
Theorem layout_vertical_in_canvas :
  forall (root : TreeNode) (config : PartialTreeConfig),
    cfg_orientation (merge_config config) = vertical ->
    0 <= cfg_horizontalSpacing (merge_config config) ->
    0 <= cfg_nodeHeight (merge_config config)
         + cfg_verticalSpacing (merge_config config) ->
    let layout := calculateTreeLayout root config in
    forall d, In d (layout_nodes layout) ->
      0 <= box_left d /\
      box_right d + cfg_horizontalSpacing DEFAULT_CONFIG
        <= layout_width layout /\
      0 <= box_top d /\
      box_top d + number_or (node_height d) 44
        + cfg_verticalSpacing DEFAULT_CONFIG
        <= layout_height layout.
Proof.
  intros root config Hvertical Hspacing Hstep layout d Hd. subst layout.
  pose proof (layout_dimensions root config) as Hdim.
  destruct (calculateDimensions_contains
              (layout_nodes (calculateTreeLayout root config)))
    as (_ & _ & Hin).
  specialize (Hin d Hd). rewrite <- Hdim in Hin. cbn [fst snd] in Hin.
  rewrite layout_nodes_visible in Hd.
  assert (HP : Placed (merge_config config)
                 (positioned root (merge_config config)) 0 0).
  { unfold positioned. rewrite Hvertical.
    apply assignVerticalPositions_placed; [exact Hspacing|].
    apply calculateSubtreeWidths_measured; [exact Hspacing|].
    apply assignNodeWidths_sized. }
  destruct (placed_within _ Hspacing _ _ _ HP d Hd) as [Hleft _].
  pose proof (placed_below _ _ Hspacing Hstep _ _ HP d Hd) as Htop.
  destruct (placed_visible _ Hspacing _ _ _ HP d Hd) as (x' & y' & HPd).
  destruct d as [m]. destruct HPd as (w & sw & Hw & _ & Hpos & _).
  unfold box_right, box_left, box_top, box_width in *. cbn [node_width node_x node_y node_height fields] in *.
  rewrite Hw in *. rewrite !(number_or_pos w) in * by exact Hpos.
  destruct Hin as [Hx Hy]. repeat split; lra.
Qed.


End LayoutExtras.

(** ** Labels of a diagram *)

Section LabelExtras.
Local Open Scope list_scope.
Local Open Scope nat_scope.
Import Mermaid.

Lemma normalized_clean (c : ascii) :
  ~ In c unsafe_chars -> normalized c = [c].
Proof.
  intros Hc. unfold normalized, unsafe_chars in *. simpl in Hc.
  cbn [existsb].
  destruct (Ascii.eqb_spec c dquote_char) as [->|_]; [tauto|].
  destruct (Ascii.eqb_spec c "<") as [->|_]; [tauto|].
  destruct (Ascii.eqb_spec c ">") as [->|_]; [tauto|].
  destruct (Ascii.eqb_spec c "{") as [->|_]; [tauto|].
  destruct (Ascii.eqb_spec c "}") as [->|_]; [tauto|].
  cbn [orb].
  destruct (Ascii.eqb_spec c newline) as [->|_]; [tauto|].
  destruct (Ascii.eqb_spec c "|") as [->|_]; [tauto|].
  reflexivity.
Qed.

Lemma normalized_safe (c d : ascii) :
  In d (normalized c) -> ~ In d unsafe_chars.
Proof.
  unfold normalized.
  destruct (Ascii.eqb_spec c dquote_char) as [->|Hq].
  { intros [<-|[]]. vm_compute. intuition discriminate. }
  destruct (existsb (Ascii.eqb c) ["<"; ">"; "{"; "}"]%char) eqn:Hbr;
    [intros []|].
  destruct (Ascii.eqb_spec c newline) as [->|Hn].
  { intros [<-|[]]. vm_compute. intuition discriminate. }
  destruct (Ascii.eqb_spec c "|") as [->|Hp].
  { intros [<-|[]]. vm_compute. intuition discriminate. }
  intros [<-|[]] Hin. simpl in Hin.
  destruct Hin as [H|[H|[H|[H|[H|[H|[H|[]]]]]]]]; subst c;
    try congruence; vm_compute in Hbr; discriminate.
Qed.

Lemma flat_map_clean (cs : list ascii) :
  Forall (fun c => ~ In c unsafe_chars) cs -> flat_map normalized cs = cs.
Proof.
  induction 1 as [|c cs Hc _ IH]; simpl; [reflexivity|].
  rewrite (normalized_clean c Hc), IH. reflexivity.
Qed.

Lemma chars_injective (a b : string) : chars a = chars b -> a = b.
Proof.
  unfold chars. intros H.
  rewrite <- (string_of_list_ascii_of_string a),
          <- (string_of_list_ascii_of_string b), H. reflexivity.
Qed.

Lemma chars_length (s : string) : length (chars s) = String.length s.
Proof. induction s as [|c s IH]; simpl; congruence. Qed.

(** X17.  On a text that holds none of the seven characters, [escapeLabel]
    only cuts: the result is the first 50 characters of the text, and the
    text itself when it has at most 50. *)
Theorem escapeLabel_clean :
  forall text : string,
    (forall c, In c (chars text) -> ~ In c unsafe_chars) ->
    escapeLabel text = substring 0 50 text /\
    (String.length text <= 50 -> escapeLabel text = text).
Proof.
  intros text Hclean.
  assert (Heq : escapeLabel text = substring 0 50 text).
  { apply chars_injective.
    rewrite escapeLabel_chars, chars_substring, flat_map_clean;
      [reflexivity|].
    apply Forall_forall. exact Hclean. }
  split; [exact Heq|]. intros Hlen. rewrite Heq.
  apply chars_injective. rewrite chars_substring.
  apply firstn_all2. rewrite chars_length. exact Hlen.
Qed.

(** X18.  Escaping twice is escaping once: [escapeLabel] leaves its own
    results as they are. *)
Theorem escapeLabel_idempotent :
  forall text : string,
    escapeLabel (escapeLabel text) = escapeLabel text.
Proof.
  intros text. apply chars_injective.
  rewrite (escapeLabel_chars (escapeLabel text)), (escapeLabel_chars text).
  rewrite flat_map_clean.
  - rewrite firstn_firstn. reflexivity.
  - apply Forall_forall. intros d Hd.
    apply firstn_keeps in Hd. apply in_flat_map in Hd as (c & _ & Hd).
    exact (normalized_safe c d Hd).
Qed.


End LabelExtras.

(** ** The emitter returns *)

Section EmitterTermination.
Local Open Scope list_scope.
Local Open Scope nat_scope.
Import Mermaid.

Context {number : Type} {host : Host number}.
#[local] Abbreviation jsval := (jsval number).

Lemma index_firstn (ops : list jsval) (i k : nat) :
  i < k -> index (firstn k ops) i = index ops i.
Proof.
  unfold index. revert i k. induction ops as [|op ops IH]; intros i k Hi.
  - rewrite firstn_nil. reflexivity.
  - destruct k as [|k]; [lia|]. destruct i as [|i]; [reflexivity|].
    simpl. apply IH. lia.
Qed.

Lemma processIfNode_first_three :
  forall (fuel : nat) (ops : list jsval) (parentId : option string)
         (includeValues : bool) (e : Emitter),
    processIfNode fuel (JArray ops) parentId includeValues e
    = processIfNode fuel (JArray (firstn 3 ops)) parentId includeValues e.
Proof.
  intros fuel ops parentId includeValues e.
  destruct fuel as [|fuel]; [reflexivity|].
  cbn [processIfNode].
  rewrite !(index_firstn ops _ 3) by lia.
  assert (Hlen : (length (firstn 3 ops) <? 2) = (length ops <? 2)).
  { destruct ops as [|a [|b [|c rest]]]; reflexivity. }
  rewrite Hlen. reflexivity.
Qed.

(** X19.  The diagram of an [if] is the diagram of its first three
    operands: a fourth operand and all after it (the later conditions and
    results of a chained [if]) leave no trace in the text emitted, and
    neither do the other keys of the object. *)
Theorem toMermaidFlowchart_first_three :
  forall (fuel : nat) (ops : list jsval) (rest : list (string * jsval))
         (options : ConversionOptions),
    toMermaidFlowchart fuel (JObject (("if", JArray ops) :: rest)) options
    = toMermaidFlowchart fuel
        (JObject [("if", JArray (firstn 3 ops))]) options.
Proof.
  intros fuel ops rest options.
  unfold toMermaidFlowchart, flowchart_statements.
  destruct fuel as [|fuel]; [reflexivity|].
  cbn [processNode]. cbn [String.eqb Ascii.eqb Bool.eqb].
  rewrite processIfNode_first_three. reflexivity.
Qed.

Lemma returns_connect_parent parentId id e :
  returns (connect_parent parentId id e).
Proof. destruct parentId; returned. Qed.

Lemma returns_forEach {St A} (f : A -> M St unit) (xs : list A) :
  (forall x s, In x xs -> returns (f x s)) ->
  forall s, returns (forEach f xs s).
Proof.
  induction xs as [|x xs IH]; intros Hf s; simpl; [returned|].
  apply returns_bind; [apply Hf; left; reflexivity|].
  intros _ s'. apply IH. intros; apply Hf; right; assumption.
Qed.

Ltac run :=
  repeat first
    [ apply returns_bind;
      [ first [returned | apply returns_connect_parent] | intros ]
    | returned
    | apply returns_connect_parent ].

Lemma json_item (items : list jsval) (item : jsval) :
  json_value (JArray items) = true -> In item items -> json_value item = true.
Proof. simpl. rewrite forallb_forall. auto. Qed.

Lemma json_index (items : list jsval) (i : nat) :
  json_value (JArray items) = true ->
  index items i = JUndefined \/
  (json_value (index items i) = true /\ In (index items i) items).
Proof.
  intros Hj. unfold index.
  destruct (Nat.lt_ge_cases i (length items)) as [Hlt|Hge].
  - right. pose proof (nth_In items JUndefined Hlt) as Hin.
    split; [exact (json_item _ _ Hj Hin)|exact Hin].
  - left. apply nth_overflow. exact Hge.
Qed.

Lemma emits_strong (v : jsval) :
  emits v /\
  match v with
  | JArray items => Forall emits items
  | _ => True
  end.
Proof.
  induction v as [| | [|] | | |items IH|entries IH] using jsval_nested_ind;
    (split; [intros Hj Hp fuel Hfuel|]); auto;
    try discriminate;
    try (destruct fuel as [|fuel]; [simpl in Hfuel; lia|];
         split; [|split]; intros; cbn [processResultNode processIfNode processNode];
         run; fail).
  - (* arrays *)
    rewrite weight_array in Hfuel. destruct fuel as [|fuel]; [lia|].
    assert (Hitems : Forall emits items)
      by exact (Forall_impl _ (fun a H => proj1 H) IH).
    rewrite Forall_forall in Hitems.
    assert (Hbranch : forall i id label includeValues e,
              returns
                (match index items i with
                 | JUndefined => ret tt
                 | result =>
                     branchId <- processResultNode fuel result includeValues ;;
                     push_connection (Edge id (Some label) branchId)
                 end e)).
    { intros i id label includeValues e.
      destruct (json_index items i Hj) as [->|[Hji Hin]]; [run|].
      pose proof (weight_item _ _ Hin) as Hw.
      destruct (Hitems _ Hin Hji (printable_item _ _ Hp Hin) fuel ltac:(lia))
        as (Hres & _ & _).
      destruct (index items i); run;
        (apply returns_bind; [apply Hres|intros; run]). }
    split; [|split]; intros.
    + cbn [processResultNode]. run.
    + cbn [processIfNode].
      destruct (length items <? 2); run.
      apply returns_bind;
        [apply returns_completes, buildConditionLabel_printable,
           printable_index, Hp|intros].
      run.
      apply returns_bind; [apply Hbranch|intros].
      apply returns_bind; [apply Hbranch|intros]. run.
    + cbn [processNode]. run. destruct includeValues; run.
      apply returns_bind; [|intros; run].
      apply returns_forEach. intros op s Hin.
      pose proof (weight_item _ _ Hin) as Hw.
      destruct (Hitems _ Hin (json_item _ _ Hj Hin)
                  (printable_item _ _ Hp Hin) fuel ltac:(lia))
        as (_ & _ & Hnode).
      apply returns_bind; [apply Hnode|intros; run].
  - exact (Forall_impl _ (fun a H => proj1 H) IH).
  - (* objects *)
    rewrite weight_object in Hfuel. destruct fuel as [|fuel]; [lia|].
    destruct entries as [|[operator operands] rest].
    { split; [|split]; intros;
        cbn [processResultNode processIfNode processNode]; run. }
    inversion IH as [|? ? [Hoperands Hops] _]; subst. cbn [snd] in *.
    assert (Hjo : json_value operands = true).
    { simpl in Hj. apply andb_prop in Hj as [Hj _]. exact Hj. }
    pose proof (printable_operands _ _ _ Hp) as Hpo.
    pose proof (formatVarName_printable _ Hpo) as Hname.
    simpl in Hfuel.
    destruct (Hoperands Hjo Hpo fuel ltac:(lia)) as (_ & Hif & Hnode).
    assert (Heach : forall ops id includeValues e,
              operands = JArray ops ->
              returns (forEach
                         (fun op => _ <- processNode fuel op (Some id)
                                          includeValues ;; ret tt) ops e)).
    { intros ops id includeValues e ->.
      apply returns_forEach. intros op s Hin.
      rewrite Forall_forall in Hops.
      pose proof (weight_item _ _ Hin) as Hw. rewrite weight_array in Hfuel.
      destruct (Hops _ Hin (json_item _ _ Hjo Hin)
                  (printable_item _ _ Hpo Hin) fuel ltac:(lia))
        as (_ & _ & Hop).
      apply returns_bind; [apply Hop|intros; run]. }
    split; [|split]; intros.
    + cbn [processResultNode].
      destruct ((operator =? "if")%string || (operator =? "?:")%string);
        [apply Hif|].
      destruct (operator =? "var")%string; run.
      apply returns_bind; [apply returns_completes, Hname|intros; run].
    + cbn [processIfNode]. run.
    + cbn [processNode].
      destruct (operator =? "var")%string;
        [run; apply returns_bind;
           [apply returns_completes, Hname|intros; run]|].
      destruct (operator =? "if")%string; [apply Hif|].
      destruct (includes comparison_operators operator);
        [|destruct (includes ["and"; "or"] operator)];
        run;
        (destruct operands as [| | | | |ops|es] eqn:Hoperands_eq; run);
        try (apply returns_bind; [apply Heach; reflexivity|intros; run]).
      all: apply returns_bind; [|intros; run].
      all: apply returns_bind; [apply Hnode|intros; run].
Qed.

(** X28.  A variable whose path starts with an object that has a property
    named [toString] makes the emitter throw: [processVarNode] converts the
    first entry of the path to a string, and that conversion throws a
    [TypeError].  No document is returned. *)
Theorem toMermaidFlowchart_var_throws :
  forall (fuel : nat) (entries : list (string * jsval)) (others : list jsval)
         (rest : list (string * jsval)) (options : ConversionOptions),
    has_key "toString" entries = true ->
    toMermaidFlowchart (S fuel)
      (JObject (("var", JArray (JObject entries :: others)) :: rest)) options
    = Throws TypeError.
Proof.
  intros fuel entries others rest options Hkey.
  unfold toMermaidFlowchart, flowchart_statements.
  cbn [processNode String.eqb Ascii.eqb Bool.eqb].
  unfold bind, generateNodeId, formatVarName.
  cbn [index nth ToString]. rewrite Hkey. reflexivity.
Qed.

(** X20.  On every rule that is a JSON value in which no object has a
    property named [toString], [toMermaidFlowchart] returns a document and
    raises nothing, chained conditionals of any length included:
    [weight rule] nested calls are enough. *)
Theorem toMermaidFlowchart_returns :
  forall (rule : jsval) (fuel : nat) (options : ConversionOptions),
    json_value rule = true -> printable rule = true ->
    weight rule <= fuel ->
    exists document, toMermaidFlowchart fuel rule options = Returns document.
Proof.
  intros rule fuel options Hj Hp Hfuel.
  destruct (proj1 (emits_strong rule) Hj Hp fuel Hfuel) as (_ & _ & Hnode).
  unfold toMermaidFlowchart, flowchart_statements.
  destruct (Hnode None (override (opt_includeValues options) true)
              {| nodeCounter := 0;
                 lines := header (override (opt_orientation options) TD);
                 connections := [] |}) as (id & e & ->).
  eexists. reflexivity.
Qed.


End EmitterTermination.

(** ** The diagram is a tree *)

Section FlowchartGraph.
Local Open Scope list_scope.
Local Open Scope nat_scope.
Import Mermaid.

Lemma declared_app (a b : list Statement) :
  declared (a ++ b) = declared a ++ declared b.
Proof. apply flat_map_app. Qed.

Lemma edges_app (a b : list Statement) :
  edges (a ++ b) = edges a ++ edges b.
Proof. apply flat_map_app. Qed.

(** A conversion between two steps of a call that returned. *)
Lemma convert_inside {St A B C} (m : M St A) (r : option B)
    (K : A -> B -> M St C) (e : St) res :
  bind m (fun a => bind (completes r) (fun b => K a b)) e = Returns res ->
  exists b, r = Some b /\ bind m (fun a => K a b) e = Returns res.
Proof.
  destruct r as [b|].
  - intros H. exists b. split; [reflexivity|exact H].
  - unfold bind. destruct (m e) as [[a e']| |]; discriminate.
Qed.

Lemma convert_first {St B C} (r : option B) (K : B -> M St C) (e : St) res :
  bind (completes r) K e = Returns res ->
  exists b, r = Some b /\ K b e = Returns res.
Proof.
  destruct r as [b|]; [|discriminate].
  intros H. exists b. split; [reflexivity|exact H].
Qed.

Section Steps.

Context {A : Type}.

Lemma declare_step (shape : Shape) (text : string) (K : string -> Emit A)
    (e : Emitter) (O : list nat) r :
  in_order e O ->
  bind generateNodeId
    (fun id => bind (push_line (NodeDecl id shape text)) (fun _ => K id)) e
  = Returns r ->
  exists e1,
    in_order e1 (S (nodeCounter e) :: O) /\
    nodeCounter e1 = S (nodeCounter e) /\
    K (n_id (S (nodeCounter e))) e1 = Returns r.
Proof.
  intros (Hd & Hel & Hdc & pairs & He & Hok & Hperm) H.
  cbv [bind generateNodeId push_line] in H.
  refine (ex_intro _ _ (conj _ (conj _ H))); [|reflexivity].
  unfold in_order. cbn [nodeCounter lines connections].
  split; [|split; [|split; [exact Hdc|]]].
  - rewrite declared_app, Hd, seq_S, map_app. reflexivity.
  - rewrite edges_app, Hel. reflexivity.
  - exists pairs. split; [exact He|]. split.
    + eapply Forall_impl; [|exact Hok]. intros ij Hij. simpl in *. lia.
    + rewrite seq_S. simpl.
      apply Permutation_trans with (S (nodeCounter e) :: map snd pairs ++ O).
      * apply Permutation_sym, Permutation_middle.
      * apply Permutation_trans
          with (S (nodeCounter e) :: seq 1 (nodeCounter e)).
        -- apply perm_skip. exact Hperm.
        -- apply Permutation_cons_append.
Qed.

Lemma class_step (id class : string) (K : Emit A) (e : Emitter)
    (O : list nat) r :
  in_order e O ->
  bind (push_line (ClassOf id class)) (fun _ => K) e = Returns r ->
  exists e1,
    in_order e1 O /\ nodeCounter e1 = nodeCounter e /\ K e1 = Returns r.
Proof.
  intros (Hd & Hel & Hdc & Hpairs) H.
  cbv [bind push_line] in H.
  refine (ex_intro _ _ (conj _ (conj _ H))); [|reflexivity].
  unfold in_order. cbn [nodeCounter lines connections].
  split; [|split; [|split; [exact Hdc|exact Hpairs]]].
  - rewrite declared_app, Hd. simpl. apply List.app_nil_r.
  - rewrite edges_app, Hel. reflexivity.
Qed.

Lemma edge_inv (i j : nat) (label : option string) (e : Emitter)
    (O : list nat) :
  in_order e (j :: O) -> 1 <= i < j -> j <= nodeCounter e ->
  in_order {| nodeCounter := nodeCounter e; lines := lines e;
              connections := connections e ++ [Edge (n_id i) label (n_id j)] |}
    O.
Proof.
  intros (Hd & Hel & Hdc & pairs & He & Hok & Hperm) Hij Hj.
  unfold in_order. cbn [nodeCounter lines connections].
  split; [exact Hd|]. split; [exact Hel|].
  split; [rewrite declared_app, Hdc; reflexivity|].
  exists (pairs ++ [(i, j)]). split; [|split].
  - rewrite edges_app, He, map_app. reflexivity.
  - apply Forall_app. split; [exact Hok|]. constructor; [simpl; lia|constructor].
  - rewrite map_app. simpl. rewrite <- app_assoc. exact Hperm.
Qed.

Lemma edge_step (i j : nat) (label : option string) (K : Emit A)
    (e : Emitter) (O : list nat) r :
  in_order e (j :: O) -> 1 <= i < j -> j <= nodeCounter e ->
  bind (push_connection (Edge (n_id i) label (n_id j))) (fun _ => K) e
  = Returns r ->
  exists e1,
    in_order e1 O /\ nodeCounter e1 = nodeCounter e /\ K e1 = Returns r.
Proof.
  intros Hin Hij Hj H. cbv [bind push_connection] in H.
  refine (ex_intro _ _ (conj _ (conj _ H))); [|reflexivity].
  apply edge_inv; assumption.
Qed.

Lemma parent_step (p : option nat) (j : nat) (K : Emit A) (e : Emitter)
    (O : list nat) r :
  in_order e (j :: O) -> (forall i, p = Some i -> 1 <= i < j) ->
  j <= nodeCounter e ->
  bind (connect_parent (option_map n_id p) (n_id j)) (fun _ => K) e
  = Returns r ->
  exists e1,
    in_order e1 (orphans_after p j O) /\ nodeCounter e1 = nodeCounter e /\
    K e1 = Returns r.
Proof.
  intros Hin Hp Hj H. destruct p as [i|]; cbn [option_map connect_parent] in H.
  - exact (edge_step i j None K e O r Hin (Hp i eq_refl) Hj H).
  - exists e. auto.
Qed.

End Steps.


Section GraphInvariant.

Context {number : Type} {host : Host number}.
#[local] Abbreviation jsval := (jsval number).

Ltac declare H Hin e1 Hc :=
  apply (declare_step _ _ _ _ _ _ Hin) in H; clear Hin;
  destruct H as (e1 & Hin & Hc & H).

Ltac classify H Hin e1 Hc :=
  apply (class_step _ _ _ _ _ _ Hin) in H; clear Hin;
  destruct H as (e1 & Hin & Hc & H).

Ltac connect H Hin e1 Hc :=
  apply (parent_step _ _ _ _ _ _ Hin) in H;
  [clear Hin; destruct H as (e1 & Hin & Hc & H)
  |let i := fresh "i" in let Hi := fresh "Hi" in
   intros i Hi; match goal with Hp : forall _, _ = Some _ -> _ |- _ =>
                  specialize (Hp i Hi) end; lia
  |lia].

Ltac finish H Hin :=
  cbv [ret] in H; injection H as <-; unfold follows; cbn [fst snd];
  split; [lia|]; split; [reflexivity|];
  repeat match goal with Hc : nodeCounter _ = _ |- _ => rewrite Hc in * end;
  try exact Hin.

Lemma branch_run {A} (fuel : nat) (includeValues : bool) (result : jsval)
    (i0 : nat) (label : string) (K : Emit A) (e : Emitter) (O : list nat) r :
  result_spec fuel ->
  in_order e O -> 1 <= i0 <= nodeCounter e ->
  bind (branchId <- processResultNode fuel result includeValues ;;
        push_connection (Edge (n_id i0) (Some label) branchId))
    (fun _ => K) e = Returns r ->
  exists e1,
    in_order e1 O /\ nodeCounter e <= nodeCounter e1 /\ K e1 = Returns r.
Proof.
  intros IHr Hin Hi Hrun.
  apply bind_returns in Hrun as ([] & e2 & Hb & Hrun).
  apply bind_returns in Hb as (bid & e3 & Hres & Hpush).
  destruct (IHr _ _ _ _ _ Hin Hres) as (Hlt & Hid & Hin3).
  cbn [fst snd orphans_after] in *. subst bid.
  cbv [push_connection] in Hpush. injection Hpush as <-.
  refine (ex_intro _ _ (conj _ (conj _ Hrun)));
    [apply edge_inv; [exact Hin3|lia|lia]|simpl; lia].
Qed.

Lemma skip_run {A} (K : Emit A) (e : Emitter) (O : list nat) r :
  in_order e O ->
  bind (ret tt) (fun _ => K) e = Returns r ->
  exists e1,
    in_order e1 O /\ nodeCounter e <= nodeCounter e1 /\ K e1 = Returns r.
Proof. intros Hin H. exists e. split; [exact Hin|]. split; [lia|exact H]. Qed.

Lemma if_result_spec (fuel : nat) : if_spec fuel /\ result_spec fuel.
Proof.
  induction fuel as [|fuel [IHi IHr]].
  - split; intro; intros; discriminate.
  - split.
    + intros operands p includeValues e O r Hin Hp H.
      cbn [processIfNode] in H. fold (@processResultNode number host) in H.
      assert (Hplace :
        bind generateNodeId
          (fun id => bind (push_line (NodeDecl id Hexagon (quoted "IF ?")))
             (fun _ => bind (push_line (ClassOf id "condition"))
                (fun _ => bind (connect_parent (option_map n_id p) id)
                   (fun _ => ret id)))) e = Returns r ->
        follows p e O r).
      { clear H. intros H.
        declare H Hin e1 Hc1. classify H Hin e2 Hc2. connect H Hin e3 Hc3.
        finish H Hin. }
      destruct operands as [| | | | |ops|]; try exact (Hplace H).
      destruct (length ops <? 2); [exact (Hplace H)|]. clear Hplace.
      apply convert_first in H as (conditionLabel & _ & H).
      declare H Hin e1 Hc1. classify H Hin e2 Hc2. connect H Hin e3 Hc3.
      destruct (index ops 1);
        [apply (skip_run _ _ _ _ Hin) in H
        |apply (branch_run fuel _ _ _ _ _ _ _ _ IHr Hin) in H; [|lia]..];
        clear Hin; destruct H as (e4 & Hin & Hc4 & H);
        (destruct (index ops 2);
         [apply (skip_run _ _ _ _ Hin) in H
         |apply (branch_run fuel _ _ _ _ _ _ _ _ IHr Hin) in H; [|lia]..]);
        clear Hin; destruct H as (e5 & Hin & Hc5 & H);
        cbv [ret] in H; injection H as <-; unfold follows; cbn [fst snd];
        (split; [lia|]); (split; [reflexivity|exact Hin]).
    + intros rule includeValues e O r Hin H.
      cbn [processResultNode] in H. fold (@processIfNode number host) in H.
      assert (Hresult : forall label,
        bind generateNodeId
          (fun id => bind (push_line (NodeDecl id Terminator
                                        (quoted (escapeLabel label))))
             (fun _ => bind (push_line (ClassOf id "result"))
                (fun _ => ret id))) e = Returns r ->
        follows None e O r).
      { clear H. intros label H.
        declare H Hin e1 Hc1. classify H Hin e2 Hc2. finish H Hin. }
      destruct rule as [| |b|n|s|items|entries];
        try exact (Hresult _ H).
      * cbv [bind generateNodeId throw] in H. discriminate.
      * destruct entries as [|[key operands] rest]; [exact (Hresult _ H)|].
        destruct ((key =? "if")%string || (key =? "?:")%string).
        -- exact (IHi operands None _ _ _ _ Hin
                    ltac:(intros; discriminate) H).
        -- destruct (key =? "var")%string; [|exact (Hresult _ H)].
           apply convert_inside in H as (label & _ & H).
           declare H Hin e1 Hc1. classify H Hin e2 Hc2. finish H Hin.
Qed.

Lemma each_step (fuel : nat) (includeValues : bool) (i0 : nat)
    (ops : list jsval) :
  node_spec fuel ->
  forall e O e',
    in_order e O -> 1 <= i0 <= nodeCounter e ->
    forEach (fun op => _ <- processNode fuel op (Some (n_id i0))
                             includeValues ;; ret tt) ops e
    = Returns (tt, e') ->
    nodeCounter e <= nodeCounter e' /\ in_order e' O.
Proof.
  intros IH. induction ops as [|op ops IHops]; intros e O e' Hin Hi H;
    cbn [forEach] in H.
  - injection H as <-. split; [lia|exact Hin].
  - apply bind_returns in H as ([] & e1 & Hop & H).
    apply bind_returns in Hop as (id & e2 & Hop & Hret).
    injection Hret as <-.
    destruct (IH op (Some i0) _ _ _ _ Hin
                ltac:(intros i [= <-]; exact Hi) Hop) as (Hlt & _ & Hin2).
    cbn [snd orphans_after] in *.
    destruct (IHops _ _ _ Hin2 ltac:(lia) H) as (Hle & Hin').
    split; [lia|exact Hin'].
Qed.

Lemma node_spec_all (fuel : nat) : node_spec fuel.
Proof.
  induction fuel as [|fuel IH].
  - intro; intros; discriminate.
  - intros rule p includeValues e O r Hin Hp H.
    cbn [processNode] in H.
    assert (Hleaf : forall shape text,
      bind generateNodeId
        (fun id => bind (push_line (NodeDecl id shape text))
           (fun _ => bind (connect_parent (option_map n_id p) id)
              (fun _ => ret id))) e = Returns r ->
      follows p e O r).
    { clear H. intros shape text H.
      declare H Hin e1 Hc1. connect H Hin e2 Hc2. finish H Hin. }
    assert (Hnode : forall shape text (ops : list jsval),
      bind generateNodeId
        (fun id => bind (push_line (NodeDecl id shape text))
           (fun _ => bind (connect_parent (option_map n_id p) id)
              (fun _ =>
                 bind (forEach
                         (fun op => _ <- processNode fuel op (Some id)
                                          includeValues ;; ret tt) ops)
                   (fun _ => ret id)))) e = Returns r ->
      follows p e O r).
    { clear H. intros shape text ops H.
      declare H Hin e1 Hc1. connect H Hin e2 Hc2.
      apply bind_returns in H as ([] & e3 & Heach & H).
      destruct (each_step fuel includeValues (S (nodeCounter e)) ops IH _ _ _ Hin
                  ltac:(lia)
                  Heach) as (Hle & Hin3).
      cbv [ret] in H. injection H as <-. unfold follows. cbn [fst snd].
      split; [lia|]. split; [reflexivity|exact Hin3]. }
    destruct rule as [| |b|n|s|items|entries];
      try exact (Hleaf _ _ H);
      try (apply convert_inside in H as (text & _ & H);
           exact (Hleaf _ _ H)).
    + discriminate.
    + destruct includeValues; [exact (Hnode _ _ _ H)|exact (Hleaf _ _ H)].
    + destruct entries as [|[operator operands] rest];
        [exact (Hleaf _ _ H)|].
      destruct (operator =? "var")%string;
        [apply convert_inside in H as (varName & _ & H);
         exact (Hleaf _ _ H)|].
      destruct (operator =? "if")%string;
        [exact (proj1 (if_result_spec fuel) _ _ _ _ _ _ Hin Hp H)|].
      destruct (includes comparison_operators operator);
        [|destruct (includes ["and"; "or"]%string operator)];
        destruct operands as [| | | | |ops|es];
        try exact (Hleaf _ _ H); try exact (Hnode _ _ _ H).
      all: declare H Hin e1 Hc1; connect H Hin e2 Hc2;
        apply bind_returns in H as ([] & e3 & Hkid & H);
        apply bind_returns in Hkid as (kid & e4 & Hkid & Hret);
        injection Hret as <-;
        destruct (IH _ (Some (S (nodeCounter e))) _ _ _ _ Hin
                    ltac:(intros i [= <-]; lia) Hkid) as (Hlt & _ & Hin4);
        cbn [snd orphans_after] in *;
        cbv [ret] in H; injection H as <-; unfold follows; cbn [fst snd];
        (split; [lia|]); (split; [reflexivity|exact Hin4]).
Qed.


Lemma n_id_injective (a b : nat) : n_id a = n_id b -> a = b.
Proof.
  unfold n_id. simpl. intros [= H]. apply nat_toString_injective. exact H.
Qed.

Lemma in_order_start (orientation : MermaidOrientation) :
  in_order {| nodeCounter := 0; lines := header orientation;
              connections := [] |} [].
Proof.
  repeat split. exists []. repeat split; constructor.
Qed.

(** X21.  The statements of a diagram form a tree.  The nodes declared are
    [n1], [n2], ... [n<k+1>], each declared once; every edge goes from a
    declared node to one declared after it; and the targets of the edges
    are the nodes [n2] to [n<k+1>], each exactly once, so every node but
    [n1] has exactly one edge into it. *)
Theorem flowchart_is_tree :
  forall (fuel : nat) (rule : jsval) (options : ConversionOptions)
         (statements : list Statement),
    flowchart_statements fuel rule options = Returns statements ->
    exists k pairs,
      declared statements = map n_id (seq 1 (S k)) /\
      NoDup (declared statements) /\
      edges statements = map edge_between pairs /\
      Forall (fun ij => 1 <= fst ij < snd ij /\ snd ij <= S k) pairs /\
      Permutation (map snd pairs) (seq 2 k).
Proof.
  intros fuel rule options statements H.
  unfold flowchart_statements in H.
  destruct (processNode fuel rule None _ _) as [[id e]| |] eqn:Hrun;
    try discriminate.
  injection H as <-.
  destruct (node_spec_all fuel rule None _ _ [] _
              (in_order_start _) ltac:(intros; discriminate) Hrun)
    as (Hlt & _ & Hd & Hel & Hdc & pairs & He & Hok & Hperm).
  cbn [fst snd nodeCounter orphans_after] in *.
  destruct (nodeCounter e) as [|k]; [lia|].
  exists k, pairs.
  assert (Hds : declared (lines e ++ Text "" :: connections e)
                = map n_id (seq 1 (S k))).
  { rewrite declared_app, Hd. cbn [declared flat_map app].
    fold (declared (connections e)). rewrite Hdc. apply List.app_nil_r. }
  assert (Hes : edges (lines e ++ Text "" :: connections e)
                = map edge_between pairs).
  { rewrite edges_app, Hel. cbn [edges flat_map app].
    fold (edges (connections e)). exact He. }
  rewrite Hds, Hes.
  split; [reflexivity|].
  split; [apply NoDup_map_injective; [exact n_id_injective|apply seq_NoDup]|].
  split; [reflexivity|]. split; [exact Hok|].
  apply (Permutation_cons_inv (a := 1)).
  apply Permutation_trans with (map snd pairs ++ [1]); [|exact Hperm].
  apply Permutation_cons_append.
Qed.


End GraphInvariant.

End FlowchartGraph.

(** ** The rows of a vertical layout *)

Section LayoutRows.
Local Open Scope list_scope.
Local Open Scope nat_scope.
Local Open Scope Q_scope.

Context {number : Type}.
#[local] Abbreviation TreeNode := (TreeNode number).

Lemma placed_row_next cfg (Y : Q) (cs : list TreeNode) :
  forall X i ci cj,
    placed_row (fun c childX => Placed cfg c childX Y) cfg cs X ->
    nth_error cs i = Some ci -> nth_error cs (S i) = Some cj ->
    exists Xi,
      Placed cfg ci Xi Y /\
      Placed cfg cj (Xi + childWidth cfg ci + cfg_horizontalSpacing cfg) Y.
Proof.
  induction cs as [|c cs IH]; intros X i ci cj Hrow Hi Hj.
  - destruct i; discriminate.
  - destruct Hrow as [Hc Hrow]. destruct i as [|i].
    + injection Hi as <-. simpl in Hj.
      destruct cs as [|c' cs']; [discriminate|]. injection Hj as <-.
      destruct Hrow as [Hc' _]. exists X. split; assumption.
    + simpl in Hi, Hj. exact (IH _ i ci cj Hrow Hi Hj).
Qed.

(** X22.  With the default configuration (vertical orientation and the
    default sizes, whole numbers, on which the sums of the source are exact)
    the root of
    the layout is at the top and its span starts at the left; and the
    children of every expanded node of the layout form a row: each child
    lies exactly one level (the node height and the vertical spacing) below
    its parent, the span of the first child starts where the span of the
    parent starts, and the span of each further child starts one horizontal
    spacing after the span of the child before it ends. *)
Theorem layout_vertical_rows :
  forall (root : TreeNode) (config : PartialTreeConfig),
    merge_config config = DEFAULT_CONFIG ->
    let cfg := merge_config config in
    let layout := calculateTreeLayout root config in
    (exists top, hd_error (layout_nodes layout) = Some top /\
                 box_top top == 0 /\ span_left top == 0) /\
    forall parent,
      In parent (layout_nodes layout) -> node_expanded parent = true ->
      (forall child, In child (node_children parent) ->
         box_top child
         == box_top parent + cfg_nodeHeight cfg + cfg_verticalSpacing cfg) /\
      (forall first, hd_error (node_children parent) = Some first ->
         span_left first == span_left parent) /\
      (forall i ci cj,
         nth_error (node_children parent) i = Some ci ->
         nth_error (node_children parent) (S i) = Some cj ->
         span_left cj == span_right ci + cfg_horizontalSpacing cfg).
Proof.
  intros root config Hdefault cfg layout. subst layout.
  assert (Hvertical : cfg_orientation (merge_config config) = vertical)
    by (rewrite Hdefault; reflexivity).
  assert (Hspacing : 0 <= cfg_horizontalSpacing (merge_config config))
    by (rewrite Hdefault; discriminate).
  clear Hdefault.
  rewrite layout_nodes_visible. subst cfg.
  set (cfg := merge_config config) in *.
  assert (HP : Placed cfg (positioned root cfg) 0 0).
  { unfold positioned. rewrite Hvertical.
    apply assignVerticalPositions_placed; [exact Hspacing|].
    apply calculateSubtreeWidths_measured; [exact Hspacing|].
    apply assignNodeWidths_sized. }
  split.
  { exists (positioned root cfg).
    destruct (placed_geometry _ _ _ _ HP) as (Hl & Ht & _).
    split; [destruct (positioned root cfg); reflexivity|]. split; assumption. }
  intros parent Hin He.
  destruct (placed_visible _ Hspacing _ _ _ HP parent Hin) as (x & y & HPp).
  destruct (placed_geometry _ _ _ _ HPp) as (Hpl & Hpt & _).
  destruct parent as [n].
  destruct (placed_expanded _ _ _ _ HPp He) as [Hrow _].
  cbn [node_children fields].
  split; [|split].
  - intros child Hc.
    destruct (placed_row_bounds _ Hspacing _ _ _ Hrow) as [_ Hall].
    destruct (Hall child Hc) as (Xc & HPc & _).
    destruct (placed_geometry _ _ _ _ HPc) as (_ & Hct & _). lra.
  - intros first Hfirst. destruct (node_children n) as [|c cs];
      [discriminate|]. injection Hfirst as <-. destruct Hrow as [Hc _].
    destruct (placed_geometry _ _ _ _ Hc) as (Hcl & _). lra.
  - intros i ci cj Hi Hj.
    destruct (placed_row_next _ _ _ _ _ _ _ Hrow Hi Hj) as (Xi & HPi & HPj).
    destruct (placed_geometry _ _ _ _ HPi) as (Hil & _ & _ & _ & Hiw & _).
    destruct (placed_geometry _ _ _ _ HPj) as (Hjl & _).
    unfold span_right. lra.
Qed.

End LayoutRows.

(** ** The order of toggles *)

Section ToggleOrder.
Local Open Scope list_scope.
Local Open Scope nat_scope.

Context {number : Type} {host : Host number}.
#[local] Abbreviation TreeNode := (TreeNode number).
#[local] Abbreviation heap := (heap number).

Lemma app_same_length {A} (a a' b b' : list A) :
  length a = length a' -> a ++ b = a' ++ b' -> a = a' /\ b = b'.
Proof.
  revert a'. induction a as [|x a IH]; intros [|x' a'] Hlen Heq;
    simpl in *; try lia; [auto|].
  injection Heq as -> Heq. destruct (IH a' ltac:(lia) Heq) as [-> ->]. auto.
Qed.

Lemma preorder_length (t : TreeNode) : length (preorder t) = size t.
Proof.
  induction t as [n IH] using TreeNode_nested_ind.
  rewrite preorder_unfold, size_unfold. simpl. f_equal.
  induction IH as [|c cs Hc _ IHcs]; simpl; [reflexivity|].
  rewrite length_app, Hc, IHcs. reflexivity.
Qed.

Lemma size_erase (t : TreeNode) : size (erase_expanded t) = size t.
Proof.
  induction t as [n IH] using TreeNode_nested_ind.
  rewrite erase_expanded_unfold, !size_unfold. cbn [node_children set_children].
  f_equal. induction IH as [|c cs Hc _ IHcs]; simpl; [reflexivity|].
  unfold sizes in *. simpl. rewrite Hc, IHcs. reflexivity.
Qed.

Lemma tree_ids_erase (t : TreeNode) :
  tree_ids (erase_expanded t) = tree_ids t.
Proof.
  induction t as [n IH] using TreeNode_nested_ind.
  rewrite erase_expanded_unfold, !tree_ids_unfold.
  cbn [node_children set_children node_id set_expanded]. f_equal.
  unfold forest_ids. induction IH as [|c cs Hc _ IHcs]; simpl; [reflexivity|].
  rewrite Hc, IHcs. reflexivity.
Qed.

(** A tree is its erasure and its flags. *)
Lemma flags_determine (t : TreeNode) :
  forall t', erase_expanded t = erase_expanded t' ->
             tree_flags t = tree_flags t' -> t = t'.
Proof.
  induction t as [n IH] using TreeNode_nested_ind.
  intros [n'] Herase Hflags.
  rewrite !erase_expanded_unfold in Herase.
  rewrite !tree_flags_unfold in Hflags.
  injection Hflags as Hexp Hforest.
  assert (Hkids : node_children n = node_children n').
  { assert (Hmap : map erase_expanded (node_children n)
                   = map erase_expanded (node_children n'))
      by (injection Herase; intros; assumption).
    clear Herase Hexp. revert Hmap Hforest.
    generalize (node_children n') as cs'.
    induction IH as [|c cs Hc _ IHcs]; intros [|c' cs'] Hmap Hforest;
      simpl in Hmap; try discriminate; [reflexivity|].
    injection Hmap as Hc' Hmap. unfold forest_flags in Hforest.
    simpl in Hforest.
    apply app_same_length in Hforest as [Hfc Hfcs].
    - rewrite (Hc c' Hc' Hfc), (IHcs cs' Hmap Hfcs). reflexivity.
    - rewrite !tree_flags_length. unfold tree_ids. rewrite !length_map.
      rewrite !preorder_length, <- (size_erase c), Hc', size_erase.
      reflexivity. }
  destruct n, n'. cbn in *. injection Herase. intros. subst. reflexivity.
Qed.

Lemma position_first (id : string) (ids : list string) (k : nat) :
  first_at id ids k -> position id ids = Some k.
Proof.
  revert k. induction ids as [|x ids IH]; intros k [Hk Hmin].
  - destruct k; discriminate.
  - simpl. destruct (String.eqb_spec x id) as [->|Hne].
    + destruct k as [|k]; [reflexivity|].
      exfalso. apply (Hmin 0); [lia|reflexivity].
    + destruct k as [|k]; [simpl in Hk; congruence|].
      rewrite (IH k); [reflexivity|]. split; [exact Hk|].
      intros j Hj. apply (Hmin (S j)). lia.
Qed.

Lemma position_none (id : string) (ids : list string) :
  ~ In id ids -> position id ids = None.
Proof.
  induction ids as [|x ids IH]; simpl; [reflexivity|]. intros Hnot.
  destruct (String.eqb_spec x id) as [->|Hne]; [tauto|].
  rewrite IH; [reflexivity|tauto].
Qed.

Lemma tree_flags_toggled (id : string) (t : TreeNode) :
  tree_flags (toggled id t) = toggled_flags id (tree_ids t) (tree_flags t).
Proof.
  pose proof (toggle_first_flags id t) as H. unfold toggled, toggled_flags.
  destruct (toggle_first id t) as [t'|]; simpl in H.
  - destruct H as (k & Hk & ->). rewrite (position_first _ _ _ Hk).
    reflexivity.
  - rewrite (position_none _ _ H). reflexivity.
Qed.

Lemma tree_ids_toggled (id : string) (t : TreeNode) :
  tree_ids (toggled id t) = tree_ids t.
Proof.
  rewrite <- (tree_ids_erase (toggled id t)), toggled_erase.
  apply tree_ids_erase.
Qed.

Lemma update_at_swap {A} (f : A -> A) (i j : nat) (xs : list A) :
  update_at i f (update_at j f xs) = update_at j f (update_at i f xs).
Proof.
  revert i j. induction xs as [|x xs IH]; intros [|i] [|j]; simpl;
    try reflexivity. rewrite IH. reflexivity.
Qed.

Lemma toggled_swap (a b : string) (t : TreeNode) :
  toggled a (toggled b t) = toggled b (toggled a t).
Proof.
  apply flags_determine.
  - rewrite !toggled_erase. reflexivity.
  - rewrite !tree_flags_toggled, !tree_ids_toggled. unfold toggled_flags.
    destruct (position a (tree_ids t)), (position b (tree_ids t));
      try reflexivity. apply update_at_swap.
Qed.

(** X23.  The order of two toggles does not matter: toggling [a] and then
    [b] gives a tree equal to the one that toggling [b] and then [a]
    gives, whatever the two ids are. *)
Theorem toggleNodeExpansion_commutes :
  forall (fuel : nat) (h : heap) (root : loc) (t : TreeNode)
         (a b : string),
    rep h root t -> json_tree t -> height t <= fuel ->
    exists h1 ta h2 tab h3 tb h4 tba t',
      toggleNodeExpansion fuel root a h = Returns (ta, h1) /\
      toggleNodeExpansion fuel ta b h1 = Returns (tab, h2) /\
      toggleNodeExpansion fuel root b h2 = Returns (tb, h3) /\
      toggleNodeExpansion fuel tb a h3 = Returns (tba, h4) /\
      rep h4 tab t' /\ rep h4 tba t'.
Proof.
  intros fuel h root t a b Hrep Hjson Hfuel.
  assert (Hsame : forall id, height (toggled id t) <= fuel /\
                             json_tree (toggled id t)).
  { intros id. destruct (same_erasure _ _ (toggled_erase id t)) as [Hh Hj].
    split; [lia|exact (Hj Hjson)]. }
  destruct (toggle_core fuel h root t a Hrep Hjson Hfuel)
    as (h1 & ta & Hrun1 & Hkeeps1 & _ & Hta).
  destruct (Hsame a) as [Hha Hja].
  destruct (toggle_core fuel h1 ta (toggled a t) b Hta Hja Hha)
    as (h2 & tab & Hrun2 & Hkeeps2 & _ & Htab).
  assert (Hroot2 : rep h2 root t).
  { apply (rep_keeps h1 h2 t Hkeeps2), (rep_keeps h h1 t Hkeeps1), Hrep. }
  destruct (toggle_core fuel h2 root t b Hroot2 Hjson Hfuel)
    as (h3 & tb & Hrun3 & Hkeeps3 & _ & Htb).
  destruct (Hsame b) as [Hhb Hjb].
  destruct (toggle_core fuel h3 tb (toggled b t) a Htb Hjb Hhb)
    as (h4 & tba & Hrun4 & Hkeeps4 & _ & Htba).
  exists h1, ta, h2, tab, h3, tb, h4, tba, (toggled a (toggled b t)).
  repeat (split; [assumption|]). split; [|exact Htba].
  rewrite toggled_swap.
  apply (rep_keeps h3 h4 _ Hkeeps4), (rep_keeps h2 h3 _ Hkeeps3), Htab.
Qed.

End ToggleOrder.

(** ** The texts of a diagram *)

Section StrippedTexts.
Local Open Scope list_scope.
Local Open Scope nat_scope.
Import Mermaid.

Lemma stripped_unsafe (c : ascii) : In c stripped_chars -> In c unsafe_chars.
Proof. unfold stripped_chars, unsafe_chars. simpl. tauto. Qed.

Lemma stripped_escapeLabel (text : string) : stripped (escapeLabel text).
Proof.
  intros c Hc Hbreak. rewrite escapeLabel_chars in Hc.
  apply firstn_keeps in Hc. apply in_flat_map in Hc as (d & _ & Hc).
  exact (normalized_safe d c Hc (stripped_unsafe c Hbreak)).
Qed.

Lemma stripped_quoted (text : string) :
  stripped text -> stripped (quoted text).
Proof.
  intros Hs c Hc. unfold quoted, dquote in Hc.
  rewrite !chars_append in Hc. simpl in Hc.
  rewrite in_app_iff in Hc. simpl in Hc.
  destruct Hc as [<-|[Hc|[<-|[]]]]; [|exact (Hs c Hc)|];
    vm_compute; intuition discriminate.
Qed.

Ltac constant_stripped :=
  let c := fresh "c" in let Hc := fresh "Hc" in
  intros c Hc; simpl in Hc;
  repeat (destruct Hc as [<-|Hc];
          [vm_compute; solve [intuition discriminate]|]);
  destruct Hc.

Lemma stripped_bool (b : bool) : stripped (if b then "true" else "false").
Proof. destruct b; constant_stripped. Qed.

Section Steps.

Context {A : Type}.

Lemma stripped_declare (shape : Shape) (text : string) (K : string -> Emit A)
    (e : Emitter) r :
  texts_stripped e -> stripped text \/ text = "{}" ->
  bind generateNodeId
    (fun id => bind (push_line (NodeDecl id shape text)) (fun _ => K id)) e
  = Returns r ->
  exists id e1, texts_stripped e1 /\ K id e1 = Returns r.
Proof.
  intros [Hl Hc] Ht H. cbv [bind generateNodeId push_line] in H.
  refine (ex_intro _ _ (ex_intro _ _ (conj _ H))).
  split; cbn [lines connections]; [|exact Hc].
  apply Forall_app. split; [exact Hl|]. constructor; [exact Ht|constructor].
Qed.

Lemma stripped_class (id class : string) (K : Emit A) (e : Emitter) r :
  texts_stripped e ->
  bind (push_line (ClassOf id class)) (fun _ => K) e = Returns r ->
  exists e1, texts_stripped e1 /\ K e1 = Returns r.
Proof.
  intros [Hl Hc] H. cbv [bind push_line] in H.
  refine (ex_intro _ _ (conj _ H)).
  split; cbn [lines connections]; [|exact Hc].
  apply Forall_app. split; [exact Hl|]. constructor; [exact I|constructor].
Qed.

Lemma stripped_edge (source target : string) (label : option string)
    (e : Emitter) :
  texts_stripped e -> statement_stripped (Edge source label target) ->
  texts_stripped {| nodeCounter := nodeCounter e; lines := lines e;
                connections := connections e ++ [Edge source label target] |}.
Proof.
  intros [Hl Hc] Hs. split; cbn [lines connections]; [exact Hl|].
  apply Forall_app. split; [exact Hc|]. constructor; [exact Hs|constructor].
Qed.

Lemma stripped_parent (parentId : option string) (id : string) (K : Emit A)
    (e : Emitter) r :
  texts_stripped e ->
  bind (connect_parent parentId id) (fun _ => K) e = Returns r ->
  exists e1, texts_stripped e1 /\ K e1 = Returns r.
Proof.
  intros Hs H. destruct parentId as [parent|]; cbn [connect_parent] in H.
  - cbv [bind push_connection] in H. refine (ex_intro _ _ (conj _ H)).
    apply stripped_edge; [exact Hs|exact I].
  - exists e. auto.
Qed.

End Steps.

Section Induction.

Context {number : Type} {host : Host number}.
#[local] Abbreviation jsval := (jsval number).

Hypothesis number_stripped : forall n : number, stripped (Number_toString n).

Lemma stripped_logical (operator : string) :
  includes ["and"; "or"] operator = true -> stripped operator.
Proof.
  unfold includes. simpl. intros H.
  apply orb_prop in H as [H|H];
    [|apply orb_prop in H as [H|H]; [|discriminate]];
    apply String.eqb_eq in H; subst; constant_stripped.
Qed.

Ltac text_stripped :=
  first [ assumption
        | right; reflexivity
        | left;
          first [ apply stripped_escapeLabel
                | apply stripped_quoted; apply stripped_escapeLabel
                | apply number_stripped
                | apply stripped_bool
                | assumption
                | constant_stripped ] ].

Ltac sdeclare H Hs :=
  apply stripped_declare in H; [|exact Hs|text_stripped]; clear Hs;
  let id := fresh "id" in let e1 := fresh "e" in
  destruct H as (id & e1 & Hs & H).

Ltac sclass H Hs :=
  apply stripped_class in H; [|exact Hs]; clear Hs;
  let e1 := fresh "e" in destruct H as (e1 & Hs & H).

Ltac sparent H Hs :=
  apply stripped_parent in H; [|exact Hs]; clear Hs;
  let e1 := fresh "e" in destruct H as (e1 & Hs & H).

Ltac sfinish H Hs := cbv [ret] in H; injection H as <-; exact Hs.

Lemma stripped_branch_run {A} (fuel : nat) (includeValues : bool)
    (result : jsval) (id label : string) (K : Emit A) (e : Emitter) r :
  result_stripped fuel -> texts_stripped e ->
  label = yes_label \/ label = no_label ->
  bind (branchId <- processResultNode fuel result includeValues ;;
        push_connection (Edge id (Some label) branchId))
    (fun _ => K) e = Returns r ->
  exists e1, texts_stripped e1 /\ K e1 = Returns r.
Proof.
  intros IHr Hs Hlabel Hrun.
  apply bind_returns in Hrun as ([] & e2 & Hb & Hrun).
  apply bind_returns in Hb as (bid & e3 & Hres & Hpush).
  pose proof (IHr _ _ _ _ Hs Hres) as Hs3. cbn [snd] in Hs3.
  cbv [push_connection] in Hpush. injection Hpush as <-.
  refine (ex_intro _ _ (conj _ Hrun)). apply stripped_edge; assumption.
Qed.

Lemma stripped_skip_run {A} (K : Emit A) (e : Emitter) r :
  texts_stripped e ->
  bind (ret tt) (fun _ => K) e = Returns r ->
  exists e1, texts_stripped e1 /\ K e1 = Returns r.
Proof. intros Hs H. exists e. auto. Qed.

Lemma if_result_stripped (fuel : nat) : if_stripped fuel /\ result_stripped fuel.
Proof.
  induction fuel as [|fuel [IHi IHr]].
  - split; intro; intros; discriminate.
  - split.
    + intros operands parentId includeValues e r Hs H.
      cbn [processIfNode] in H. fold (@processResultNode number host) in H.
      assert (Hplace :
        bind generateNodeId
          (fun id => bind (push_line (NodeDecl id Hexagon (quoted "IF ?")))
             (fun _ => bind (push_line (ClassOf id "condition"))
                (fun _ => bind (connect_parent parentId id)
                   (fun _ => ret id)))) e = Returns r ->
        texts_stripped (snd r)).
      { clear H. intros H.
        sdeclare H Hs. sclass H Hs. sparent H Hs. sfinish H Hs. }
      destruct operands as [| | | | |ops|]; try exact (Hplace H).
      destruct (length ops <? 2); [exact (Hplace H)|]. clear Hplace.
      apply convert_first in H as (conditionLabel & _ & H).
      sdeclare H Hs. sclass H Hs. sparent H Hs.
      destruct (index ops 1);
        [apply (stripped_skip_run _ _ _ Hs) in H
        |apply (stripped_branch_run fuel _ _ _ _ _ _ _ IHr Hs) in H;
         [|left; reflexivity]..];
        clear Hs; destruct H as (e4 & Hs & H);
        (destruct (index ops 2);
         [apply (stripped_skip_run _ _ _ Hs) in H
         |apply (stripped_branch_run fuel _ _ _ _ _ _ _ IHr Hs) in H;
          [|right; reflexivity]..]);
        clear Hs; destruct H as (e5 & Hs & H);
        cbv [ret] in H; injection H as <-; exact Hs.
    + intros rule includeValues e r Hs H.
      cbn [processResultNode] in H. fold (@processIfNode number host) in H.
      assert (Hresult : forall label,
        bind generateNodeId
          (fun id => bind (push_line (NodeDecl id Terminator
                                        (quoted (escapeLabel label))))
             (fun _ => bind (push_line (ClassOf id "result"))
                (fun _ => ret id))) e = Returns r ->
        texts_stripped (snd r)).
      { clear H. intros label H. sdeclare H Hs. sclass H Hs. sfinish H Hs. }
      destruct rule as [| |b|n|s|items|entries];
        try exact (Hresult _ H).
      * cbv [bind generateNodeId throw] in H. discriminate.
      * destruct entries as [|[key operands] rest]; [exact (Hresult _ H)|].
        destruct ((key =? "if")%string || (key =? "?:")%string).
        -- exact (IHi operands None _ _ _ Hs H).
        -- destruct (key =? "var")%string; [|exact (Hresult _ H)].
           apply convert_inside in H as (label & _ & H).
           sdeclare H Hs. sclass H Hs. sfinish H Hs.
Qed.

Lemma each_stripped (fuel : nat) (includeValues : bool) (id : string)
    (ops : list jsval) :
  node_stripped fuel ->
  forall e e',
    texts_stripped e ->
    forEach (fun op => _ <- processNode fuel op (Some id)
                             includeValues ;; ret tt) ops e
    = Returns (tt, e') ->
    texts_stripped e'.
Proof.
  intros IH. induction ops as [|op ops IHops]; intros e e' Hs H;
    cbn [forEach] in H.
  - injection H as <-. exact Hs.
  - apply bind_returns in H as ([] & e1 & Hop & H).
    apply bind_returns in Hop as (kid & e2 & Hop & Hret).
    injection Hret as <-.
    pose proof (IH _ _ _ _ _ Hs Hop) as Hs2. cbn [snd] in Hs2.
    exact (IHops _ _ Hs2 H).
Qed.

Lemma node_stripped_all (fuel : nat) : node_stripped fuel.
Proof.
  induction fuel as [|fuel IH].
  - intro; intros; discriminate.
  - intros rule parentId includeValues e r Hs H.
    cbn [processNode] in H.
    assert (Hleaf : forall shape text, stripped text \/ text = "{}" ->
      bind generateNodeId
        (fun id => bind (push_line (NodeDecl id shape text))
           (fun _ => bind (connect_parent parentId id)
              (fun _ => ret id))) e = Returns r ->
      texts_stripped (snd r)).
    { clear H. intros shape text Ht H.
      sdeclare H Hs. sparent H Hs. sfinish H Hs. }
    assert (Hnode : forall shape text (ops : list jsval),
      stripped text \/ text = "{}" ->
      bind generateNodeId
        (fun id => bind (push_line (NodeDecl id shape text))
           (fun _ => bind (connect_parent parentId id)
              (fun _ =>
                 bind (forEach
                         (fun op => _ <- processNode fuel op (Some id)
                                          includeValues ;; ret tt) ops)
                   (fun _ => ret id)))) e = Returns r ->
      texts_stripped (snd r)).
    { clear H. intros shape text ops Ht H.
      sdeclare H Hs. sparent H Hs.
      apply bind_returns in H as ([] & e3 & Heach & H).
      pose proof (each_stripped fuel includeValues _ ops IH _ _ Hs Heach) as Hs3.
      cbv [ret] in H. injection H as <-. exact Hs3. }
    assert (Hone : forall shape text (operands : jsval),
      stripped text \/ text = "{}" ->
      bind generateNodeId
        (fun id => bind (push_line (NodeDecl id shape text))
           (fun _ => bind (connect_parent parentId id)
              (fun _ =>
                 bind (_ <- processNode fuel operands (Some id)
                             includeValues ;; ret tt)
                   (fun _ => ret id)))) e = Returns r ->
      texts_stripped (snd r)).
    { clear H. intros shape text operands Ht H.
      sdeclare H Hs. sparent H Hs.
      apply bind_returns in H as ([] & e3 & Hkid & H).
      apply bind_returns in Hkid as (kid & e4 & Hkid & Hret).
      injection Hret as <-.
      pose proof (IH _ _ _ _ _ Hs Hkid) as Hs4. cbn [snd] in Hs4.
      cbv [ret] in H. injection H as <-. exact Hs4. }
    destruct rule as [| |b|n|s|items|entries];
      try (eapply Hleaf; [|exact H]; text_stripped);
      try (apply convert_inside in H as (text & Ht & H);
           first [destruct b|idtac]; cbn [ToString] in Ht;
           injection Ht as <-;
           (eapply Hleaf; [|exact H]); text_stripped).
    + discriminate.
    + destruct includeValues;
        [eapply Hnode; [|exact H]|eapply Hleaf; [|exact H]]; text_stripped.
    + destruct entries as [|[operator operands] rest];
        [eapply Hleaf; [|exact H]; text_stripped|].
      destruct (operator =? "var")%string;
        [apply convert_inside in H as (varName & _ & H);
         eapply Hleaf; [|exact H]; text_stripped|].
      destruct (operator =? "if")%string;
        [exact (proj1 (if_result_stripped fuel) _ _ _ _ _ Hs H)|].
      destruct (includes comparison_operators operator);
        [|destruct (includes ["and"; "or"]%string operator) eqn:Hlogical;
          [pose proof (stripped_logical _ Hlogical)|]];
        destruct operands as [| | | | |ops|es];
        first [ eapply Hleaf; [|exact H]; text_stripped
              | eapply Hnode; [|exact H]; text_stripped
              | eapply Hone; [|exact H]; text_stripped ].
Qed.

(** X24.  In the statements emitted, the text of every node holds no angle
    bracket, no curly brace, no pipe and no newline, the one exception
    being the fixed text [{}] that stands for an empty object; and every
    edge label is one of the two fixed labels.  The printer of numbers is
    taken to print none of the six characters.  Nothing is said of the
    other characters: a text may hold a square bracket, a parenthesis or a
    slash. *)
Theorem flowchart_texts_stripped :
  forall (fuel : nat) (rule : jsval) (options : ConversionOptions)
         (statements : list Statement),
    flowchart_statements fuel rule options = Returns statements ->
    forall st, In st statements -> statement_stripped st.
Proof.
  intros fuel rule options statements H.
  unfold flowchart_statements in H.
  destruct (processNode fuel rule None _ _) as [[id e]| |] eqn:Hrun;
    try discriminate.
  injection H as <-.
  assert (Hstart : texts_stripped
            {| nodeCounter := 0;
               lines := header (override (opt_orientation options) TD);
               connections := [] |}).
  { split; [|constructor]. cbn [lines]. unfold header.
    repeat constructor. }
  destruct (node_stripped_all fuel _ _ _ _ _ Hstart Hrun) as [Hl Hc].
  cbn [snd] in *. rewrite Forall_forall in Hl, Hc.
  intros st Hin. apply in_app_iff in Hin as [Hin|Hin]; [auto|].
  destruct Hin as [<-|Hin]; [exact I|auto].
Qed.

End Induction.

End StrippedTexts.

Lemma digits_stripped (d : uint) : stripped (NilEmpty.string_of_uint d).
Proof.
  induction d; intros c Hc; simpl in Hc; try destruct Hc as [<-|Hc];
    try (apply IHd; exact Hc); try contradiction;
    vm_compute; intuition discriminate.
Qed.

Lemma decimal_stripped (d : uint) : stripped (NilZero.string_of_uint d).
Proof.
  destruct d; try exact (digits_stripped _).
  intros c [<-|[]]. vm_compute. intuition discriminate.
Qed.

Lemma Z_toString_stripped (z : Z) : stripped (Z_toString z).
Proof.
  unfold Z_toString, NilZero.string_of_int.
  destruct (Z.to_int z) as [d|d]; [apply decimal_stripped|].
  intros c [<-|Hc]; [vm_compute; intuition discriminate|].
  exact (decimal_stripped d c Hc).
Qed.

(** ** The properties above, on the scenarios *)

Lemma buildLabel_empty_iff_joins_nothing_witness :
  (forall n : Z, Number_toString n <> "") /\
  (buildLabel rule_empty_and false = Some ""
   <-> joins_nothing rule_empty_and = true).
Proof.
  split; [exact Z_toString_nonempty|].
  apply (@buildLabel_empty_iff_joins_nothing Z Z_host Z_toString_nonempty).
Defined.

Lemma parseRuleToTree_var_throws_witness :
  parseRuleToTree 1 rule_var_unprintable None 0 [] 0 = Throws TypeError.
Proof.
  apply (@parseRuleToTree_var_throws Z Z_host 0 [("toString", JNumber 1%Z)]
           [] [] None 0%nat [] 0%nat).
  reflexivity.
Defined.

Lemma toMermaidFlowchart_var_throws_witness :
  Mermaid.toMermaidFlowchart 1 rule_var_unprintable Mermaid.no_options
  = Throws TypeError.
Proof.
  apply (@toMermaidFlowchart_var_throws Z Z_host 0
           [("toString", JNumber 1%Z)] [] [] Mermaid.no_options).
  reflexivity.
Defined.

Lemma parseRuleToTree_returns_witness :
  exists tree counter',
    parseRuleToTree 20 rule_chain_with_else None 0 [] 0
    = Returns (tree, counter').
Proof.
  apply (@parseRuleToTree_returns Z Z_host rule_chain_with_else 20 None 0%nat
           [] 0%nat); [reflexivity|reflexivity|reflexivity|vm_compute; lia].
Defined.

Lemma parseRuleToTree_even_chain_witness :
  parseRuleToTree 20 rule_chain_without_else None 0 [] 0
  <> Returns (tree_null, 0%nat).
Proof.
  apply (@parseRuleToTree_even_chain Z Z_host 20 "if"
           [JBool true; JString "a"; JBool false; JString "b"] [] None 0%nat
           [] 0%nat (tree_null, 0%nat));
    [reflexivity|simpl; lia|reflexivity].
Defined.

Lemma parseRuleToTree_ids_witness :
  tree_ids tree_adult_or_minor = node_ids 1 (size tree_adult_or_minor) /\
  NoDup (tree_ids tree_adult_or_minor) /\
  3%nat = size tree_adult_or_minor.
Proof.
  apply (@parseRuleToTree_ids Z Z_host 3 rule_adult_or_minor None [] 7%nat
           tree_adult_or_minor 3%nat).
  reflexivity.
Defined.

Lemma parseRuleToTree_links_witness :
  node_parent tree_adult_or_minor = None /\
  node_depth tree_adult_or_minor = 0%nat /\
  linked tree_adult_or_minor.
Proof.
  apply (@parseRuleToTree_links Z Z_host 3 rule_adult_or_minor None 0%nat []
           0%nat tree_adult_or_minor 3%nat).
  reflexivity.
Defined.

Lemma height_adult_or_minor : (height tree_adult_or_minor <= 2)%nat.
Proof. simpl. lia. Qed.

Lemma flattenTree_preorder_witness :
  exists nodes,
    flattenTree 2 2%nat heap_adult_or_minor
    = Returns (nodes, heap_adult_or_minor) /\
    Forall2 (rep heap_adult_or_minor) nodes (preorder tree_adult_or_minor) /\
    length nodes = size tree_adult_or_minor /\
    hd_error nodes = Some 2%nat.
Proof.
  exact (flattenTree_preorder 2 heap_adult_or_minor 2%nat tree_adult_or_minor
           rep_adult_or_minor height_adult_or_minor).
Defined.

Lemma findNodeById_first_match_witness :
  exists result,
    findNodeById 2 2%nat "node-3" heap_adult_or_minor
    = Returns (result, heap_adult_or_minor) /\
    match result with
    | Some p =>
        exists s before after,
          rep heap_adult_or_minor p s /\ node_id s = "node-3" /\
          preorder tree_adult_or_minor = (before ++ s :: after)%list /\
          ~ In "node-3" (map (fun d : TreeNode Z => node_id d) before)
    | None => ~ In "node-3" (tree_ids tree_adult_or_minor)
    end.
Proof.
  exact (findNodeById_first_match 2 heap_adult_or_minor 2%nat
           tree_adult_or_minor "node-3" rep_adult_or_minor
           height_adult_or_minor).
Defined.

Lemma getPathToNode_spec_witness :
  exists nodes,
    getPathToNode 2 2%nat "node-3" heap_adult_or_minor
    = Returns (nodes, heap_adult_or_minor) /\
    match find (has_id "node-3") (preorder tree_adult_or_minor) with
    | Some s =>
        exists path front,
          Forall2 (rep heap_adult_or_minor) nodes path /\
          hd_error path = Some tree_adult_or_minor /\
          path = (front ++ [s])%list /\
          node_id s = "node-3" /\ descends path
    | None => nodes = [] /\ ~ In "node-3" (tree_ids tree_adult_or_minor)
    end.
Proof.
  exact (getPathToNode_spec 2 heap_adult_or_minor 2%nat tree_adult_or_minor
           "node-3" rep_adult_or_minor height_adult_or_minor).
Defined.

Lemma toggleNodeExpansion_unknown_id_witness :
  exists h' clone,
    toggleNodeExpansion 2 2%nat "node-9" heap_adult_or_minor
    = Returns (clone, h') /\
    (length heap_adult_or_minor <= clone)%nat /\
    keeps heap_adult_or_minor h' /\
    rep h' 2%nat tree_adult_or_minor /\ rep h' clone tree_adult_or_minor.
Proof.
  apply (toggleNodeExpansion_unknown_id 2 heap_adult_or_minor 2%nat
           tree_adult_or_minor "node-9" rep_adult_or_minor
           json_tree_adult_or_minor height_adult_or_minor).
  simpl. intuition discriminate.
Defined.

Lemma expandAllNodes_spec_witness :
  exists h' clone t',
    expandAllNodes 2 2%nat heap_adult_or_minor = Returns (clone, h') /\
    (length heap_adult_or_minor <= clone)%nat /\
    keeps heap_adult_or_minor h' /\
    rep h' 2%nat tree_adult_or_minor /\
    rep h' clone t' /\
    (forall d, In d (preorder t') -> node_expanded d = true) /\
    erase_expanded t' = erase_expanded tree_adult_or_minor.
Proof.
  exact (expandAllNodes_spec 2 heap_adult_or_minor 2%nat tree_adult_or_minor
           rep_adult_or_minor json_tree_adult_or_minor height_adult_or_minor).
Defined.

Lemma collapseAllNodes_idempotent_witness :
  exists h' once h'' twice t',
    collapseAllNodes 2 2%nat heap_adult_or_minor = Returns (once, h') /\
    collapseAllNodes 2 once h' = Returns (twice, h'') /\
    rep h'' once t' /\ rep h'' twice t'.
Proof.
  exact (collapseAllNodes_idempotent 2 heap_adult_or_minor 2%nat
           tree_adult_or_minor rep_adult_or_minor json_tree_adult_or_minor
           height_adult_or_minor).
Defined.

Lemma expandAllNodes_after_collapseAllNodes_witness :
  exists h1 folded h2 unfolded h3 direct t',
    collapseAllNodes 2 2%nat heap_adult_or_minor = Returns (folded, h1) /\
    expandAllNodes 2 folded h1 = Returns (unfolded, h2) /\
    expandAllNodes 2 2%nat h2 = Returns (direct, h3) /\
    rep h3 unfolded t' /\ rep h3 direct t'.
Proof.
  exact (expandAllNodes_after_collapseAllNodes 2 heap_adult_or_minor 2%nat
           tree_adult_or_minor rep_adult_or_minor json_tree_adult_or_minor
           height_adult_or_minor).
Defined.

Lemma toggleNodeExpansion_commutes_witness :
  exists h1 ta h2 tab h3 tb h4 tba t',
    toggleNodeExpansion 2 2%nat "node-2" heap_adult_or_minor
    = Returns (ta, h1) /\
    toggleNodeExpansion 2 ta "node-3" h1 = Returns (tab, h2) /\
    toggleNodeExpansion 2 2%nat "node-3" h2 = Returns (tb, h3) /\
    toggleNodeExpansion 2 tb "node-2" h3 = Returns (tba, h4) /\
    rep h4 tab t' /\ rep h4 tba t'.
Proof.
  exact (toggleNodeExpansion_commutes 2 heap_adult_or_minor 2%nat
           tree_adult_or_minor "node-2" "node-3" rep_adult_or_minor
           json_tree_adult_or_minor height_adult_or_minor).
Defined.

Lemma layout_vertical_in_canvas_witness :
  let layout := calculateTreeLayout tree_adult_or_minor no_config in
  let d := positioned tree_adult_or_minor (merge_config no_config) in
  (0 <= box_left d /\
   box_right d + cfg_horizontalSpacing DEFAULT_CONFIG
     <= layout_width layout /\
   0 <= box_top d /\
   box_top d + number_or (node_height d) 44
     + cfg_verticalSpacing DEFAULT_CONFIG
     <= layout_height layout)%Q.
Proof.
  apply (layout_vertical_in_canvas tree_adult_or_minor no_config).
  - reflexivity.
  - vm_compute. discriminate.
  - vm_compute. discriminate.
  - apply layout_root_visible.
Defined.

Lemma layout_vertical_rows_witness :
  let cfg := merge_config no_config in
  let layout := calculateTreeLayout tree_adult_or_minor no_config in
  (exists top, hd_error (layout_nodes layout) = Some top /\
               (box_top top == 0)%Q /\ (span_left top == 0)%Q) /\
  forall parent,
    In parent (layout_nodes layout) -> node_expanded parent = true ->
    (forall child, In child (node_children parent) ->
       (box_top child
        == box_top parent + cfg_nodeHeight cfg + cfg_verticalSpacing cfg)%Q) /\
    (forall first, hd_error (node_children parent) = Some first ->
       (span_left first == span_left parent)%Q) /\
    (forall i ci cj,
       nth_error (node_children parent) i = Some ci ->
       nth_error (node_children parent) (S i) = Some cj ->
       (span_left cj == span_right ci + cfg_horizontalSpacing cfg)%Q).
Proof.
  apply (layout_vertical_rows tree_adult_or_minor no_config).
  reflexivity.
Defined.

Lemma escapeLabel_clean_witness :
  Mermaid.escapeLabel "age" = substring 0 50 "age" /\
  ((String.length "age" <= 50)%nat -> Mermaid.escapeLabel "age" = "age").
Proof.
  apply (escapeLabel_clean "age").
  intros c Hc. simpl in Hc.
  destruct Hc as [<-|[<-|[<-|[]]]]; vm_compute; intuition discriminate.
Defined.

Lemma toMermaidFlowchart_returns_witness :
  exists document,
    Mermaid.toMermaidFlowchart 20 rule_chain_with_else Mermaid.no_options
    = Returns document.
Proof.
  apply (@toMermaidFlowchart_returns Z Z_host rule_chain_with_else 20
           Mermaid.no_options); [reflexivity|reflexivity|vm_compute; lia].
Defined.

Lemma flowchart_is_tree_witness :
  exists k pairs,
    declared statements_adult_or_minor = map n_id (seq 1 (S k)) /\
    NoDup (declared statements_adult_or_minor) /\
    edges statements_adult_or_minor = map edge_between pairs /\
    Forall (fun ij => (1 <= fst ij < snd ij)%nat /\ (snd ij <= S k)%nat)
      pairs /\
    Permutation (map snd pairs) (seq 2 k).
Proof.
  apply (@flowchart_is_tree Z Z_host 3 rule_adult_or_minor Mermaid.no_options
           statements_adult_or_minor).
  reflexivity.
Defined.

Lemma flowchart_texts_stripped_witness :
  statement_stripped
    (Mermaid.NodeDecl "n2" Mermaid.Terminator (quoted "'adult'")).
Proof.
  apply (@flowchart_texts_stripped Z Z_host Z_toString_stripped 3 rule_adult_or_minor
           Mermaid.no_options statements_adult_or_minor).
  - reflexivity.
  - simpl. tauto.
Defined.
